(** * Structured-output extraction of MetaGPT: [metagpt/utils/common.py]

    A shallow embedding of the two parser classes of
    [metagpt/utils/common.py], [OutputParser] and [CodeParser], and of the
    parts of Python they rest on: [str] methods, the insertion-ordered
    [dict], the backtracking matcher of [re] and [ast.literal_eval].

    Conventions.
    - A Python [str] is a list of characters; a character is a code point
      below 256 ([ascii]).
    - A function that can raise returns a [result]; a function that writes
      to [logger] returns its value together with the entries it wrote.
    - The [re] patterns are kept as data ([regex]) and run by one
      backtracking matcher, so that each pattern can be compared with the
      pattern string in the source. *)

From Stdlib Require Import List Ascii ZArith Lia Bool Arith.
From Stdlib Require String.
Import ListNotations String.StringSyntax.
Local Open Scope string_scope.
Local Open Scope list_scope.

Set Implicit Arguments.
#[local] Set Warnings "-register-all".

(** ** Python strings *)

Definition str := list ascii.

Definition py (x : String.string) : str := String.list_ascii_of_string x.

(** The line feed, ["\n"]. *)
Definition nl : ascii := "010"%char.

(** [py], with a double quote for every apostrophe of [x]. *)
Definition pyq (x : String.string) : str :=
  map (fun c => if Ascii.eqb c "'" then "034"%char else c) (py x).

(** ["\n".join(ls)], used to write documents that span several lines. *)
Fixpoint join_lines (ls : list String.string) : str :=
  match ls with
  | [] => []
  | [l] => py l
  | l :: rest => py l ++ nl :: join_lines rest
  end.

(** [str.isspace] on one character, which is also the class [\s] of [re]
    on a [str] pattern: the code points 9-13, 28-32, 133 and 160. *)
Definition is_space (c : ascii) : bool :=
  existsb (Ascii.eqb c)
    ["009"; "010"; "011"; "012"; "013"; "028"; "029"; "030"; "031"; " ";
     "133"; "160"]%char.

Fixpoint str_eqb (a b : str) : bool :=
  match a, b with
  | [], [] => true
  | x :: a', y :: b' => Ascii.eqb x y && str_eqb a' b'
  | _, _ => false
  end.

(** [t.startswith(p)] *)
Fixpoint starts_with (p t : str) : bool :=
  match p, t with
  | [], _ => true
  | x :: p', y :: t' => Ascii.eqb x y && starts_with p' t'
  | _ :: _, [] => false
  end.

(** [t.find(sub)], with [None] for Python's [-1]. *)
Fixpoint find (sub t : str) : option nat :=
  if starts_with sub t then Some 0
  else match t with
       | [] => None
       | _ :: t' => option_map S (find sub t')
       end.

(** [t.rfind(sub)], with [None] for Python's [-1]. *)
Fixpoint rfind (sub t : str) : option nat :=
  match t with
  | [] => if starts_with sub [] then Some 0 else None
  | _ :: t' =>
      match rfind sub t' with
      | Some i => Some (S i)
      | None => if starts_with sub t then Some 0 else None
      end
  end.

(** [sub in t] *)
Definition contains (sub t : str) : bool :=
  match find sub t with Some _ => true | None => false end.

(** [t[a:b]] for non-negative [a] and [b]. *)
Definition slice (a b : nat) (t : str) : str := skipn a (firstn b t).

(** [t.split(sep)] for a non-empty [sep]: cut at each occurrence found from
    left to right, the search resuming after the separator.  Every cut
    consumes at least one character, so [length t] rounds are enough. *)
Fixpoint split_from (fuel : nat) (sep t : str) : list str :=
  match fuel, find sep t with
  | S f, Some i => firstn i t :: split_from f sep (skipn (i + length sep) t)
  | _, _ => [t]
  end.

Definition split (sep t : str) : list str := split_from (length t) sep t.

(** [t.split(sep, 1)] *)
Definition split1 (sep t : str) : list str :=
  match find sep t with
  | Some i => [firstn i t; skipn (i + length sep) t]
  | None => [t]
  end.

Fixpoint lstrip (t : str) : str :=
  match t with
  | c :: t' => if is_space c then lstrip t' else t
  | [] => []
  end.

Definition rstrip (t : str) : str := rev (lstrip (rev t)).

(** [t.strip()] *)
Definition strip (t : str) : str := rstrip (lstrip t).

(** [t[-1]], which raises [IndexError] on the empty string. *)
Definition last_char (t : str) : option ascii :=
  match rev t with
  | c :: _ => Some c
  | [] => None
  end.

(** ** Exceptions and results *)

Inductive exn : Type :=
| ValueError
| IndexError
| SyntaxError
| TypeError
| RecursionError
| MemoryError.

Inductive result (A : Type) : Type :=
| Ok (a : A)
| Raise (e : exn).

Arguments Ok {A} a.
Arguments Raise {A} e.

Definition bind {A B : Type} (r : result A) (f : A -> result B) : result B :=
  match r with
  | Ok a => f a
  | Raise e => Raise e
  end.

(** ** Python dictionaries

    A [dict] keeps its keys in the order of their first insertion;
    assigning to a key that is present replaces the value in place. *)

Definition dict (V : Type) := list (str * V).

Fixpoint dict_set {V : Type} (k : str) (v : V) (d : dict V) : dict V :=
  match d with
  | [] => [(k, v)]
  | (k', v') :: d' =>
      if str_eqb k' k then (k', v) :: d' else (k', v') :: dict_set k v d'
  end.

Fixpoint dict_get {V : Type} (k : str) (d : dict V) : option V :=
  match d with
  | [] => None
  | (k', v') :: d' => if str_eqb k' k then Some v' else dict_get k d'
  end.

Definition keys {V : Type} (d : dict V) : list str := map fst d.

(** All elements of a list of strings are different. *)
Fixpoint distinct (l : list str) : bool :=
  match l with
  | [] => true
  | x :: l' => negb (existsb (str_eqb x) l') && distinct l'
  end.

(** ** Regular expressions

    The patterns of the source use literal text, the classes [.] (with
    [re.DOTALL], any character) and [\s], the greedy and the lazy star over
    a class, an optional group and capturing groups.  [run] is the
    backtracking matcher of [re]: it tries the alternatives of each
    construct in the order of preference and hands the rest of the input to
    the continuation [k]; a later failure comes back as [None] and the next
    alternative is tried. *)

Inductive regex : Type :=
| Str (l : str)
| Cls (p : ascii -> bool)
| Cat (r1 r2 : regex)
| StarGreedy (p : ascii -> bool)
| StarLazy (p : ascii -> bool)
| Opt (r : regex)
| Grp (n : nat) (r : regex).

(** [r1 r2 ... rn] *)
Fixpoint seq (rs : list regex) : regex :=
  match rs with
  | [] => Str []
  | [r] => r
  | r :: rs' => Cat r (seq rs')
  end.

(** [.] under [re.DOTALL] *)
Definition any_char (c : ascii) : bool := true.

(** [\s+] *)
Definition spaces1 : regex := Cat (Cls is_space) (StarGreedy is_space).

(** The groups that took part in a match, the latest first. *)
Definition captures := list (nat * str).

Fixpoint strip_prefix (p t : str) : option str :=
  match p, t with
  | [], _ => Some t
  | x :: p', y :: t' => if Ascii.eqb x y then strip_prefix p' t' else None
  | _ :: _, [] => None
  end.

(** What was read between the input [t] and its suffix [t']. *)
Definition consumed (t t' : str) : str := firstn (length t - length t') t.

Section Matcher.

Variable A : Type.

(** [p*?]: first the continuation here, then after one more character. *)
Fixpoint star_lazy (p : ascii -> bool) (t : str) (k : str -> option A)
  : option A :=
  match k t with
  | Some a => Some a
  | None =>
      match t with
      | c :: t' => if p c then star_lazy p t' k else None
      | [] => None
      end
  end.

(** [p*]: first as many characters as possible, then one fewer. *)
Fixpoint star_greedy (p : ascii -> bool) (t : str) (k : str -> option A)
  : option A :=
  match t with
  | c :: t' =>
      if p c then
        match star_greedy p t' k with
        | Some a => Some a
        | None => k t
        end
      else k t
  | [] => k t
  end.

Fixpoint run (r : regex) (t : str) (caps : captures)
  (k : str -> captures -> option A) : option A :=
  match r with
  | Str l =>
      match strip_prefix l t with
      | Some t' => k t' caps
      | None => None
      end
  | Cls p =>
      match t with
      | c :: t' => if p c then k t' caps else None
      | [] => None
      end
  | Cat r1 r2 => run r1 t caps (fun t1 caps1 => run r2 t1 caps1 k)
  | StarGreedy p => star_greedy p t (fun t' => k t' caps)
  | StarLazy p => star_lazy p t (fun t' => k t' caps)
  | Opt r' =>
      match run r' t caps k with
      | Some a => Some a
      | None => k t caps
      end
  | Grp n r' =>
      run r' t caps (fun t' caps' => k t' ((n, consumed t t') :: caps'))
  end.

End Matcher.

(** [re.match(r, t)]: the groups of a match that starts at the head of [t]. *)
Definition match_here (r : regex) (t : str) : option captures :=
  run r t [] (fun _ caps => Some caps).

(** [re.search(r, t)]: the leftmost start from which [r] matches. *)
Fixpoint search (r : regex) (t : str) : option captures :=
  match match_here r t with
  | Some caps => Some caps
  | None =>
      match t with
      | [] => None
      | _ :: t' => search r t'
      end
  end.

(** [m.group(n)] for a group that took part in the match. *)
Fixpoint group (n : nat) (caps : captures) : option str :=
  match caps with
  | [] => None
  | (m, g) :: caps' => if Nat.eqb m n then Some g else group n caps'
  end.

(** The characters that [re] reads as operators.  A text without them,
    spliced into a pattern by an f-string, matches itself. *)
Definition is_special (c : ascii) : bool :=
  existsb (Ascii.eqb c)
    ["."; "^"; "$"; "*"; "+"; "?"; "{"; "}"; "["; "]"; "\"; "|"; "("; ")"]%char.

Definition plain (t : str) : bool := forallb (fun c => negb (is_special c)) t.

(** ** Values and logging *)

(** The values [ast.literal_eval] can return.  [VOther] stands for a value
    of a type that the parsers never look into (float, complex, bytes, set,
    Ellipsis), kept as its [repr]. *)
Inductive pyval : Type :=
| VNone
| VBool (b : bool)
| VInt (z : Z)
| VStr (s : str)
| VList (l : list pyval)
| VTuple (l : list pyval)
| VDict (items : list (pyval * pyval))
| VOther (repr : str).

(** The [data_type] argument of [extract_struct]: [list] or [dict]. *)
Inductive kind : Type := KList | KDict.

(** The calls of [logger.error], one constructor per call site. *)
Inductive log_entry : Type :=
| NoCodeBlockFound (lang : str)
| NoStructFound (data_type : kind)
| NotOfKind (data_type : kind)
| ErrorParsing (data_type : kind) (e : exn)
| PatternNotMatched (lang : str)
| LoggedText (text : str).

Definition logged (A : Type) : Type := (A * list log_entry)%type.

(** The types [parse_data_with_mapping] compares a field's declaration
    with, and any other one. *)
Inductive typing : Type :=
| ListStr
| ListTupleStrStr
| ListListStr
| OtherType.

(** A value of [mapping]: a type, or a tuple whose first component is the
    type. *)
Inductive typing_define : Type :=
| JustType (t : typing)
| TupleOf (t : typing).

Definition isinstance (v : pyval) (data_type : kind) : bool :=
  match data_type, v with
  | KList, VList _ => true
  | KDict, VDict _ => true
  | _, _ => false
  end.

(** The double quote. *)
Definition dq : ascii := "034"%char.

(** [t.strip(chars)]: the characters of [chars] removed from both ends. *)
Fixpoint lstrip_chars (chars t : str) : str :=
  match t with
  | c :: t' => if existsb (Ascii.eqb c) chars then lstrip_chars chars t' else t
  | [] => []
  end.

Definition rstrip_chars (chars t : str) : str :=
  rev (lstrip_chars chars (rev t)).

Definition strip_chars (chars t : str) : str :=
  rstrip_chars chars (lstrip_chars chars t).

(** ** The parsers *)

Definition nonblank (block : str) : bool :=
  negb (str_eqb (strip block) []).

Definition fence : str := py "```".

Module OutputParser.

(** The body of the [for] loop of [parse_blocks], threading [block_dict].
    [block.split("\n", 1)] is unpacked into two names, which raises
    [ValueError] when the block has no line feed; [block_title[-1]]
    raises [IndexError] when the title is empty. *)
Fixpoint parse_blocks_loop (blocks : list str) (block_dict : dict str)
  : result (dict str) :=
  match blocks with
  | [] => Ok block_dict
  | block :: rest =>
      if nonblank block then
        match split1 [nl] block with
        | [block_title; block_content] =>
            match last_char block_title with
            | None => Raise IndexError
            | Some c =>
                let block_title :=
                  if Ascii.eqb c ":" then removelast block_title
                  else block_title in
                parse_blocks_loop rest
                  (dict_set (strip block_title) (strip block_content)
                     block_dict)
            end
        | _ => Raise ValueError
        end
      else parse_blocks_loop rest block_dict
  end.

Definition parse_blocks (text : str) : result (dict str) :=
  parse_blocks_loop (split (py "##") text) [].

(** [rf"```{lang}\s+(.*?)```" if lang else r"```.*?\s+(.*?)```"], for a
    [lang] that is [plain]; [Spliced], below, has the pattern of the other
    tags. *)
Definition code_pattern (lang : str) : regex :=
  match lang with
  | _ :: _ =>
      seq [Str fence; Str lang; spaces1; Grp 1 (StarLazy any_char);
           Str fence]
  | [] =>
      seq [Str fence; StarLazy any_char; spaces1;
           Grp 1 (StarLazy any_char); Str fence]
  end.

Definition parse_code (text lang : str) : logged str :=
  match search (code_pattern lang) text with
  | Some m =>
      match group 1 m with
      | Some code => (code, [])
      | None => ([], [])
      end
  | None => ([], [NoCodeBlockFound lang])
  end.

(** The pattern of [parse_file_list], written with blanks between its
    parts: [\s* ( .* = .* )? ( \[ .* \] )]. *)
Definition file_list_pattern : regex :=
  seq [StarGreedy is_space;
       Opt (Grp 1 (seq [StarGreedy any_char; Str (py "=");
                        StarGreedy any_char]));
       Grp 2 (seq [Str (py "["); StarGreedy any_char; Str (py "]")])].

(** [rf"\[{tag}\](.*?)\[/{tag}\]"], for a [tag] that is [plain];
    [Spliced], below, has the pattern of the other tags. *)
Definition content_pattern (tag : str) : regex :=
  seq [Str (py "[" ++ tag ++ py "]"); Grp 1 (StarLazy any_char);
       Str (py "[/" ++ tag ++ py "]")].

Definition extract_content (text tag : str) : result str :=
  match search (content_pattern tag) text with
  | Some m =>
      match group 1 m with
      | Some g => Ok (strip g)
      | None => Ok []
      end
  | None => Raise ValueError
  end.

Section WithLiteralEval.

(** [ast.literal_eval], of the Python standard library. *)
Variable literal_eval : str -> result pyval.

Definition parse_file_list (text : str) : result pyval :=
  match search file_list_pattern text with
  | Some m =>
      match group 2 m with
      | Some tasks_list_str => literal_eval tasks_list_str
      | None => literal_eval []
      end
  | None => Ok (VList (map VStr (split [nl] text)))
  end.

(** One round of the [for] loop of [parse_data_with_mapping]: the new
    [content] of a block.  [parse_code] is called under
    [try ... except Exception: pass], and so is [parse_file_list],
    which leaves [content] as it was when it raises. *)
Definition parse_field (content : str) (typing_define : option typing_define)
  : logged pyval :=
  let '(content, logs) := parse_code content [] in
  let typing :=
    match typing_define with
    | Some (TupleOf t) => Some t
    | Some (JustType t) => Some t
    | None => None
    end in
  match typing with
  | Some ListStr | Some ListTupleStrStr | Some ListListStr =>
      match parse_file_list content with
      | Ok tasks => (tasks, logs)
      | Raise _ => (VStr content, logs)
      end
  | _ => (VStr content, logs)
  end.

Fixpoint parse_data_loop (items : dict str) (mapping : dict typing_define)
  (parsed_data : dict pyval) : logged (dict pyval) :=
  match items with
  | [] => (parsed_data, [])
  | (block, content) :: rest =>
      let '(content, logs) := parse_field content (dict_get block mapping) in
      let '(d, logs') :=
        parse_data_loop rest mapping (dict_set block content parsed_data) in
      (d, logs ++ logs')
  end.

Definition parse_data_with_mapping (data : str) (mapping : dict typing_define)
  : logged (result (dict pyval)) :=
  match
    bind (if contains (py "[CONTENT]") data
          then extract_content data (py "CONTENT") else Ok data)
      parse_blocks
  with
  | Ok block_dict =>
      let '(d, logs) := parse_data_loop block_dict mapping [] in
      (Ok d, logs)
  | Raise e => (Raise e, [])
  end.

Definition open_bracket (data_type : kind) : str :=
  match data_type with KList => py "[" | KDict => py "{" end.

Definition close_bracket (data_type : kind) : str :=
  match data_type with KList => py "]" | KDict => py "}" end.

(** [extract_struct] returns [None] when it falls off its end;
    [except (ValueError, SyntaxError)] lets any other exception of
    [ast.literal_eval] through. *)
Definition extract_struct (text : str) (data_type : kind)
  : logged (result pyval) :=
  match find (open_bracket data_type) text,
        rfind (close_bracket data_type) text with
  | Some start_index, Some end_index =>
      let structure_text := slice start_index (end_index + 1) text in
      match literal_eval structure_text with
      | Ok result =>
          if isinstance result data_type then (Ok result, [])
          else (Ok VNone, [NotOfKind data_type])
      | Raise ValueError =>
          (Ok VNone, [ErrorParsing data_type ValueError])
      | Raise SyntaxError =>
          (Ok VNone, [ErrorParsing data_type SyntaxError])
      | Raise e => (Raise e, [])
      end
  | _, _ =>
      (Ok (match data_type with KList => VList [] | KDict => VDict [] end),
       [NoStructFound data_type])
  end.

End WithLiteralEval.

(** [text.split("=")[-1]], then the three [strip]. *)
Definition parse_str (text : str) : str :=
  let text := last (split (py "=") text) [] in
  strip_chars [dq] (strip_chars (py "'") (strip text)).

(** The [for] loop of [parse_data].  [parse_code] returns in every case, so
    the handler of the [try], which would call [parse_file_list], is never
    entered, and every [content] is the string [parse_code] returns. *)
Fixpoint parse_data_items (items : dict str) (parsed_data : dict str)
  : logged (dict str) :=
  match items with
  | [] => (parsed_data, [])
  | (block, content) :: rest =>
      let '(content, logs) := parse_code content [] in
      let '(d, logs') :=
        parse_data_items rest (dict_set block content parsed_data) in
      (d, logs ++ logs')
  end.

Definition parse_data (data : str) : logged (result (dict str)) :=
  match parse_blocks data with
  | Ok block_dict =>
      let '(d, logs) := parse_data_items block_dict [] in
      (Ok d, logs)
  | Raise e => (Raise e, [])
  end.

(** The two patterns of [parse_python_code], written with blanks between
    their parts: [( .*? ```python .*? \s+ )? (?P<code> .* ) ( ``` .*? )]
    and the same without its last group.  The group [code] is the second. *)
Definition python_head : regex :=
  Opt (Grp 1 (seq [StarLazy any_char; Str (py "```python");
                   StarLazy any_char; spaces1])).

Definition python_pattern_1 : regex :=
  seq [python_head; Grp 2 (StarGreedy any_char);
       Grp 3 (seq [Str fence; StarLazy any_char])].

Definition python_pattern_2 : regex :=
  seq [python_head; Grp 2 (StarGreedy any_char)].

Section WithAstParse.

(** Whether [ast.parse(code)] returns; an exception it raises is suppressed
    by [contextlib.suppress(Exception)]. *)
Variable ast_parse : str -> bool.

(** One round of the [for] loop of [parse_python_code]: the code returned
    from inside the loop, or [None] when the loop goes on. *)
Definition parse_python_code_with (pattern : regex) (text : str)
  : option str :=
  match search pattern text with
  | None => None
  | Some m =>
      match group 2 m with
      | Some (c :: code) =>
          if ast_parse (c :: code) then Some (c :: code) else None
      | _ => None
      end
  end.

Definition parse_python_code (text : str) : result str :=
  match parse_python_code_with python_pattern_1 text with
  | Some code => Ok code
  | None =>
      match parse_python_code_with python_pattern_2 text with
      | Some code => Ok code
      | None => Raise ValueError
      end
  end.

End WithAstParse.

End OutputParser.

Module CodeParser.

(** The [for] loop of [parse_blocks].  A block that contains a line feed
    is cut at the first one into exactly two parts. *)
Fixpoint parse_blocks_loop (blocks : list str) (block_dict : dict str)
  : dict str :=
  match blocks with
  | [] => block_dict
  | block :: rest =>
      if negb (nonblank block) then parse_blocks_loop rest block_dict
      else
        let '(block_title, block_content) :=
          match find [nl] block with
          | None => (block, [])
          | Some i => (firstn i block, skipn (i + 1) block)
          end in
        parse_blocks_loop rest
          (dict_set (strip block_title) (strip block_content) block_dict)
  end.

Definition parse_blocks (text : str) : dict str :=
  parse_blocks_loop (split (py "##") text) [].

(** The [for k, v in blocks.items()] loop of [parse_block]. *)
Fixpoint parse_block_loop (block : str) (items : dict str) : str :=
  match items with
  | [] => []
  | (k, v) :: rest =>
      if contains block k then v else parse_block_loop block rest
  end.

Definition parse_block (block text : str) : str :=
  parse_block_loop block (parse_blocks text).

(** [rf"```{lang}\s+(.*?)```"], for a [lang] that is [plain]; [Spliced],
    below, has the pattern of the other tags. *)
Definition code_pattern (lang : str) : regex :=
  seq [Str fence; Str lang; spaces1; Grp 1 (StarLazy any_char); Str fence].

Definition parse_code (block text lang : str) : logged str :=
  let text :=
    match block with
    | _ :: _ => parse_block block text
    | [] => text
    end in
  match search (code_pattern lang) text with
  | Some m =>
      match group 1 m with
      | Some code => (code, [])
      | None => ([], [])
      end
  | None => (text, [PatternNotMatched lang; LoggedText text])
  end.

(** [parse_str]: the code of [parse_code], cut after its last [=] and
    stripped. *)
Definition parse_str (block text lang : str) : logged str :=
  let '(code, logs) := parse_code block text lang in
  let code := last (split (py "=") code) [] in
  (strip_chars [dq] (strip_chars (py "'") (strip code)), logs).

(** What [parse_file_list] logs: the entries of [parse_code], and its own
    [logger.error] when the pattern is not found. *)
Inductive file_list_log : Type :=
| FromParseCode (e : log_entry)
| UnableToParseFileList (code : str).

Section WithLiteralEval.

(** [ast.literal_eval], of the Python standard library. *)
Variable literal_eval : str -> result pyval.

Definition parse_file_list (block text lang : str)
  : result pyval * list file_list_log :=
  let '(code, logs) := parse_code block text lang in
  match search OutputParser.file_list_pattern code with
  | Some m =>
      match group 2 m with
      | Some tasks_list_str =>
          (literal_eval tasks_list_str, map FromParseCode logs)
      | None => (literal_eval [], map FromParseCode logs)
      end
  | None =>
      (Ok (VList []), map FromParseCode logs ++ [UnableToParseFileList code])
  end.

End WithLiteralEval.

End CodeParser.

(** ** The tag spliced into a pattern

    The patterns of [parse_code] and of [extract_content] are f-strings,
    [rf"```{lang}\s+(.*?)```"] and the like: the text of [lang], or of
    [tag], becomes a part of the pattern as it is, and [re] reads it as a
    pattern.  [code_pattern] and [content_pattern] above are the patterns of
    a tag that is [plain], which matches itself and nothing else.  The
    definitions of [Spliced] follow the source for every tag made of
    ordinary characters and of dots, a dot matching any character under
    [re.DOTALL].  A tag with another operator is outside of this model,
    which gives [None] for it and does not say what [re] does with the
    pattern ([re] may refuse it with [re.error]). *)

(** The text of a tag, read by [re]. *)
Fixpoint tag_pattern (tag : str) : option (list regex) :=
  match tag with
  | [] => Some []
  | c :: tag' =>
      match tag_pattern tag' with
      | Some rs =>
          if Ascii.eqb c "." then Some (Cls any_char :: rs)
          else if is_special c then None
          else Some (Str [c] :: rs)
      | None => None
      end
  end.

Module Spliced.

Module OutputParser.

(** [rf"```{lang}\s+(.*?)```" if lang else r"```.*?\s+(.*?)```"] *)
Definition code_pattern (lang : str) : option regex :=
  match lang with
  | _ :: _ =>
      match tag_pattern lang with
      | Some rs =>
          Some (seq (Str fence :: rs ++
                     [spaces1; Grp 1 (StarLazy any_char); Str fence]))
      | None => None
      end
  | [] =>
      Some (seq [Str fence; StarLazy any_char; spaces1;
                 Grp 1 (StarLazy any_char); Str fence])
  end.

Definition parse_code (text lang : str) : option (logged str) :=
  match code_pattern lang with
  | Some pattern =>
      Some match search pattern text with
           | Some m =>
               match group 1 m with
               | Some code => (code, [])
               | None => ([], [])
               end
           | None => ([], [NoCodeBlockFound lang])
           end
  | None => None
  end.

(** [rf"\[{tag}\](.*?)\[/{tag}\]"] *)
Definition content_pattern (tag : str) : option regex :=
  match tag_pattern tag with
  | Some rs =>
      Some (seq (Str (py "[") :: rs ++
                 [Str (py "]"); Grp 1 (StarLazy any_char); Str (py "[/")] ++
                 rs ++ [Str (py "]")]))
  | None => None
  end.

Definition extract_content (text tag : str) : option (result str) :=
  match content_pattern tag with
  | Some pattern =>
      Some match search pattern text with
           | Some m =>
               match group 1 m with
               | Some g => Ok (strip g)
               | None => Ok []
               end
           | None => Raise ValueError
           end
  | None => None
  end.

End OutputParser.

Module CodeParser.

(** [rf"```{lang}\s+(.*?)```"] *)
Definition code_pattern (lang : str) : option regex :=
  match tag_pattern lang with
  | Some rs =>
      Some (seq (Str fence :: rs ++
                 [spaces1; Grp 1 (StarLazy any_char); Str fence]))
  | None => None
  end.

Definition parse_code (block text lang : str) : option (logged str) :=
  let text :=
    match block with
    | _ :: _ => CodeParser.parse_block block text
    | [] => text
    end in
  match code_pattern lang with
  | Some pattern =>
      Some match search pattern text with
           | Some m =>
               match group 1 m with
               | Some code => (code, [])
               | None => ([], [])
               end
           | None => (text, [PatternNotMatched lang; LoggedText text])
           end
  | None => None
  end.

End CodeParser.

End Spliced.

(** ** A model of [ast.literal_eval]

    The theorems below that hold for every text are stated for an arbitrary
    evaluator.  The examples run this one, which covers the literals built
    from decimal integers (with a sign), quoted strings without backslash,
    the names [True], [False] and [None], lists and dicts.  As in Python,
    the text is parsed first, and converted to a value only when the whole
    of it parses: an identifier that is not one of the three names, or a
    sign in front of something that is not a number, is a [ValueError],
    and a list or a dict used as a key of a dict is a [TypeError].  A text
    that does not parse in this grammar is reported as a [SyntaxError]: on
    the literals that Python has besides (tuples, sets, floats and the
    like) the model differs from [ast.literal_eval], and no example uses
    them. *)

Module Literal.

Inductive token : Type :=
| TLBracket
| TRBracket
| TLBrace
| TRBrace
| TComma
| TColon
| TMinus
| TInt (z : Z)
| TString (s : str)
| TName (s : str).

Inductive expr : Type :=
| EInt (z : Z)
| EString (s : str)
| EName (s : str)
| ENeg (e : expr)
| EList (l : list expr)
| EDict (items : list (expr * expr)).

Definition is_digit (c : ascii) : bool :=
  existsb (Ascii.eqb c) (py "0123456789").

Definition is_name_start (c : ascii) : bool :=
  existsb (Ascii.eqb c)
    (py "abcdefghijklmnopqrstuvwxyzABCDEFGHIJKLMNOPQRSTUVWXYZ_").

Definition is_name_char (c : ascii) : bool := is_name_start c || is_digit c.

Definition is_blank (c : ascii) : bool :=
  existsb (Ascii.eqb c) [" "; "009"; "010"; "012"; "013"]%char.

Definition is_quote (c : ascii) : bool :=
  Ascii.eqb c "'" || Ascii.eqb c "034".

Fixpoint take_while (p : ascii -> bool) (t : str) : str * str :=
  match t with
  | c :: t' =>
      if p c then let '(a, b) := take_while p t' in (c :: a, b)
      else ([], t)
  | [] => ([], [])
  end.

Definition digit_value (c : ascii) : Z := Z.of_nat (nat_of_ascii c) - 48.

Definition int_of_digits (ds : str) : Z :=
  fold_left (fun acc c => 10 * acc + digit_value c)%Z ds 0%Z.

(** The characters of a string literal up to the closing quote [q]. *)
Fixpoint read_string (q : ascii) (t : str) : option (str * str) :=
  match t with
  | [] => None
  | c :: t' =>
      if Ascii.eqb c q then Some ([], t')
      else if Ascii.eqb c "\" || Ascii.eqb c nl then None
      else match read_string q t' with
           | Some (a, b) => Some (c :: a, b)
           | None => None
           end
  end.

Definition keywords : list str :=
  map py
    ["and"; "as"; "assert"; "async"; "await"; "break"; "class"; "continue";
     "def"; "del"; "elif"; "else"; "except"; "finally"; "for"; "from";
     "global"; "if"; "import"; "in"; "is"; "lambda"; "nonlocal"; "not";
     "or"; "pass"; "raise"; "return"; "try"; "while"; "with"; "yield"].

Fixpoint tokenize (fuel : nat) (t : str) : option (list token) :=
  match fuel with
  | O => None
  | S fuel' =>
      match t with
      | [] => Some []
      | c :: t' =>
          let punct (tok : token) :=
            option_map (cons tok) (tokenize fuel' t') in
          if is_blank c then tokenize fuel' t'
          else if Ascii.eqb c "[" then punct TLBracket
          else if Ascii.eqb c "]" then punct TRBracket
          else if Ascii.eqb c "{" then punct TLBrace
          else if Ascii.eqb c "}" then punct TRBrace
          else if Ascii.eqb c "," then punct TComma
          else if Ascii.eqb c ":" then punct TColon
          else if Ascii.eqb c "-" then punct TMinus
          else if is_quote c then
            match read_string c t' with
            | Some (body, rest) =>
                option_map (cons (TString body)) (tokenize fuel' rest)
            | None => None
            end
          else if is_digit c then
            let '(ds, rest) := take_while is_digit t in
            let leading_zero :=
              Ascii.eqb c "0" && Nat.ltb 1 (length ds) in
            let glued :=
              match rest with
              | d :: _ => is_name_char d || Ascii.eqb d "."
              | [] => false
              end in
            if leading_zero || glued then None
            else option_map (cons (TInt (int_of_digits ds)))
                   (tokenize fuel' rest)
          else if is_name_start c then
            let '(name, rest) := take_while is_name_char t in
            let prefix_of_string :=
              match rest with
              | d :: _ => is_quote d
              | [] => false
              end in
            if prefix_of_string || existsb (str_eqb name) keywords then None
            else option_map (cons (TName name)) (tokenize fuel' rest)
          else None
      end
  end.

(** Recursive descent; every call reads at least one token. *)
Fixpoint parse_expr (fuel : nat) (toks : list token)
  : option (expr * list token) :=
  match fuel with
  | O => None
  | S fuel' =>
      let fix parse_items (n : nat) (toks : list token)
        : option (list expr * list token) :=
        match n with
        | O => None
        | S n' =>
            match toks with
            | TRBracket :: rest => Some ([], rest)
            | _ =>
                match parse_expr fuel' toks with
                | Some (e, TComma :: rest) =>
                    match parse_items n' rest with
                    | Some (es, rest') => Some (e :: es, rest')
                    | None => None
                    end
                | Some (e, TRBracket :: rest) => Some ([e], rest)
                | _ => None
                end
            end
        end in
      let fix parse_pairs (n : nat) (toks : list token)
        : option (list (expr * expr) * list token) :=
        match n with
        | O => None
        | S n' =>
            match toks with
            | TRBrace :: rest => Some ([], rest)
            | _ =>
                match parse_expr fuel' toks with
                | Some (k, TColon :: rest) =>
                    match parse_expr fuel' rest with
                    | Some (v, TComma :: rest') =>
                        match parse_pairs n' rest' with
                        | Some (ps, rest'') => Some ((k, v) :: ps, rest'')
                        | None => None
                        end
                    | Some (v, TRBrace :: rest') => Some ([(k, v)], rest')
                    | _ => None
                    end
                | _ => None
                end
            end
        end in
      match toks with
      | TInt z :: rest => Some (EInt z, rest)
      | TString s :: rest => Some (EString s, rest)
      | TName s :: rest => Some (EName s, rest)
      | TMinus :: rest =>
          match parse_expr fuel' rest with
          | Some (e, rest') => Some (ENeg e, rest')
          | None => None
          end
      | TLBracket :: rest =>
          match parse_items fuel' rest with
          | Some (es, rest') => Some (EList es, rest')
          | None => None
          end
      | TLBrace :: rest =>
          match parse_pairs fuel' rest with
          | Some (ps, rest') => Some (EDict ps, rest')
          | None => None
          end
      | _ => None
      end
  end.

(** [hash(v)] does not raise. *)
Fixpoint hashable (v : pyval) : bool :=
  match v with
  | VList _ | VDict _ | VOther _ => false
  | VTuple l => forallb hashable l
  | _ => true
  end.

(** Equality of two keys of the fragment: [True == 1] and [False == 0]. *)
Definition key_eqb (a b : pyval) : bool :=
  match a, b with
  | VNone, VNone => true
  | VBool x, VBool y => Bool.eqb x y
  | VInt x, VInt y => Z.eqb x y
  | VBool x, VInt y | VInt y, VBool x => Z.eqb (if x then 1 else 0) y
  | VStr x, VStr y => str_eqb x y
  | _, _ => false
  end.

Fixpoint items_set (k v : pyval) (d : list (pyval * pyval))
  : list (pyval * pyval) :=
  match d with
  | [] => [(k, v)]
  | (k', v') :: d' =>
      if key_eqb k' k then (k', v) :: d' else (k', v') :: items_set k v d'
  end.

(** [_convert] of [ast.literal_eval].  The pairs of a dict are converted
    and inserted one after the other, key before value. *)
Fixpoint convert (e : expr) : result pyval :=
  match e with
  | EInt z => Ok (VInt z)
  | EString s => Ok (VStr s)
  | EName n =>
      if str_eqb n (py "True") then Ok (VBool true)
      else if str_eqb n (py "False") then Ok (VBool false)
      else if str_eqb n (py "None") then Ok VNone
      else Raise ValueError
  | ENeg (EInt z) => Ok (VInt (- z))
  | ENeg _ => Raise ValueError
  | EList l =>
      bind
        ((fix elements (l : list expr) : result (list pyval) :=
            match l with
            | [] => Ok []
            | x :: l' =>
                bind (convert x) (fun v =>
                bind (elements l') (fun vs => Ok (v :: vs)))
            end) l)
        (fun vs => Ok (VList vs))
  | EDict items =>
      bind
        ((fix pairs (items : list (expr * expr)) (acc : list (pyval * pyval))
            : result (list (pyval * pyval)) :=
            match items with
            | [] => Ok acc
            | (k, v) :: rest =>
                bind (convert k) (fun kv =>
                bind (convert v) (fun vv =>
                if hashable kv then pairs rest (items_set kv vv acc)
                else Raise TypeError))
            end) items [])
        (fun d => Ok (VDict d))
  end.

Definition literal_eval (text : str) : result pyval :=
  match tokenize (S (length text)) text with
  | Some toks =>
      match parse_expr (S (length toks)) toks with
      | Some (e, []) => convert e
      | _ => Raise SyntaxError
      end
  | None => Raise SyntaxError
  end.

End Literal.

(** ** The specification's reading

    The definitions of this module follow the words of the specification,
    not the code; the theorems compare the parsers with them. *)

Module Spec.

(** The fragments between heading delimiters that are not blank. *)
Definition fragments (document : str) : list str :=
  filter nonblank (split (py "##") document).

(** "The first line is the title, the rest is the body; if no line break
    exists, body is empty." *)
Definition first_line (fragment : str) : str :=
  match find [nl] fragment with
  | Some i => firstn i fragment
  | None => fragment
  end.

Definition rest_lines (fragment : str) : str :=
  match find [nl] fragment with
  | Some i => skipn (i + 1) fragment
  | None => []
  end.

(** "If a title ends with [:], drop the trailing colon before trimming." *)
Definition drop_colon (title : str) : str :=
  match rev title with
  | c :: before => if Ascii.eqb c ":" then rev before else title
  | [] => title
  end.

Definition section (fragment : str) : str * str :=
  (strip (drop_colon (first_line fragment)), strip (rest_lines fragment)).

(** [splitSections] for a document whose titles are distinct: one entry
    per fragment, in the order of the document. *)
Definition splitSections (document : str) : dict str :=
  map section (fragments document).

(** The same without the rule of the colon. *)
Definition section_keep_colon (fragment : str) : str * str :=
  (strip (first_line fragment), strip (rest_lines fragment)).

(** The fragment has a line break, and a first line that is not empty. *)
Definition has_title_line (fragment : str) : bool :=
  match find [nl] fragment with
  | Some (S _) => true
  | _ => false
  end.

(** The body of the last fragment whose title is [title]. *)
Fixpoint last_body (entry : str -> str * str) (title : str)
  (frags : list str) : option str :=
  match frags with
  | [] => None
  | f :: rest =>
      match last_body entry title rest with
      | Some b => Some b
      | None =>
          if str_eqb (fst (entry f)) title then Some (snd (entry f))
          else None
      end
  end.

(** [sub] occurs in [t]. *)
Definition occurs (sub t : str) : Prop := exists a b, t = a ++ sub ++ b.

(** A fence in [text]: three backticks, the language tag (any text when
    [lang] is empty), white space, and three backticks further on. *)
Definition fenced (lang text : str) : Prop :=
  exists a tag w b c,
    (lang <> [] -> tag = lang) /\ is_space w = true /\
    text = a ++ fence ++ tag ++ w :: b ++ fence ++ c.

(** A fence whose tag is exactly [lang], also when [lang] is empty. *)
Definition fenced_exactly (lang text : str) : Prop :=
  exists a w b c,
    is_space w = true /\ text = a ++ fence ++ lang ++ w :: b ++ fence ++ c.

(** "Find the substring between [[<tag>]] and [[/<tag>]] (non-greedy); if
    both markers are present, return the trimmed inner content; if either
    marker is missing, raise." *)
Definition unwrap (text tag : str) : result str :=
  let opening := py "[" ++ tag ++ py "]" in
  let closing := py "[/" ++ tag ++ py "]" in
  match find opening text with
  | None => Raise ValueError
  | Some i =>
      let inner := skipn (i + length opening) text in
      match find closing inner with
      | None => Raise ValueError
      | Some j => Ok (strip (firstn j inner))
      end
  end.

(** "The resulting ordered sequence of non-empty trimmed lines." *)
Definition trimmed_lines (body : str) : list str :=
  filter (fun l => negb (str_eqb l [])) (map strip (split [nl] body)).

(** An opening square bracket with a closing one further on. *)
Definition has_bracket_span (text : str) : Prop :=
  exists a b c, text = a ++ py "[" ++ b ++ py "]" ++ c.

(** The language of a pattern: the texts it can read from end to end. *)
Inductive matches : regex -> str -> Prop :=
| MStr l : matches (Str l) l
| MCls (p : ascii -> bool) c : p c = true -> matches (Cls p) [c]
| MCat r1 r2 u v : matches r1 u -> matches r2 v -> matches (Cat r1 r2) (u ++ v)
| MStarGreedy (p : ascii -> bool) u :
    forallb p u = true -> matches (StarGreedy p) u
| MStarLazy (p : ascii -> bool) u :
    forallb p u = true -> matches (StarLazy p) u
| MOptNone r : matches (Opt r) []
| MOptSome r u : matches r u -> matches (Opt r) u
| MGrp n r u : matches r u -> matches (Grp n r) u.

End Spec.

(** ** Auxiliary definitions of the proofs *)

(** The dictionary after the entries of [frags] are assigned in order. *)
Definition insert_all (entry : str -> str * str) (frags : list str)
  (d : dict str) : dict str :=
  fold_left (fun d f => dict_set (fst (entry f)) (snd (entry f)) d) frags d.

(** [sep.join(parts)] *)
Fixpoint join (sep : str) (parts : list str) : str :=
  match parts with
  | [] => []
  | [p] => p
  | p :: rest => p ++ sep ++ join sep rest
  end.

(** The type a value of [mapping] declares. *)
Definition declared_type (td : typing_define) : typing :=
  match td with
  | JustType t => t
  | TupleOf t => t
  end.

(** A text that does not begin with white space. *)
Definition no_lead (t : str) : bool :=
  match t with
  | c :: _ => negb (is_space c)
  | [] => true
  end.

(** ** Other functions of [common.py] *)

(** [require_python_version].  A component of a version tuple is a number
    or a string; [sys.version_info] is
    [(major, minor, micro, releaselevel, serial)], and [req_version] is a
    tuple of numbers. *)
Inductive component : Type :=
| CInt (z : Z)
| CStr (s : str).

(** [a > b] on tuples: the first pair of components that are not equal
    decides, and a number against a string raises [TypeError]; when one
    tuple is a prefix of the other, the longer one is the greater. *)
Fixpoint tuple_gt (a : list component) (b : list Z) : result bool :=
  match a, b with
  | [], _ => Ok false
  | _ :: _, [] => Ok true
  | CInt x :: a', y :: b' =>
      if Z.eqb x y then tuple_gt a' b' else Ok (Z.gtb x y)
  | CStr _ :: _, _ :: _ => Raise TypeError
  end.

Definition require_python_version (version_info : list component)
  (req_version : list Z) : result bool :=
  if negb (Nat.leb 2 (length req_version) && Nat.leb (length req_version) 3)
  then Raise ValueError
  else tuple_gt version_info req_version.

(** The entries written to a logger of [logging]. *)
Inductive logging_entry : Type :=
| LoggingWarning (msg : str).

Definition is_letter (c : ascii) : bool :=
  existsb (Ascii.eqb c)
    (py "ABCDEFGHIJKLMNOPQRSTUVWXYZabcdefghijklmnopqrstuvwxyz").

(** [[A-Za-z]+] *)
Definition letters1 : regex := Cat (Cls is_letter) (StarGreedy is_letter).

(** The two alternatives of the pattern of [parse_recipient],
    [## Send To:\s*([A-Za-z]+)\s*] and [Send To:\s*([A-Za-z]+)\s*]. *)
Definition recipient_pattern_1 : regex :=
  seq [Str (py "## Send To:"); StarGreedy is_space; Grp 1 letters1;
       StarGreedy is_space].

Definition recipient_pattern_2 : regex :=
  seq [Str (py "Send To:"); StarGreedy is_space; Grp 2 letters1;
       StarGreedy is_space].

(** [re.search] of [r1|r2]: at every start the first alternative is tried
    before the second. *)
Fixpoint search_either (r1 r2 : regex) (t : str) : option captures :=
  match match_here r1 t with
  | Some caps => Some caps
  | None =>
      match match_here r2 t with
      | Some caps => Some caps
      | None =>
          match t with
          | [] => None
          | _ :: t' => search_either r1 r2 t'
          end
      end
  end.

(** [match.group(1) or match.group(2)]: the first group when it took part
    in the match, which makes it a non-empty string. *)
Definition parse_recipient (text : str) : str * list logging_entry :=
  match search_either recipient_pattern_1 recipient_pattern_2 text with
  | Some m =>
      match group 1 m with
      | Some (c :: g) => (c :: g, [])
      | _ =>
          match group 2 m with
          | Some g => (g, [])
          | None => ([], [])
          end
      end
  | None => ([], [LoggingWarning (py "Recipient not found in the text.")])
  end.

(** [get_class_name] on a string.  [split] never returns the empty list. *)
Definition get_class_name (class_string : str) : str :=
  match split (py ".") class_string with
  | [] => class_string
  | parts => last parts []
  end.

(** [any_to_str] on a string, which it returns as it is. *)
Definition any_to_str (val : str) : str := val.

Definition any_to_name (val : str) : str :=
  let name := any_to_str val in
  if contains (py "::") name then last (split (py "::") name) []
  else last (split (py ".") name) [].

(** [concat_namespace] on strings: [str(value)] is [value]. *)
Definition concat_namespace (args : list str) : str :=
  join (py "::") args.

(** [read_file_block].  A file that exists is the list of its lines, each
    with its line break; the reader holds the lines not read yet and
    [readline] returns the empty string at the end of the file.  What the
    function prints is left out. *)
Definition readline (reader : list str) : str * list str :=
  match reader with
  | [] => ([], [])
  | line :: rest => (line, rest)
  end.

(** The [while] loop; it runs [end_lineno] times at most. *)
Fixpoint read_file_block_loop (fuel : nat) (ix lineno end_lineno : Z)
  (reader lines : list str) : list str :=
  match fuel with
  | O => lines
  | S fuel' =>
      if (ix <? end_lineno)%Z then
        let ix := (ix + 1)%Z in
        let '(line, reader) := readline reader in
        if (ix <? lineno)%Z then
          read_file_block_loop fuel' ix lineno end_lineno reader lines
        else if (ix >? end_lineno)%Z then lines
        else
          read_file_block_loop fuel' ix lineno end_lineno reader
            (lines ++ [line])
      else lines
  end.

Definition read_file_block (file : option (list str)) (lineno end_lineno : Z)
  : str :=
  match file with
  | None => []
  | Some content =>
      concat
        (read_file_block_loop (Z.to_nat end_lineno) 0 lineno end_lineno
           content [])
  end.

(** The first character of [t], when there is one, is none of [chars]. *)
Definition no_lead_of (chars t : str) : bool :=
  match t with
  | c :: _ => negb (existsb (Ascii.eqb c) chars)
  | [] => true
  end.

(** The text from the first opening square bracket to the last closing
    one, when the first comes before the second. *)
Definition bracket_span (text : str) : option str :=
  match find (py "[") text, rfind (py "]") text with
  | Some i, Some j => if Nat.ltb i j then Some (slice i (j + 1) text) else None
  | _, _ => None
  end.
(** * Proofs *)

(** ** Strings *)

Lemma str_eqb_eq (a b : str) : str_eqb a b = true <-> a = b.
Proof.
  revert b; induction a as [|x a IH]; intros [|y b]; simpl;
    try (split; [discriminate | discriminate]); try tauto.
  rewrite andb_true_iff, Ascii.eqb_eq, IH.
  split; [intros [-> ->]; reflexivity | intros H; inversion H; auto].
Qed.

Lemma str_eqb_refl (a : str) : str_eqb a a = true.
Proof. apply str_eqb_eq; reflexivity. Qed.

Lemma str_eqb_neq (a b : str) : str_eqb a b = false <-> a <> b.
Proof.
  rewrite <- str_eqb_eq. destruct (str_eqb a b); split; congruence.
Qed.

Lemma strip_prefix_spec (p t r : str) : strip_prefix p t = Some r <-> t = p ++ r.
Proof.
  revert t; induction p as [|x p IH]; intros t; simpl.
  - split; congruence.
  - destruct t as [|y t]; [split; discriminate|].
    destruct (Ascii.eqb x y) eqn:E.
    + apply Ascii.eqb_eq in E; subst y. rewrite IH.
      split; [intros ->; reflexivity | intros H; inversion H; auto].
    + apply Ascii.eqb_neq in E. split; [discriminate | intros H; inversion H; congruence].
Qed.

Lemma strip_prefix_app (p r : str) : strip_prefix p (p ++ r) = Some r.
Proof. apply strip_prefix_spec; reflexivity. Qed.

Lemma starts_with_strip_prefix (p t : str) :
  starts_with p t = match strip_prefix p t with Some _ => true | None => false end.
Proof.
  revert t; induction p as [|x p IH]; intros [|y t]; simpl; auto.
  destruct (Ascii.eqb x y); simpl; auto.
Qed.

Lemma starts_with_spec (p t : str) : starts_with p t = true <-> exists r, t = p ++ r.
Proof.
  rewrite starts_with_strip_prefix. split.
  - destruct (strip_prefix p t) as [r|] eqn:E; [|discriminate].
    intros _. exists r. apply strip_prefix_spec; assumption.
  - intros [r ->]. rewrite strip_prefix_app. reflexivity.
Qed.

Lemma starts_with_nil (t : str) : starts_with [] t = true.
Proof. destruct t; reflexivity. Qed.

(** [find] returns the first position at which [sub] starts. *)
Lemma find_some (sub t : str) (i : nat) :
  find sub t = Some i ->
  i <= length t /\ starts_with sub (skipn i t) = true /\
  forall j, j < i -> starts_with sub (skipn j t) = false.
Proof.
  revert i; induction t as [|c t IH]; intros i; simpl.
  - destruct (starts_with sub []) eqn:E; [|discriminate].
    intros H; inversion H; subst. simpl. repeat split; auto; intros; lia.
  - destruct (starts_with sub (c :: t)) eqn:E.
    + intros H; inversion H; subst. simpl. repeat split; auto; intros; lia.
    + destruct (find sub t) as [i'|] eqn:F; [|discriminate].
      simpl. intros H; inversion H; subst.
      destruct (IH i' eq_refl) as (Hl & Hs & Hm).
      simpl. repeat split; auto; try lia.
      intros [|j] Hj; simpl; auto. apply Hm; lia.
Qed.

Lemma find_none (sub t : str) :
  find sub t = None -> forall j, starts_with sub (skipn j t) = false.
Proof.
  induction t as [|c t IH]; simpl.
  - destruct (starts_with sub []) eqn:E; [discriminate|].
    intros _ [|j]; simpl; auto.
  - destruct (starts_with sub (c :: t)) eqn:E; [discriminate|].
    destruct (find sub t) eqn:F; [discriminate|].
    intros _ [|j]; simpl; auto.
Qed.

Lemma find_first (sub t : str) (i : nat) :
  starts_with sub (skipn i t) = true ->
  (forall j, j < i -> starts_with sub (skipn j t) = false) ->
  i <= length t ->
  find sub t = Some i.
Proof.
  intros Hs Hm Hl.
  destruct (find sub t) as [k|] eqn:F.
  - destruct (find_some _ _ F) as (Hk & Hks & Hkm).
    destruct (Nat.lt_trichotomy k i) as [H|[H|H]]; subst; auto.
    + rewrite (Hm k H) in Hks; discriminate.
    + rewrite (Hkm i H) in Hs; discriminate.
  - rewrite (find_none _ _ F i) in Hs; discriminate.
Qed.

Lemma find_split (sub t : str) (i : nat) :
  find sub t = Some i ->
  t = firstn i t ++ sub ++ skipn (i + length sub) t.
Proof.
  intros F. destruct (find_some _ _ F) as (_ & Hs & _).
  apply starts_with_spec in Hs. destruct Hs as [r Hr].
  rewrite <- (firstn_skipn i t) at 1. f_equal.
  rewrite Nat.add_comm, <- skipn_skipn, Hr.
  rewrite skipn_app, skipn_all, Nat.sub_diag. simpl. reflexivity.
Qed.

Lemma skipn_app_length (A : Type) (a b : list A) : skipn (length a) (a ++ b) = b.
Proof. rewrite skipn_app, skipn_all, Nat.sub_diag. reflexivity. Qed.

Lemma firstn_app_length (A : Type) (a b : list A) : firstn (length a) (a ++ b) = a.
Proof. rewrite firstn_app, firstn_all, Nat.sub_diag. simpl. apply app_nil_r. Qed.

Lemma find_none_iff (sub t : str) : find sub t = None <-> ~ Spec.occurs sub t.
Proof.
  split.
  - intros F [a [b E]]. subst t.
    pose proof (find_none _ _ F (length a)) as H.
    rewrite skipn_app_length in H.
    assert (starts_with sub (sub ++ b) = true) by (apply starts_with_spec; eauto).
    congruence.
  - intros H. destruct (find sub t) as [i|] eqn:F; auto.
    exfalso. apply H. exists (firstn i t), (skipn (i + length sub) t).
    apply find_split; assumption.
Qed.

Lemma contains_spec (sub t : str) : contains sub t = true <-> Spec.occurs sub t.
Proof.
  unfold contains. destruct (find sub t) as [i|] eqn:F.
  - split; auto. intros _.
    exists (firstn i t), (skipn (i + length sub) t). apply find_split; assumption.
  - split; [discriminate|]. intros H. apply find_none_iff in F. contradiction.
Qed.

Lemma contains_false (sub t : str) : contains sub t = false <-> ~ Spec.occurs sub t.
Proof.
  rewrite <- contains_spec. destruct (contains sub t); split; congruence.
Qed.

(** ** Dictionaries *)

Lemma dict_get_set_same (V : Type) (k : str) (v : V) (d : dict V) :
  dict_get k (dict_set k v d) = Some v.
Proof.
  induction d as [|[k' v'] d IH]; simpl.
  - rewrite str_eqb_refl; reflexivity.
  - destruct (str_eqb k' k) eqn:E; simpl; rewrite E; auto.
Qed.

Lemma dict_get_set_other (V : Type) (k k' : str) (v : V) (d : dict V) :
  k <> k' -> dict_get k' (dict_set k v d) = dict_get k' d.
Proof.
  intros N. induction d as [|[k0 v0] d IH]; simpl.
  - apply str_eqb_neq in N. rewrite N; reflexivity.
  - destruct (str_eqb k0 k) eqn:E; simpl.
    + apply str_eqb_eq in E; subst k0.
      apply str_eqb_neq in N. rewrite N; reflexivity.
    + destruct (str_eqb k0 k'); auto.
Qed.

Lemma dict_get_set (V : Type) (k k' : str) (v : V) (d : dict V) :
  dict_get k' (dict_set k v d) = if str_eqb k k' then Some v else dict_get k' d.
Proof.
  destruct (str_eqb k k') eqn:E.
  - apply str_eqb_eq in E; subst. apply dict_get_set_same.
  - apply str_eqb_neq in E. apply dict_get_set_other; assumption.
Qed.

Lemma dict_set_fresh (V : Type) (k : str) (v : V) (d : dict V) :
  ~ In k (keys d) -> dict_set k v d = d ++ [(k, v)].
Proof.
  induction d as [|[k' v'] d IH]; simpl; intros N; auto.
  destruct (str_eqb k' k) eqn:E.
  - apply str_eqb_eq in E; subst. tauto.
  - rewrite IH; auto.
Qed.

Lemma keys_dict_set (V : Type) (k : str) (v : V) (d : dict V) :
  keys (dict_set k v d) = keys d \/
  (~ In k (keys d) /\ keys (dict_set k v d) = keys d ++ [k]).
Proof.
  induction d as [|[k' v'] d IH]; simpl.
  - right; split; auto.
  - destruct (str_eqb k' k) eqn:E; simpl; auto.
    apply str_eqb_neq in E.
    destruct IH as [IH|[N IH]]; rewrite IH; auto.
    right; split; auto. intros [H|H]; auto.
Qed.

Lemma dict_set_nodup (V : Type) (k : str) (v : V) (d : dict V) :
  NoDup (keys d) -> NoDup (keys (dict_set k v d)).
Proof.
  intros H. destruct (keys_dict_set k v d) as [E|[N E]]; rewrite E; auto.
  apply NoDup_rev in H. rewrite <- (rev_involutive (keys d ++ [k])).
  apply NoDup_rev. rewrite rev_app_distr. simpl. constructor; auto.
  rewrite <- in_rev. assumption.
Qed.

Lemma distinct_nodup (l : list str) : distinct l = true <-> NoDup l.
Proof.
  induction l as [|x l IH]; simpl.
  - split; auto. constructor.
  - rewrite andb_true_iff, negb_true_iff, IH. split.
    + intros [E H]. constructor; auto. intros Hin.
      assert (existsb (str_eqb x) l = true); [|congruence].
      apply existsb_exists. exists x. split; auto. apply str_eqb_refl.
    + intros H. inversion H; subst. split; auto.
      destruct (existsb (str_eqb x) l) eqn:E; auto.
      apply existsb_exists in E. destruct E as [y [Hy Exy]].
      apply str_eqb_eq in Exy; subst. contradiction.
Qed.

Lemma insert_all_nodup (entry : str -> str * str) (frags : list str) (d : dict str) :
  NoDup (keys d) -> NoDup (keys (insert_all entry frags d)).
Proof.
  revert d; induction frags as [|f frags IH]; intros d H; simpl; auto.
  apply IH. apply dict_set_nodup; assumption.
Qed.

(** With distinct titles, every assignment appends an entry. *)
Lemma insert_all_distinct (entry : str -> str * str) (frags : list str) (d : dict str) :
  NoDup (keys d ++ map fst (map entry frags)) ->
  insert_all entry frags d = d ++ map entry frags.
Proof.
  revert d; induction frags as [|f frags IH]; intros d H; simpl.
  - rewrite app_nil_r; reflexivity.
  - simpl in H. pose proof (NoDup_remove_2 _ _ _ H) as N.
    rewrite dict_set_fresh.
    + rewrite IH.
      * rewrite <- app_assoc. simpl. destruct (entry f); reflexivity.
      * unfold keys. rewrite map_app. simpl. rewrite <- app_assoc. simpl. exact H.
    + intros Hin. apply N. apply in_or_app; left; assumption.
Qed.

(** The value of a title is the body of the last fragment that has it. *)
Lemma insert_all_get (entry : str -> str * str) (t : str) (frags : list str) (d : dict str) :
  dict_get t (insert_all entry frags d) =
  match Spec.last_body entry t frags with
  | Some b => Some b
  | None => dict_get t d
  end.
Proof.
  revert d; induction frags as [|f frags IH]; intros d; simpl; auto.
  rewrite IH. destruct (Spec.last_body entry t frags); auto.
  rewrite dict_get_set. destruct (str_eqb (fst (entry f)) t); reflexivity.
Qed.

(** ** Block splitting *)

Lemma removelast_rev (A : Type) (l : list A) (c : A) (b : list A) :
  rev l = c :: b -> removelast l = rev b.
Proof.
  intros H. rewrite <- (rev_involutive l), H. simpl.
  apply removelast_last.
Qed.

Lemma insert_all_cons (entry : str -> str * str) (f : str) (frags : list str)
  (d : dict str) :
  insert_all entry (f :: frags) d =
  insert_all entry frags (dict_set (fst (entry f)) (snd (entry f)) d).
Proof. reflexivity. Qed.

(** One well-formed block through the loop of [OutputParser.parse_blocks]. *)
Lemma op_section (block : str) (i : nat) :
  find [nl] block = Some (S i) ->
  exists c,
    last_char (firstn (S i) block) = Some c /\
    Spec.section block =
    (strip (if Ascii.eqb c ":" then removelast (firstn (S i) block)
            else firstn (S i) block),
     strip (skipn (S i + 1) block)).
Proof.
  intros F. unfold Spec.section, Spec.first_line, Spec.rest_lines, Spec.drop_colon.
  rewrite F. unfold last_char.
  destruct (rev (firstn (S i) block)) as [|c b] eqn:R.
  - exfalso. destruct block; [simpl in F; discriminate|simpl in R].
    destruct (rev (firstn i block)); discriminate.
  - exists c. split; auto. rewrite (removelast_rev _ R).
    destruct (Ascii.eqb c ":"); reflexivity.
Qed.

Lemma op_loop (blocks : list str) (d : dict str) :
  forallb Spec.has_title_line (filter nonblank blocks) = true ->
  OutputParser.parse_blocks_loop blocks d =
  Ok (insert_all Spec.section (filter nonblank blocks) d).
Proof.
  revert d; induction blocks as [|block blocks IH]; intros d;
    cbn [OutputParser.parse_blocks_loop filter]; auto.
  destruct (nonblank block) eqn:NB; auto.
  cbn [forallb]. rewrite andb_true_iff. intros [T H].
  unfold Spec.has_title_line in T. unfold split1.
  destruct (find [nl] block) as [[|i]|] eqn:F; try discriminate.
  destruct (op_section _ F) as [c [L E]].
  rewrite L, insert_all_cons, E. simpl fst; simpl snd.
  replace (S i + length [nl]) with (S i + 1) by reflexivity.
  apply IH; assumption.
Qed.

Lemma cp_loop (blocks : list str) (d : dict str) :
  CodeParser.parse_blocks_loop blocks d =
  insert_all Spec.section_keep_colon (filter nonblank blocks) d.
Proof.
  revert d; induction blocks as [|block blocks IH]; intros d;
    cbn [CodeParser.parse_blocks_loop filter]; auto.
  destruct (nonblank block) eqn:NB; cbn [negb]; auto.
  rewrite insert_all_cons, <- IH.
  unfold Spec.section_keep_colon, Spec.first_line, Spec.rest_lines.
  destruct (find [nl] block) as [i|] eqn:F; reflexivity.
Qed.

(** [OutputParser.parse_blocks] raises as soon as a fragment has no line
    break or an empty first line. *)
Lemma op_loop_raises (blocks : list str) (d : dict str) :
  forallb Spec.has_title_line (filter nonblank blocks) = false ->
  exists e, OutputParser.parse_blocks_loop blocks d = Raise e.
Proof.
  revert d; induction blocks as [|block blocks IH]; intros d;
    cbn [OutputParser.parse_blocks_loop filter]; [discriminate|].
  destruct (nonblank block) eqn:NB; auto.
  cbn [forallb]. unfold Spec.has_title_line at 1. unfold split1.
  destruct (find [nl] block) as [[|i]|] eqn:F.
  - intros _. exists IndexError. reflexivity.
  - cbn [andb]. intros H.
    destruct (op_section _ F) as [c [L E]].
    rewrite L. apply IH. exact H.
  - intros _. exists ValueError. reflexivity.
Qed.

Lemma parse_blocks_returns_iff (document : str) :
  (exists d, OutputParser.parse_blocks document = Ok d) <->
  forallb Spec.has_title_line (Spec.fragments document) = true.
Proof.
  unfold OutputParser.parse_blocks, Spec.fragments. split.
  - intros [d E].
    destruct (forallb Spec.has_title_line
                (filter nonblank (split (py "##") document))) eqn:W; auto.
    destruct (op_loop_raises _ [] W) as [e R]. congruence.
  - intros W. rewrite op_loop by exact W. eauto.
Qed.

(** ** Trimming *)

Lemma lstrip_idem (t : str) : lstrip (lstrip t) = lstrip t.
Proof.
  induction t as [|c t IH]; simpl; auto.
  destruct (is_space c) eqn:E; auto. simpl. rewrite E. reflexivity.
Qed.

Lemma lstrip_suffix (t : str) :
  exists a, t = a ++ lstrip t /\ forallb is_space a = true.
Proof.
  induction t as [|c t [a [E F]]]; simpl.
  - exists []; auto.
  - destruct (is_space c) eqn:S.
    + exists (c :: a). simpl. rewrite S, F, <- E. auto.
    + exists []. auto.
Qed.

Lemma no_lead_lstrip (t : str) : no_lead (lstrip t) = true.
Proof.
  induction t as [|c t IH]; simpl; auto.
  destruct (is_space c) eqn:E; auto. simpl. rewrite E. reflexivity.
Qed.

Lemma lstrip_no_lead (t : str) : no_lead t = true -> lstrip t = t.
Proof.
  destruct t as [|c t]; simpl; auto.
  destruct (is_space c); [discriminate | reflexivity].
Qed.

Lemma no_lead_rstrip (t : str) : no_lead t = true -> no_lead (rstrip t) = true.
Proof.
  intros H. unfold rstrip.
  destruct (lstrip_suffix (rev t)) as [a [E _]].
  destruct (lstrip (rev t)) as [|x v] eqn:L; auto.
  assert (T : t = rev (x :: v) ++ rev a).
  { rewrite <- rev_app_distr, <- E, rev_involutive. reflexivity. }
  destruct (rev (x :: v)) as [|y w] eqn:R.
  - apply (f_equal (@length _)) in R. rewrite length_rev in R. discriminate.
  - rewrite T in H. exact H.
Qed.

(** [strip] leaves a stripped text as it is. *)
Lemma strip_idem (t : str) : strip (strip t) = strip t.
Proof.
  unfold strip at 1.
  rewrite (lstrip_no_lead (strip t)).
  - unfold strip, rstrip. rewrite rev_involutive, lstrip_idem. reflexivity.
  - apply no_lead_rstrip, no_lead_lstrip.
Qed.

(** ** Claims on the block splitters *)

(** C1, as it is stated, fails for each of the two splitters.  On a
    fragment without a line break [OutputParser.parse_blocks] raises
    [ValueError] where the claim has the entry [("Title", "")], and
    [CodeParser.parse_blocks] keeps the colon that ends a title. *)
Lemma C1_counterexample :
  Spec.splitSections (py "## Title") = [(py "Title", [])] /\
  OutputParser.parse_blocks (py "## Title") = Raise ValueError /\
  Spec.splitSections
    (join_lines ["## Title1"; "body1"; "## Title2:"; "body2"]) =
  [(py "Title1", py "body1"); (py "Title2", py "body2")] /\
  CodeParser.parse_blocks
    (join_lines ["## Title1"; "body1"; "## Title2:"; "body2"]) =
  [(py "Title1", py "body1"); (py "Title2:", py "body2")].
Proof. repeat split; reflexivity. Qed.

(** C1, amended.  [OutputParser.parse_blocks], on a document whose
    fragments all have a line break and a first line that is not empty and
    whose N titles are distinct, returns the N sections of the
    specification in the order of the document: the title is the first
    line without its final colon, trimmed, and the body is the rest,
    trimmed.  [CodeParser.parse_blocks], on any document whose N titles are
    distinct, returns N entries in which the title is the trimmed first
    line, its colon kept, and in which a fragment without a line break has
    the whole fragment as its title and the empty body.  Titles and bodies
    of both are left unchanged by a further trimming. *)
Theorem C1_split_sections (document : str) :
  (forallb Spec.has_title_line (Spec.fragments document) = true ->
   distinct (keys (Spec.splitSections document)) = true ->
   OutputParser.parse_blocks document = Ok (Spec.splitSections document)) /\
  (distinct (keys (map Spec.section_keep_colon (Spec.fragments document))) = true ->
   CodeParser.parse_blocks document =
   map Spec.section_keep_colon (Spec.fragments document)) /\
  (forall f, find [nl] f = None -> Spec.section_keep_colon f = (strip f, [])) /\
  (forall f, let (t, b) := Spec.section f in strip t = t /\ strip b = b) /\
  (forall f, let (t, b) := Spec.section_keep_colon f in strip t = t /\ strip b = b).
Proof.
  repeat split.
  - intros W D. unfold OutputParser.parse_blocks.
    rewrite op_loop by exact W.
    fold (Spec.fragments document).
    rewrite insert_all_distinct; [reflexivity|].
    apply distinct_nodup. exact D.
  - intros D. unfold CodeParser.parse_blocks.
    rewrite cp_loop. fold (Spec.fragments document).
    rewrite insert_all_distinct; [reflexivity|].
    apply distinct_nodup. exact D.
  - intros f F. unfold Spec.section_keep_colon, Spec.first_line, Spec.rest_lines.
    rewrite F. reflexivity.
  - apply strip_idem.
  - apply strip_idem.
  - apply strip_idem.
  - apply strip_idem.
Qed.

Lemma C1_witness :
  OutputParser.parse_blocks
    (join_lines ["## Title1"; "body1"; "## Title2:"; "body2"]) =
  Ok [(py "Title1", py "body1"); (py "Title2", py "body2")] /\
  CodeParser.parse_blocks (join_lines ["## Title"; "## Other"; "text"]) =
  [(py "Title", []); (py "Other", py "text")].
Proof.
  split.
  - apply (proj1 (C1_split_sections
                    (join_lines ["## Title1"; "body1"; "## Title2:"; "body2"])));
      reflexivity.
  - apply (proj1 (proj2 (C1_split_sections
                    (join_lines ["## Title"; "## Other"; "text"]))));
      reflexivity.
Defined.

(** C9, as it is stated, fails for [OutputParser.parse_blocks]: on a
    document of two sections with the title [A], the second one without a
    line break, it returns no mapping and raises [ValueError], where
    [CodeParser.parse_blocks] keeps one entry, with the body of the last
    section. *)
Lemma C9_counterexample :
  keys (Spec.splitSections (join_lines ["## A"; "first"; "## A"])) =
  [py "A"; py "A"] /\
  Spec.last_body Spec.section (py "A")
    (Spec.fragments (join_lines ["## A"; "first"; "## A"])) = Some [] /\
  CodeParser.parse_blocks (join_lines ["## A"; "first"; "## A"]) =
  [(py "A", [])] /\
  OutputParser.parse_blocks (join_lines ["## A"; "first"; "## A"]) =
  Raise ValueError.
Proof. repeat split; reflexivity. Qed.

(** C9, amended.  Both splitters keep one entry per title, and its body is
    the body of the last fragment with that title:
    [OutputParser.parse_blocks] on every document whose fragments all have a
    line break and a first line that is not empty, [CodeParser.parse_blocks]
    on every document.  On the other documents [OutputParser.parse_blocks]
    raises. *)
Theorem C9_duplicate_titles_last_wins (document : str) :
  (forallb Spec.has_title_line (Spec.fragments document) = true ->
   exists d,
     OutputParser.parse_blocks document = Ok d /\
     NoDup (keys d) /\
     forall title,
       dict_get title d =
       Spec.last_body Spec.section title (Spec.fragments document)) /\
  (forallb Spec.has_title_line (Spec.fragments document) = false ->
   exists e, OutputParser.parse_blocks document = Raise e) /\
  (NoDup (keys (CodeParser.parse_blocks document)) /\
   forall title,
     dict_get title (CodeParser.parse_blocks document) =
     Spec.last_body Spec.section_keep_colon title (Spec.fragments document)).
Proof.
  split; [|split].
  - intros W. eexists. split; [|split].
    + unfold OutputParser.parse_blocks. apply op_loop. exact W.
    + apply insert_all_nodup. constructor.
    + intros title. fold (Spec.fragments document).
      rewrite insert_all_get.
      destruct (Spec.last_body _ _ _); reflexivity.
  - intros W. unfold OutputParser.parse_blocks.
    apply op_loop_raises. exact W.
  - unfold CodeParser.parse_blocks. rewrite cp_loop.
    fold (Spec.fragments document). split.
    + apply insert_all_nodup. constructor.
    + intros title. rewrite insert_all_get.
      destruct (Spec.last_body _ _ _); reflexivity.
Qed.

Lemma C9_witness :
  exists d,
    OutputParser.parse_blocks
      (join_lines ["## A"; "first"; "## B"; "other"; "## A:"; "last"]) = Ok d /\
    NoDup (keys d) /\
    forall title,
      dict_get title d =
      Spec.last_body Spec.section title
        (Spec.fragments
           (join_lines ["## A"; "first"; "## B"; "other"; "## A:"; "last"])).
Proof.
  apply (proj1 (C9_duplicate_titles_last_wins
                  (join_lines ["## A"; "first"; "## B"; "other"; "## A:"; "last"]))).
  reflexivity.
Defined.

Example ex_last_wins :
  OutputParser.parse_blocks
    (join_lines ["## A"; "first"; "## B"; "other"; "## A:"; "last"]) =
  Ok [(py "A", py "last"); (py "B", py "other")] /\
  CodeParser.parse_blocks
    (join_lines ["## A"; "first"; "## B"; "other"; "## A"; "last"]) =
  [(py "A", py "last"); (py "B", py "other")].
Proof. split; reflexivity. Qed.

(** C10.  [CodeParser.parse_block] returns the body of the first entry of
    [CodeParser.parse_blocks] whose title has [block] as a substring, and
    the empty string when no title has. *)
Theorem C10_parse_block_substring (block text : str) :
  (forall before k v after,
     CodeParser.parse_blocks text = before ++ (k, v) :: after ->
     Spec.occurs block k ->
     (forall e, In e before -> ~ Spec.occurs block (fst e)) ->
     CodeParser.parse_block block text = v) /\
  ((forall e, In e (CodeParser.parse_blocks text) -> ~ Spec.occurs block (fst e)) ->
   CodeParser.parse_block block text = []).
Proof.
  unfold CodeParser.parse_block.
  generalize (CodeParser.parse_blocks text) as d. intros d. split.
  - intros before. revert d.
    induction before as [|[k0 v0] before IH]; intros d k v after E O N; subst d; simpl.
    + apply contains_spec in O. rewrite O. reflexivity.
    + assert (C : contains block k0 = false).
      { apply contains_false. apply (N (k0, v0)). left; reflexivity. }
      rewrite C. apply (IH _ k v after eq_refl O).
      intros e He. apply N. right; assumption.
  - induction d as [|[k v] d IH]; intros N; simpl; auto.
    assert (C : contains block k = false).
    { apply contains_false. apply (N (k, v)). left; reflexivity. }
    rewrite C. apply IH. intros e He. apply N. right; assumption.
Qed.

Lemma C10_witness :
  CodeParser.parse_block (py "Review")
    (join_lines ["## Code Review Result"; "LGTM"; "## Actions"; "none"]) =
  py "LGTM" /\
  CodeParser.parse_block (py "Missing")
    (join_lines ["## Code Review Result"; "LGTM"; "## Actions"; "none"]) = [].
Proof.
  split.
  - apply (proj1 (C10_parse_block_substring (py "Review")
                    (join_lines ["## Code Review Result"; "LGTM";
                                 "## Actions"; "none"]))
             [] (py "Code Review Result") (py "LGTM")
             [(py "Actions", py "none")]).
    + reflexivity.
    + exists (py "Code "), (py " Result"). reflexivity.
    + intros e [].
  - apply (proj2 (C10_parse_block_substring (py "Missing")
                    (join_lines ["## Code Review Result"; "LGTM";
                                 "## Actions"; "none"]))).
    intros e He. apply contains_false.
    cbv in He. destruct He as [<-|[<-|[]]]; reflexivity.
Defined.

(** ** Documents made of sections *)

Lemma starts_with_hashes (x : ascii) (t : str) :
  x <> "#"%char -> starts_with (py "##") (x :: t) = false.
Proof.
  intros N. cbn [py String.list_ascii_of_string starts_with].
  destruct (Ascii.eqb "#" x) eqn:E; [|reflexivity].
  apply Ascii.eqb_eq in E. congruence.
Qed.

Lemma find_hashes_none (p : str) :
  ~ In "#"%char p -> find (py "##") p = None.
Proof.
  induction p as [|x p IH]; intros N; [reflexivity|].
  cbn [find]. rewrite starts_with_hashes by (intros ->; apply N; left; reflexivity).
  rewrite IH; [reflexivity|]. intros H. apply N. right; assumption.
Qed.

Lemma find_hashes_first (p rest : str) :
  ~ In "#"%char p -> find (py "##") (p ++ py "##" ++ rest) = Some (length p).
Proof.
  induction p as [|x p IH]; intros N; [reflexivity|].
  cbn [app find]. rewrite starts_with_hashes by (intros ->; apply N; left; reflexivity).
  rewrite IH; [reflexivity|]. intros H. apply N. right; assumption.
Qed.

Lemma split_from_join (parts : list str) :
  forall (p : str) (fuel : nat),
    (forall q, In q (p :: parts) -> ~ In "#"%char q) ->
    length (join (py "##") (p :: parts)) <= fuel ->
    split_from fuel (py "##") (join (py "##") (p :: parts)) = p :: parts.
Proof.
  induction parts as [|p' parts IH]; intros p fuel N L.
  - cbn [join]. assert (F : find (py "##") p = None).
    { apply find_hashes_none. apply N. left; reflexivity. }
    destruct fuel; cbn [split_from]; rewrite ?F; reflexivity.
  - change (join (py "##") (p :: p' :: parts))
      with (p ++ py "##" ++ join (py "##") (p' :: parts)) in *.
    assert (F : find (py "##") (p ++ py "##" ++ join (py "##") (p' :: parts)) =
                Some (length p)).
    { apply find_hashes_first. apply N. left; reflexivity. }
    assert (H2 : length (py "##") = 2) by reflexivity.
    rewrite !length_app, H2 in L.
    destruct fuel as [|fuel]; [lia|].
    cbn [split_from]. rewrite F.
    rewrite firstn_app_length.
    replace (length p + length (py "##")) with (length (p ++ py "##"))
      by (rewrite length_app; reflexivity).
    rewrite app_assoc, skipn_app_length.
    rewrite IH; [reflexivity| |lia].
    intros q H. apply N. right; assumption.
Qed.

(** Parts without [#], joined by the heading delimiter, are what
    [split] gives back. *)
Lemma split_join (p : str) (parts : list str) :
  (forall q, In q (p :: parts) -> ~ In "#"%char q) ->
  split (py "##") (join (py "##") (p :: parts)) = p :: parts.
Proof.
  intros N. unfold split. apply split_from_join; auto.
Qed.

(** The fragments of a document written as a preamble and sections, each
    behind a heading delimiter. *)
Lemma fragments_join (p : str) (parts : list str) :
  (forall q, In q (p :: parts) -> ~ In "#"%char q) ->
  Spec.fragments (join (py "##") (p :: parts)) = filter nonblank (p :: parts).
Proof.
  intros N. unfold Spec.fragments. rewrite split_join by exact N. reflexivity.
Qed.


(** ** The matcher reports the matches of the pattern, and all of them *)

Lemma star_lazy_sound (A : Type) (p : ascii -> bool) (t : str)
  (k : str -> option A) (a : A) :
  star_lazy p t k = Some a ->
  exists u v, t = u ++ v /\ forallb p u = true /\ k v = Some a.
Proof.
  induction t as [|c t IH]; simpl.
  - destruct (k []) eqn:K; [|discriminate].
    intros E; inversion E; subst. exists [], []. auto.
  - destruct (k (c :: t)) eqn:K.
    + intros E; inversion E; subst. exists [], (c :: t). auto.
    + destruct (p c) eqn:P; [|discriminate].
      intros E. destruct (IH E) as (u & v & -> & F & Kv).
      exists (c :: u), v. simpl. rewrite P. auto.
Qed.

Lemma star_greedy_sound (A : Type) (p : ascii -> bool) (t : str)
  (k : str -> option A) (a : A) :
  star_greedy p t k = Some a ->
  exists u v, t = u ++ v /\ forallb p u = true /\ k v = Some a.
Proof.
  induction t as [|c t IH]; simpl.
  - intros E. exists [], []. auto.
  - destruct (p c) eqn:P.
    + destruct (star_greedy p t k) eqn:G.
      * intros E; inversion E; subst.
        destruct (IH eq_refl) as (u & v & -> & F & Kv).
        exists (c :: u), v. simpl. rewrite P. auto.
      * intros E. exists [], (c :: t). auto.
    + intros E. exists [], (c :: t). auto.
Qed.

Lemma run_sound (A : Type) (r : regex) :
  forall (t : str) (caps : captures) (k : str -> captures -> option A) (a : A),
    run r t caps k = Some a ->
    exists u v caps', t = u ++ v /\ Spec.matches r u /\ k v caps' = Some a.
Proof.
  induction r as [l|p|r1 IH1 r2 IH2|p|p|r IH|n r IH]; intros t caps k a; simpl.
  - destruct (strip_prefix l t) as [t'|] eqn:E; [|discriminate].
    apply strip_prefix_spec in E. subst t. intros K.
    exists l, t', caps. repeat split; auto. constructor.
  - destruct t as [|c t]; [discriminate|].
    destruct (p c) eqn:P; [|discriminate]. intros K.
    exists [c], t, caps. repeat split; auto. constructor; assumption.
  - intros R. apply IH1 in R. destruct R as (u1 & v1 & caps1 & -> & M1 & R).
    apply IH2 in R. destruct R as (u2 & v2 & caps2 & -> & M2 & R).
    exists (u1 ++ u2), v2, caps2. rewrite <- app_assoc.
    repeat split; auto. constructor; assumption.
  - intros R. apply star_greedy_sound in R. destruct R as (u & v & -> & F & K).
    exists u, v, caps. repeat split; auto. constructor; assumption.
  - intros R. apply star_lazy_sound in R. destruct R as (u & v & -> & F & K).
    exists u, v, caps. repeat split; auto. constructor; assumption.
  - destruct (run r t caps k) eqn:R.
    + intros E; inversion E; subst. apply IH in R.
      destruct R as (u & v & caps' & -> & M & K).
      exists u, v, caps'. repeat split; auto. apply Spec.MOptSome; assumption.
    + intros K. exists [], t, caps. repeat split; auto. constructor.
  - intros R. apply IH in R. destruct R as (u & v & caps' & -> & M & K).
    eexists u, v, _. repeat split; eauto. constructor; assumption.
Qed.

Lemma search_sound (r : regex) (t : str) (caps : captures) :
  search r t = Some caps ->
  exists a u v, t = a ++ u ++ v /\ Spec.matches r u.
Proof.
  induction t as [|c t IH]; simpl.
  - destruct (match_here r []) eqn:M; [|discriminate]. intros _.
    apply run_sound in M. destruct M as (u & v & _ & E & M & _).
    exists [], u, v. auto.
  - destruct (match_here r (c :: t)) eqn:M.
    + intros _. apply run_sound in M. destruct M as (u & v & _ & E & M & _).
      exists [], u, v. auto.
    + intros S. destruct (IH S) as (a & u & v & -> & M').
      exists (c :: a), u, v. auto.
Qed.

Lemma star_lazy_complete (A : Type) (p : ascii -> bool) (u v : str)
  (k : str -> option A) :
  forallb p u = true -> k v <> None -> star_lazy p (u ++ v) k <> None.
Proof.
  induction u as [|c u IH]; simpl; intros F K.
  - destruct v; simpl; destruct (k _); congruence.
  - apply andb_true_iff in F. destruct F as [P F]. rewrite P.
    destruct (k (c :: u ++ v)); [discriminate|]. apply IH; assumption.
Qed.

Lemma star_greedy_complete (A : Type) (p : ascii -> bool) (u v : str)
  (k : str -> option A) :
  forallb p u = true -> k v <> None -> star_greedy p (u ++ v) k <> None.
Proof.
  induction u as [|c u IH]; simpl; intros F K.
  - destruct v as [|c v]; simpl; auto.
    destruct (p c); auto. destruct (star_greedy p v k); [discriminate|auto].
  - apply andb_true_iff in F. destruct F as [P F]. rewrite P.
    specialize (IH F K). destruct (star_greedy p (u ++ v) k); [discriminate|].
    congruence.
Qed.

Lemma run_complete (A : Type) (r : regex) (u : str) :
  Spec.matches r u ->
  forall (v : str) (caps : captures) (k : str -> captures -> option A),
    (forall caps', k v caps' <> None) ->
    run r (u ++ v) caps k <> None.
Proof.
  induction 1 as [l|p c P|r1 r2 u1 u2 M1 IH1 M2 IH2|p u F|p u F|r|r u M IH|n r u M IH];
    intros v caps k K; simpl.
  - rewrite strip_prefix_app. apply K.
  - rewrite P. apply K.
  - rewrite <- app_assoc. apply IH1. intros caps'. apply IH2. exact K.
  - apply star_greedy_complete; auto.
  - apply star_lazy_complete; auto.
  - destruct (run r v caps k); [discriminate|apply K].
  - specialize (IH v caps k K). destruct (run r (u ++ v) caps k); [discriminate|].
    congruence.
  - apply IH. intros caps'. apply K.
Qed.

Lemma search_complete (r : regex) (a u v : str) :
  Spec.matches r u -> search r (a ++ u ++ v) <> None.
Proof.
  intros M. induction a as [|c a IH]; simpl.
  - assert (H : match_here r (u ++ v) <> None).
    { apply run_complete; auto. discriminate. }
    destruct (u ++ v); simpl; destruct (match_here r _); congruence.
  - destruct (match_here r (c :: a ++ u ++ v)); [discriminate|exact IH].
Qed.

(** [re.search] finds a match exactly when some part of the text is in the
    language of the pattern. *)
Lemma search_none_iff (r : regex) (t : str) :
  search r t = None <->
  ~ exists a u v, t = a ++ u ++ v /\ Spec.matches r u.
Proof.
  split.
  - intros S (a & u & v & -> & M). apply (search_complete a v M). exact S.
  - intros N. destruct (search r t) eqn:S; auto.
    exfalso. apply N. eapply search_sound; eauto.
Qed.

(** ** The fence patterns *)

Ltac inv_matches :=
  repeat match goal with
    | H : Spec.matches (Cat _ _) _ |- _ => inversion H; subst; clear H
    | H : Spec.matches (Str _) _ |- _ => inversion H; subst; clear H
    | H : Spec.matches (Cls _) _ |- _ => inversion H; subst; clear H
    | H : Spec.matches (StarGreedy _) _ |- _ => inversion H; subst; clear H
    | H : Spec.matches (StarLazy _) _ |- _ => inversion H; subst; clear H
    | H : Spec.matches (Grp _ _) _ |- _ => inversion H; subst; clear H
    end.

Lemma forallb_any_char (t : str) : forallb any_char t = true.
Proof. induction t; simpl; auto. Qed.

Lemma strict_pattern_language (lang u : str) :
  Spec.matches (CodeParser.code_pattern lang) u <->
  exists w b, is_space w = true /\ u = fence ++ lang ++ w :: b ++ fence.
Proof.
  unfold CodeParser.code_pattern, spaces1. cbn [seq]. split.
  - intros M. inv_matches.
    match goal with
    | |- exists w b, _ /\ _ ++ _ ++ ([?c] ++ ?ws) ++ ?g ++ _ = _ =>
        exists c, (ws ++ g)
    end.
    split; auto. simpl. rewrite <- app_assoc. reflexivity.
  - intros (w & b & W & ->).
    apply Spec.MCat; [constructor|].
    apply Spec.MCat; [constructor|].
    change (w :: b ++ fence) with (([w] ++ []) ++ b ++ fence).
    apply Spec.MCat.
    + apply Spec.MCat; constructor; auto.
    + apply Spec.MCat; constructor. constructor. apply forallb_any_char.
Qed.

Lemma lenient_pattern_language (u : str) :
  Spec.matches (OutputParser.code_pattern []) u <->
  exists tag w b, is_space w = true /\ u = fence ++ tag ++ w :: b ++ fence.
Proof.
  unfold OutputParser.code_pattern, spaces1. cbn [seq]. split.
  - intros M. inv_matches.
    match goal with
    | |- exists tag w b, _ /\ _ ++ ?x ++ ([?c] ++ ?ws) ++ ?g ++ _ = _ =>
        exists x, c, (ws ++ g)
    end.
    split; auto. simpl. rewrite <- app_assoc. reflexivity.
  - intros (tag & w & b & W & ->).
    apply Spec.MCat; [constructor|].
    apply Spec.MCat; [constructor; apply forallb_any_char|].
    change (w :: b ++ fence) with (([w] ++ []) ++ b ++ fence).
    apply Spec.MCat.
    + apply Spec.MCat; constructor; auto.
    + apply Spec.MCat; constructor. constructor. apply forallb_any_char.
Qed.

(** The pattern of [CodeParser.parse_code] is not found exactly in the
    texts without a fence tagged [lang]. *)
Lemma strict_search_none (lang t : str) :
  search (CodeParser.code_pattern lang) t = None <-> ~ Spec.fenced_exactly lang t.
Proof.
  rewrite search_none_iff. unfold Spec.fenced_exactly. split; intros N H; apply N.
  - destruct H as (a & w & b & c & W & ->).
    exists a, (fence ++ lang ++ w :: b ++ fence), c. split.
    + repeat (rewrite <- app_assoc; simpl). reflexivity.
    + apply strict_pattern_language. eauto.
  - destruct H as (a & u & v & -> & M).
    apply strict_pattern_language in M. destruct M as (w & b & W & ->).
    exists a, w, b, v. split; auto.
    repeat (rewrite <- app_assoc; simpl). reflexivity.
Qed.

(** The pattern of [OutputParser.parse_code] is not found exactly in the
    texts without a fence. *)
Lemma lenient_search_none (lang t : str) :
  search (OutputParser.code_pattern lang) t = None <-> ~ Spec.fenced lang t.
Proof.
  destruct lang as [|l0 lang].
  - rewrite search_none_iff. unfold Spec.fenced. split; intros N H; apply N.
    + destruct H as (a & tag & w & b & c & _ & W & ->).
      exists a, (fence ++ tag ++ w :: b ++ fence), c. split.
      * repeat (rewrite <- app_assoc; simpl). reflexivity.
      * apply lenient_pattern_language. eauto.
    + destruct H as (a & u & v & -> & M).
      apply lenient_pattern_language in M. destruct M as (tag & w & b & W & ->).
      exists a, tag, w, b, v. split; [congruence|]. split; auto.
      repeat (rewrite <- app_assoc; simpl). reflexivity.
  - change (OutputParser.code_pattern (l0 :: lang))
      with (CodeParser.code_pattern (l0 :: lang)).
    rewrite strict_search_none.
    unfold Spec.fenced, Spec.fenced_exactly. split; intros N H; apply N.
    + destruct H as (a & tag & w & b & c & T & W & ->).
      rewrite T by discriminate. exists a, w, b, c. auto.
    + destruct H as (a & w & b & c & W & ->).
      exists a, (l0 :: lang), w, b, c. auto.
Qed.

Lemma fenced_occurs (lang t : str) : Spec.fenced lang t -> Spec.occurs fence t.
Proof.
  intros (a & tag & w & b & c & _ & _ & ->). exists a. eexists. reflexivity.
Qed.

Lemma fenced_exactly_occurs (lang t : str) :
  Spec.fenced_exactly lang t -> Spec.occurs fence t.
Proof.
  intros (a & w & b & c & _ & ->). exists a. eexists. reflexivity.
Qed.

(** ** The lazy group up to a literal *)

Lemma consumed_skipn (t : str) (j : nat) :
  j <= length t -> consumed t (skipn j t) = firstn j t.
Proof.
  intros H. unfold consumed. rewrite length_skipn. f_equal. lia.
Qed.

(** A lazy star over any character, followed by a literal, stops at the
    first occurrence of the literal. *)
Lemma star_lazy_first (A : Type) (s t : str) (g : str -> A) :
  star_lazy any_char t
    (fun t' => match strip_prefix s t' with
               | Some _ => Some (g t')
               | None => None
               end) =
  match find s t with
  | Some j => Some (g (skipn j t))
  | None => None
  end.
Proof.
  induction t as [|c t IH]; simpl.
  - rewrite starts_with_strip_prefix. destruct (strip_prefix s []); reflexivity.
  - rewrite starts_with_strip_prefix.
    destruct (strip_prefix s (c :: t)); [reflexivity|].
    rewrite IH. destruct (find s t); reflexivity.
Qed.

Lemma find_firstn_none (s t : str) (j : nat) :
  s <> [] -> find s t = Some j -> find s (firstn j t) = None.
Proof.
  intros NE F. apply find_none_iff. intros (a & b & E).
  destruct (find_some _ _ F) as (L & _ & Min).
  assert (La : length a < j).
  { apply (f_equal (@length _)) in E. rewrite length_firstn in E.
    rewrite !length_app in E. destruct s; [congruence|]. simpl in E. lia. }
  specialize (Min _ La).
  assert (T : t = a ++ s ++ b ++ skipn j t).
  { rewrite <- (firstn_skipn j t) at 1. rewrite E.
    repeat rewrite <- app_assoc. reflexivity. }
  rewrite T, skipn_app_length in Min.
  assert (starts_with s (s ++ b ++ skipn j t) = true)
    by (apply starts_with_spec; eauto).
  congruence.
Qed.

Lemma fence_nonempty : fence <> [].
Proof. discriminate. Qed.

(** The group of the tail [(.*?)```] of the fence patterns holds no fence. *)
Lemma group_tail (t : str) (caps : captures) :
  run (Cat (Grp 1 (StarLazy any_char)) (Str fence)) t []
    (fun _ caps' => Some caps') = Some caps ->
  exists g, caps = [(1, g)] /\ find fence g = None.
Proof.
  cbn [run]. rewrite star_lazy_first.
  destruct (find fence t) as [j|] eqn:F; [|discriminate].
  intros E; inversion E; subst; clear E.
  destruct (find_some _ _ F) as (L & _ & _).
  rewrite consumed_skipn by exact L.
  eexists; split; [reflexivity|]. apply find_firstn_none; auto using fence_nonempty.
Qed.

Lemma strict_match_group (lang t : str) (caps : captures) :
  match_here (CodeParser.code_pattern lang) t = Some caps ->
  exists g, caps = [(1, g)] /\ find fence g = None.
Proof.
  unfold match_here, CodeParser.code_pattern, spaces1. cbn [seq].
  cbn [run].
  destruct (strip_prefix fence t) as [t1|]; [|discriminate].
  destruct (strip_prefix lang t1) as [t2|]; [|discriminate].
  destruct t2 as [|c t3]; [discriminate|].
  destruct (is_space c); [|discriminate].
  intros R. apply star_greedy_sound in R. destruct R as (u & v & _ & _ & R).
  exact (group_tail _ R).
Qed.

Lemma lenient_match_group (lang t : str) (caps : captures) :
  match_here (OutputParser.code_pattern lang) t = Some caps ->
  exists g, caps = [(1, g)] /\ find fence g = None.
Proof.
  destruct lang as [|l0 lang]; [|apply strict_match_group].
  unfold match_here, OutputParser.code_pattern, spaces1. cbn [seq].
  cbn [run].
  destruct (strip_prefix fence t) as [t1|]; [|discriminate].
  intros R. apply star_lazy_sound in R. destruct R as (u0 & t2 & _ & _ & R).
  destruct t2 as [|c t3]; [discriminate|].
  destruct (is_space c); [|discriminate].
  apply star_greedy_sound in R. destruct R as (u & v & _ & _ & R).
  exact (group_tail _ R).
Qed.

Lemma search_group (r : regex) (t : str) (caps : captures) :
  (forall t' caps', match_here r t' = Some caps' ->
                    exists g, caps' = [(1, g)] /\ find fence g = None) ->
  search r t = Some caps ->
  exists g, caps = [(1, g)] /\ find fence g = None.
Proof.
  intros H. induction t as [|c t IH]; simpl.
  - destruct (match_here r []) eqn:M; [|discriminate].
    intros E; inversion E; subst. eapply H; eauto.
  - destruct (match_here r (c :: t)) eqn:M.
    + intros E; inversion E; subst. eapply H; eauto.
    + exact IH.
Qed.

(** What the two extractors return holds no fence when a fence was found. *)
Lemma strict_search_group (lang t : str) (caps : captures) :
  search (CodeParser.code_pattern lang) t = Some caps ->
  exists g, caps = [(1, g)] /\ find fence g = None.
Proof. apply search_group. intros; eapply strict_match_group; eauto. Qed.

Lemma lenient_search_group (lang t : str) (caps : captures) :
  search (OutputParser.code_pattern lang) t = Some caps ->
  exists g, caps = [(1, g)] /\ find fence g = None.
Proof. apply search_group. intros; eapply lenient_match_group; eauto. Qed.

Lemma no_fence_strict (lang g : str) :
  find fence g = None -> search (CodeParser.code_pattern lang) g = None.
Proof.
  intros F. apply strict_search_none. intros H.
  apply fenced_exactly_occurs in H. apply find_none_iff in F. contradiction.
Qed.

Lemma no_fence_lenient (lang g : str) :
  find fence g = None -> search (OutputParser.code_pattern lang) g = None.
Proof.
  intros F. apply lenient_search_none. intros H.
  apply fenced_occurs in H. apply find_none_iff in F. contradiction.
Qed.

(** ** The patterns of a plain tag *)

Lemma star_lazy_ext (A : Type) (p : ascii -> bool) (t : str)
  (k k' : str -> option A) :
  (forall v, k v = k' v) -> star_lazy p t k = star_lazy p t k'.
Proof.
  intros H. induction t as [|c t IH]; cbn [star_lazy]; rewrite H;
    [reflexivity|].
  rewrite IH. reflexivity.
Qed.

Lemma star_greedy_ext_all (A : Type) (p : ascii -> bool) (t : str)
  (k k' : str -> option A) :
  (forall v, k v = k' v) -> star_greedy p t k = star_greedy p t k'.
Proof.
  intros H. induction t as [|c t IH]; cbn [star_greedy]; rewrite H;
    [reflexivity|].
  rewrite IH. reflexivity.
Qed.

(** The matcher looks at its continuation only through its results. *)
Lemma run_ext (A : Type) (r : regex) :
  forall (t : str) (caps : captures) (k k' : str -> captures -> option A),
    (forall t' caps', k t' caps' = k' t' caps') ->
    run r t caps k = run r t caps k'.
Proof.
  induction r as [l|p|r1 IH1 r2 IH2|p|p|r IH|n r IH]; intros t caps k k' H;
    cbn [run].
  - destruct (strip_prefix l t); auto.
  - destruct t as [|c t]; [reflexivity|]. destruct (p c); auto.
  - apply IH1. intros t' caps'. apply IH2. exact H.
  - apply star_greedy_ext_all. intros v. apply H.
  - apply star_lazy_ext. intros v. apply H.
  - rewrite (IH t caps k k' H), H. reflexivity.
  - apply IH. intros t' caps'. apply H.
Qed.

Lemma seq_cons (r : regex) (rs : list regex) :
  rs <> [] -> seq (r :: rs) = Cat r (seq rs).
Proof. destruct rs; [congruence|reflexivity]. Qed.

Lemma strip_prefix_app_eq (a b t : str) :
  strip_prefix (a ++ b) t =
  match strip_prefix a t with
  | Some t1 => strip_prefix b t1
  | None => None
  end.
Proof.
  revert t; induction a as [|x a IH]; intros t; [reflexivity|].
  destruct t as [|y t]; cbn [app strip_prefix]; [reflexivity|].
  destruct (Ascii.eqb x y); [apply IH|reflexivity].
Qed.

(** The characters of a text, each as a literal, are the text as a
    literal. *)
Lemma run_lits (A : Type) (l : str) (r : regex) (rs : list regex) :
  forall (t : str) (caps : captures) (k : str -> captures -> option A),
    run (seq (map (fun c => Str [c]) l ++ r :: rs)) t caps k =
    run (Cat (Str l) (seq (r :: rs))) t caps k.
Proof.
  induction l as [|a l IH]; intros t caps k.
  - reflexivity.
  - cbn [map app]. rewrite seq_cons by (destruct l; discriminate).
    cbn [run]. destruct t as [|y t]; cbn [strip_prefix]; [reflexivity|].
    destruct (Ascii.eqb a y); [|reflexivity].
    rewrite IH. reflexivity.
Qed.

Lemma search_ext (r1 r2 : regex) :
  (forall t, match_here r1 t = match_here r2 t) ->
  forall t, search r1 t = search r2 t.
Proof.
  intros H t. induction t as [|c t IH]; cbn [search]; rewrite H;
    [reflexivity|].
  rewrite IH. reflexivity.
Qed.

Lemma tag_pattern_plain (tag : str) :
  plain tag = true -> tag_pattern tag = Some (map (fun c => Str [c]) tag).
Proof.
  unfold plain. induction tag as [|c tag IH]; [reflexivity|].
  cbn [forallb tag_pattern map]. intros H. apply andb_true_iff in H.
  destruct H as [C H]. rewrite (IH H).
  apply negb_true_iff in C. rewrite C.
  destruct (Ascii.eqb c ".") eqn:E; [|reflexivity].
  apply Ascii.eqb_eq in E. subst c. discriminate C.
Qed.

Lemma spliced_code_pattern (lang t : str) :
  match_here
    (seq (Str fence :: map (fun c => Str [c]) lang ++
          [spaces1; Grp 1 (StarLazy any_char); Str fence])) t =
  match_here (CodeParser.code_pattern lang) t.
Proof.
  unfold match_here, CodeParser.code_pattern.
  rewrite seq_cons by (destruct lang; discriminate).
  change (seq [Str fence; Str lang; spaces1; Grp 1 (StarLazy any_char);
               Str fence])
    with (Cat (Str fence)
            (Cat (Str lang)
               (seq [spaces1; Grp 1 (StarLazy any_char); Str fence]))).
  cbn [run]. destruct (strip_prefix fence t) as [t1|]; [|reflexivity].
  rewrite run_lits. reflexivity.
Qed.

(** For a plain tag the functions of [Spliced] are the functions above. *)
Lemma spliced_strict_plain (block text lang : str) :
  plain lang = true ->
  Spliced.CodeParser.parse_code block text lang =
  Some (CodeParser.parse_code block text lang).
Proof.
  intros P.
  unfold Spliced.CodeParser.parse_code, Spliced.CodeParser.code_pattern,
    CodeParser.parse_code.
  rewrite (tag_pattern_plain lang P). cbv zeta.
  rewrite (search_ext _ _ (spliced_code_pattern lang)). reflexivity.
Qed.

Lemma spliced_lenient_plain (text lang : str) :
  plain lang = true ->
  Spliced.OutputParser.parse_code text lang =
  Some (OutputParser.parse_code text lang).
Proof.
  intros P.
  unfold Spliced.OutputParser.parse_code, Spliced.OutputParser.code_pattern,
    OutputParser.parse_code.
  destruct lang as [|c lang]; [reflexivity|].
  rewrite (tag_pattern_plain (c :: lang) P).
  rewrite (search_ext _ _ (spliced_code_pattern (c :: lang))). reflexivity.
Qed.

Lemma spliced_content_pattern (tag t : str) :
  match_here
    (seq (Str (py "[") :: map (fun c => Str [c]) tag ++
          [Str (py "]"); Grp 1 (StarLazy any_char); Str (py "[/")] ++
          map (fun c => Str [c]) tag ++ [Str (py "]")])) t =
  match_here (OutputParser.content_pattern tag) t.
Proof.
  unfold match_here, OutputParser.content_pattern.
  rewrite seq_cons by (destruct tag; discriminate).
  change (seq [Str (py "[" ++ tag ++ py "]"); Grp 1 (StarLazy any_char);
               Str (py "[/" ++ tag ++ py "]")])
    with (Cat (Str (py "[" ++ tag ++ py "]"))
            (Cat (Grp 1 (StarLazy any_char))
               (Str (py "[/" ++ tag ++ py "]")))).
  cbn [run]. rewrite strip_prefix_app_eq.
  destruct (strip_prefix (py "[") t) as [t1|]; [|reflexivity].
  change ([Str (py "]"); Grp 1 (StarLazy any_char); Str (py "[/")] ++
          map (fun c => Str [c]) tag ++ [Str (py "]")])
    with (Str (py "]") :: Grp 1 (StarLazy any_char) :: Str (py "[/") ::
          map (fun c => Str [c]) tag ++ [Str (py "]")]).
  rewrite run_lits. cbn [run]. rewrite strip_prefix_app_eq.
  destruct (strip_prefix tag t1) as [t2|]; [|reflexivity].
  rewrite !seq_cons by discriminate.
  rewrite seq_cons by (destruct tag; discriminate).
  cbn [run].
  destruct (strip_prefix (py "]") t2) as [t3|]; [|reflexivity].
  apply star_lazy_ext. intros v.
  rewrite strip_prefix_app_eq.
  destruct (strip_prefix (py "[/") v) as [v1|]; [|reflexivity].
  rewrite run_lits. cbn [seq run]. rewrite strip_prefix_app_eq.
  destruct (strip_prefix tag v1); reflexivity.
Qed.

Lemma spliced_content_plain (text tag : str) :
  plain tag = true ->
  Spliced.OutputParser.extract_content text tag =
  Some (OutputParser.extract_content text tag).
Proof.
  intros P.
  unfold Spliced.OutputParser.extract_content,
    Spliced.OutputParser.content_pattern, OutputParser.extract_content.
  rewrite (tag_pattern_plain tag P).
  rewrite (search_ext _ _ (spliced_content_pattern tag)). reflexivity.
Qed.

(** ** Claims on the code extractors *)

Lemma not_fenced (lang t : str) :
  contains fence t = false -> ~ Spec.fenced lang t.
Proof.
  intros C H. apply contains_false in C. apply C. eapply fenced_occurs; eauto.
Qed.

Lemma not_fenced_exactly (lang t : str) :
  contains fence t = false -> ~ Spec.fenced_exactly lang t.
Proof.
  intros C H. apply contains_false in C. apply C.
  eapply fenced_exactly_occurs; eauto.
Qed.

(** When there is a fence, [OutputParser.parse_code] returns a text
    without fence and logs nothing. *)
Lemma lenient_found (text lang : str) :
  Spec.fenced lang text ->
  exists code,
    OutputParser.parse_code text lang = (code, []) /\ find fence code = None.
Proof.
  intros F. unfold OutputParser.parse_code.
  destruct (search (OutputParser.code_pattern lang) text) as [caps|] eqn:S.
  - destruct (lenient_search_group _ _ S) as (g & -> & G).
    exists g. auto.
  - apply lenient_search_none in S. contradiction.
Qed.

Lemma lenient_no_fence (text lang : str) :
  ~ Spec.fenced lang text ->
  OutputParser.parse_code text lang = ([], [NoCodeBlockFound lang]).
Proof.
  intros N. unfold OutputParser.parse_code.
  rewrite (proj2 (lenient_search_none lang text) N). reflexivity.
Qed.

Lemma fenced_tag_occurs (lang t : str) :
  lang <> [] -> Spec.fenced lang t -> Spec.occurs (fence ++ lang) t.
Proof.
  intros NE (a & tag & w & b & c & T & _ & E). rewrite (T NE) in E.
  exists a, (w :: b ++ fence ++ c). rewrite E.
  repeat rewrite <- app_assoc. reflexivity.
Qed.

Lemma fenced_exactly_tag_occurs (lang t : str) :
  Spec.fenced_exactly lang t -> Spec.occurs (fence ++ lang) t.
Proof.
  intros (a & w & b & c & _ & E).
  exists a, (w :: b ++ fence ++ c). rewrite E.
  repeat rewrite <- app_assoc. reflexivity.
Qed.

(** C4, as it is stated, fails for a language whose tag holds an operator
    of [re], since the tag is put into the pattern as it is: asked for the
    language [c.], [OutputParser.parse_code] returns the code of a fence
    tagged [cx], from a text that has no fence tagged [c.]. *)
Lemma C4_counterexample :
  ~ Spec.fenced (py "c.") (join_lines ["```cx"; "y"; "```"]) /\
  Spliced.OutputParser.parse_code (join_lines ["```cx"; "y"; "```"])
    (py "c.") =
  Some (join_lines ["y"; ""], []).
Proof.
  split; [|reflexivity].
  intros F. apply fenced_tag_occurs in F; [|discriminate].
  revert F. apply find_none_iff. reflexivity.
Qed.

(** C4, amended.  For a language whose tag has no operator of [re] (the
    empty tag of the default included), and on a text without a fence
    tagged with it (without any fence, for the empty tag),
    [OutputParser.parse_code] returns the empty string and logs that no code
    block was found; it does not raise. *)
Theorem C4_lenient_no_fence (text lang : str) :
  plain lang = true ->
  ~ Spec.fenced lang text ->
  Spliced.OutputParser.parse_code text lang =
  Some ([], [NoCodeBlockFound lang]).
Proof.
  intros P N. rewrite (spliced_lenient_plain text lang P).
  rewrite (lenient_no_fence N). reflexivity.
Qed.

Lemma C4_witness :
  Spliced.OutputParser.parse_code (py "no code in this answer") [] =
  Some ([], [NoCodeBlockFound []]).
Proof.
  apply C4_lenient_no_fence.
  - reflexivity.
  - apply not_fenced. reflexivity.
Defined.

Lemma strict_passthrough (block text lang : str) :
  let searched :=
    match block with
    | _ :: _ => CodeParser.parse_block block text
    | [] => text
    end in
  ~ Spec.fenced_exactly lang searched ->
  CodeParser.parse_code block text lang =
  (searched, [PatternNotMatched lang; LoggedText searched]).
Proof.
  cbv zeta. intros N. unfold CodeParser.parse_code.
  rewrite (proj2 (strict_search_none lang _) N). reflexivity.
Qed.

(** C5, as it is stated, fails for a language whose tag holds an operator
    of [re]: asked for the language [.], [CodeParser.parse_code] takes the
    code out of a fence tagged [x], of a text that has no fence tagged [.],
    and does not return the text as it is. *)
Lemma C5_counterexample :
  ~ Spec.fenced_exactly (py ".") (join_lines ["```x"; "y"; "```"]) /\
  Spliced.CodeParser.parse_code [] (join_lines ["```x"; "y"; "```"])
    (py ".") =
  Some (join_lines ["y"; ""], []) /\
  join_lines ["y"; ""] <> join_lines ["```x"; "y"; "```"].
Proof.
  split; [|split; [reflexivity|discriminate]].
  intros F. apply fenced_exactly_tag_occurs in F.
  revert F. apply find_none_iff. reflexivity.
Qed.

(** C5, amended.  For a language whose tag has no operator of [re]: on a
    text without a fence tagged [lang], [CodeParser.parse_code] called
    without a block name returns the text as it is; called with a block
    name it returns, as it is, the text of that block when this one has no
    such fence.  It logs the pattern and the text. *)
Theorem C5_strict_passthrough (text lang : str) :
  plain lang = true ->
  (~ Spec.fenced_exactly lang text ->
   Spliced.CodeParser.parse_code [] text lang =
   Some (text, [PatternNotMatched lang; LoggedText text])) /\
  (forall block,
     block <> [] ->
     ~ Spec.fenced_exactly lang (CodeParser.parse_block block text) ->
     Spliced.CodeParser.parse_code block text lang =
     Some (CodeParser.parse_block block text,
           [PatternNotMatched lang;
            LoggedText (CodeParser.parse_block block text)])).
Proof.
  intros P. split.
  - intros N. rewrite (spliced_strict_plain [] text lang P).
    rewrite (@strict_passthrough [] text lang N). reflexivity.
  - intros [|c block] NE N; [congruence|].
    rewrite (spliced_strict_plain (c :: block) text lang P).
    rewrite (@strict_passthrough (c :: block) text lang N). reflexivity.
Qed.

Lemma C5_witness :
  Spliced.CodeParser.parse_code [] (py "return 0;") (py "cpp") =
  Some (py "return 0;",
        [PatternNotMatched (py "cpp"); LoggedText (py "return 0;")]).
Proof.
  apply (proj1 (C5_strict_passthrough (py "return 0;") (py "cpp") eq_refl)).
  apply not_fenced_exactly. reflexivity.
Defined.

(** C8, as it is stated, fails in the lenient mode: the code taken out of a
    fence has no fence, so a second call of [OutputParser.parse_code]
    returns the empty string. *)
Lemma C8_counterexample :
  fst (OutputParser.parse_code (join_lines ["```"; "print(1)"; "```"]) []) =
  join_lines ["print(1)"; ""] /\
  fst (OutputParser.parse_code
         (fst (OutputParser.parse_code
                 (join_lines ["```"; "print(1)"; "```"]) [])) []) = [] /\
  fst (OutputParser.parse_code
         (fst (OutputParser.parse_code
                 (join_lines ["```"; "print(1)"; "```"]) [])) []) <>
  fst (OutputParser.parse_code (join_lines ["```"; "print(1)"; "```"]) []).
Proof. repeat split; try reflexivity. vm_compute. discriminate. Qed.

Lemma strict_idempotent (text lang : str) :
  fst (CodeParser.parse_code [] (fst (CodeParser.parse_code [] text lang)) lang) =
  fst (CodeParser.parse_code [] text lang).
Proof.
  unfold CodeParser.parse_code at 2 3.
  destruct (search (CodeParser.code_pattern lang) text) as [caps|] eqn:S.
  - destruct (strict_search_group _ _ S) as (g & -> & G).
    cbn [group Nat.eqb fst]. unfold CodeParser.parse_code.
    rewrite (no_fence_strict lang _ G). reflexivity.
  - cbn [fst]. unfold CodeParser.parse_code. rewrite S. reflexivity.
Qed.

Lemma lenient_twice (text lang : str) :
  fst (OutputParser.parse_code (fst (OutputParser.parse_code text lang)) lang) =
  [].
Proof.
  unfold OutputParser.parse_code at 2.
  destruct (search (OutputParser.code_pattern lang) text) as [caps|] eqn:S.
  - destruct (lenient_search_group _ _ S) as (g & -> & G).
    cbn [group Nat.eqb fst]. unfold OutputParser.parse_code.
    rewrite (no_fence_lenient lang _ G). reflexivity.
  - cbn [fst]. unfold OutputParser.parse_code.
    rewrite (no_fence_lenient lang []); reflexivity.
Qed.

(** C8, amended.  For a language whose tag has no operator of [re]:
    [CodeParser.parse_code] without a block name returns, and returns its
    own result unchanged when it is applied to it, for the result has no
    fence; [OutputParser.parse_code] returns, and applied to its own result
    it returns the empty string. *)
Theorem C8_idempotence (text lang : str) :
  plain lang = true ->
  (exists code logs logs',
     Spliced.CodeParser.parse_code [] text lang = Some (code, logs) /\
     Spliced.CodeParser.parse_code [] code lang = Some (code, logs')) /\
  (exists code logs logs',
     Spliced.OutputParser.parse_code text lang = Some (code, logs) /\
     Spliced.OutputParser.parse_code code lang = Some ([], logs')).
Proof.
  intros P. split.
  - pose proof (strict_idempotent text lang) as I.
    rewrite (spliced_strict_plain [] text lang P).
    destruct (CodeParser.parse_code [] text lang) as [code logs].
    cbn [fst] in I. exists code, logs.
    rewrite (spliced_strict_plain [] code lang P).
    destruct (CodeParser.parse_code [] code lang) as [code' logs'].
    cbn [fst] in I. subst code'. exists logs'. split; reflexivity.
  - pose proof (lenient_twice text lang) as I.
    rewrite (spliced_lenient_plain text lang P).
    destruct (OutputParser.parse_code text lang) as [code logs].
    cbn [fst] in I. exists code, logs.
    rewrite (spliced_lenient_plain code lang P).
    destruct (OutputParser.parse_code code lang) as [code' logs'].
    cbn [fst] in I. subst code'. exists logs'. split; reflexivity.
Qed.

Lemma C8_witness :
  exists code logs logs',
    Spliced.CodeParser.parse_code []
      (join_lines ["```cpp"; "return 0;"; "```"]) (py "cpp") =
    Some (code, logs) /\
    Spliced.CodeParser.parse_code [] code (py "cpp") = Some (code, logs').
Proof.
  apply (proj1 (C8_idempotence (join_lines ["```cpp"; "return 0;"; "```"])
                  (py "cpp") eq_refl)).
Defined.

Example ex_parse_code :
  OutputParser.parse_code
    (join_lines ["intro ```python"; "print(1)"; "``` outro"]) (py "python") =
  (join_lines ["print(1)"; ""], []) /\
  CodeParser.parse_code []
    (join_lines ["```cpp"; "return 0;"; "```"]) (py "cpp") =
  (join_lines ["return 0;"; ""], []).
Proof. split; reflexivity. Qed.

(** ** The tagged content *)

Lemma content_match_here (tag t : str) :
  match_here (OutputParser.content_pattern tag) t =
  match strip_prefix (py "[" ++ tag ++ py "]") t with
  | Some t1 =>
      match find (py "[/" ++ tag ++ py "]") t1 with
      | Some j => Some [(1, firstn j t1)]
      | None => None
      end
  | None => None
  end.
Proof.
  unfold match_here, OutputParser.content_pattern. cbn [seq run].
  destruct (strip_prefix (py "[" ++ tag ++ py "]") t) as [t1|]; [|reflexivity].
  rewrite star_lazy_first.
  destruct (find (py "[/" ++ tag ++ py "]") t1) as [j|] eqn:F; [|reflexivity].
  destruct (find_some _ _ F) as (L & _ & _).
  rewrite consumed_skipn by exact L. reflexivity.
Qed.

Lemma occurs_skipn (s t : str) (n : nat) :
  Spec.occurs s (skipn n t) -> Spec.occurs s t.
Proof.
  intros (a & b & E). exists (firstn n t ++ a), b.
  rewrite <- (firstn_skipn n t) at 1. rewrite E, <- app_assoc. reflexivity.
Qed.

Lemma find_none_skipn (s t : str) (n : nat) :
  find s t = None -> find s (skipn n t) = None.
Proof.
  rewrite !find_none_iff. intros N H. apply N. eapply occurs_skipn; eauto.
Qed.

(** The search of the pattern of [extract_content], by [str.find]. *)
Lemma content_search (tag text : str) :
  search (OutputParser.content_pattern tag) text =
  match find (py "[" ++ tag ++ py "]") text with
  | None => None
  | Some i =>
      let inner := skipn (i + length (py "[" ++ tag ++ py "]")) text in
      match find (py "[/" ++ tag ++ py "]") inner with
      | None => None
      | Some j => Some [(1, firstn j inner)]
      end
  end.
Proof.
  set (opening := py "[" ++ tag ++ py "]").
  set (closing := py "[/" ++ tag ++ py "]").
  induction text as [|c t IH]; cbn [search]; rewrite content_match_here;
    fold opening; fold closing.
  - reflexivity.
  - cbn [find]. rewrite starts_with_strip_prefix.
    destruct (strip_prefix opening (c :: t)) as [t1|] eqn:P.
    + apply strip_prefix_spec in P.
      assert (E : skipn (0 + length opening) (c :: t) = t1).
      { rewrite P. apply skipn_app_length. }
      cbv zeta. rewrite E.
      destruct (find closing t1) as [j|] eqn:F; [reflexivity|].
      rewrite IH. destruct (find opening t) as [i|]; [|reflexivity].
      cbv zeta.
      assert (E' : skipn (i + length opening) t = skipn (S i) t1).
      { rewrite <- E.
        replace (0 + length opening) with (S (length (tag ++ py "]")))
          by reflexivity.
        change (skipn (S (length (tag ++ py "]"))) (c :: t))
          with (skipn (length (tag ++ py "]")) t).
        rewrite skipn_skipn. f_equal.
        replace (length opening) with (S (length (tag ++ py "]")))
          by reflexivity.
        lia. }
      rewrite E', (find_none_skipn _ _ (S i) F). reflexivity.
    + rewrite IH. destruct (find opening t) as [i|]; reflexivity.
Qed.

Lemma find_before (s t a r : str) (i : nat) :
  find s t = Some i -> t = a ++ s ++ r -> i <= length a.
Proof.
  intros F E. destruct (find_some _ _ F) as (_ & _ & Min).
  destruct (Nat.le_gt_cases i (length a)) as [H|H]; auto.
  specialize (Min _ H). rewrite E, skipn_app_length in Min.
  assert (starts_with s (s ++ r) = true) by (apply starts_with_spec; eauto).
  congruence.
Qed.

Lemma content_unwrap (text tag : str) :
  OutputParser.extract_content text tag = Spec.unwrap text tag /\
  (~ Spec.occurs (py "[" ++ tag ++ py "]") text \/
   ~ Spec.occurs (py "[/" ++ tag ++ py "]") text ->
   OutputParser.extract_content text tag = Raise ValueError) /\
  (forall a b c,
     text = a ++ (py "[" ++ tag ++ py "]") ++ b ++ (py "[/" ++ tag ++ py "]") ++ c ->
     exists inner,
       Spec.occurs ((py "[" ++ tag ++ py "]") ++ inner ++ (py "[/" ++ tag ++ py "]")) text /\
       OutputParser.extract_content text tag = Ok (strip inner)).
Proof.
  assert (R : OutputParser.extract_content text tag = Spec.unwrap text tag).
  { unfold OutputParser.extract_content, Spec.unwrap. rewrite content_search.
    destruct (find (py "[" ++ tag ++ py "]") text) as [i|]; [|reflexivity].
    cbv zeta.
    destruct (find (py "[/" ++ tag ++ py "]") _) as [j|]; reflexivity. }
  split; [exact R|]. rewrite R. unfold Spec.unwrap. split.
  - intros [N|N].
    + apply find_none_iff in N. rewrite N. reflexivity.
    + destruct (find (py "[" ++ tag ++ py "]") text) as [i|]; [|reflexivity].
      cbv zeta.
      destruct (find (py "[/" ++ tag ++ py "]") _) as [j|] eqn:F; [|reflexivity].
      exfalso. apply N. eapply occurs_skipn. apply contains_spec.
      unfold contains. rewrite F. reflexivity.
  - intros a b c E.
    set (opening := py "[" ++ tag ++ py "]") in *.
    set (closing := py "[/" ++ tag ++ py "]") in *.
    destruct (find opening text) as [i|] eqn:F.
    + cbv zeta. pose proof (find_before _ _ _ F E) as L.
      pose proof (find_split _ _ F) as Sp.
      destruct (find closing (skipn (i + length opening) text)) as [j|] eqn:G.
      * exists (firstn j (skipn (i + length opening) text)). split; auto.
        pose proof (find_split _ _ G) as Sq.
        exists (firstn i text). eexists.
        rewrite Sp at 1. rewrite Sq at 1.
        repeat rewrite <- app_assoc. reflexivity.
      * exfalso. apply find_none_iff in G. apply G.
        assert (T : skipn (i + length opening) text =
                    skipn (i + length opening) (a ++ opening) ++ b ++ closing ++ c).
        { rewrite E at 1. rewrite app_assoc, skipn_app.
          replace (i + length opening - length (a ++ opening)) with 0
            by (rewrite length_app; lia).
          reflexivity. }
        rewrite T.
        exists (skipn (i + length opening) (a ++ opening) ++ b), c.
        rewrite <- app_assoc. reflexivity.
    + exfalso. apply find_none_iff in F. apply F. exists a. eexists. exact E.
Qed.

(** C7, as it is stated, fails for a tag that holds an operator of [re],
    since the tag is put into the pattern as it is: with the tag [a.b],
    [extract_content] returns the text between [[axb]] and [[/axb]], of a
    text in which neither [[a.b]] nor [[/a.b]] occurs, where [unwrap]
    raises. *)
Lemma C7_counterexample :
  ~ Spec.occurs (py "[a.b]") (py "[axb]hello[/axb]") /\
  ~ Spec.occurs (py "[/a.b]") (py "[axb]hello[/axb]") /\
  Spec.unwrap (py "[axb]hello[/axb]") (py "a.b") = Raise ValueError /\
  Spliced.OutputParser.extract_content (py "[axb]hello[/axb]") (py "a.b") =
  Some (Ok (py "hello")).
Proof.
  repeat split; try reflexivity; apply find_none_iff; reflexivity.
Qed.

(** C7, amended.  For a tag without operator of [re], [extract_content] is
    the [unwrap] of the specification: it returns the trimmed text between
    the first [[tag]] and the first [[/tag]] after it.  It returns when an
    opening marker is followed by a closing one, and raises when one of the
    two markers does not occur. *)
Theorem C7_unwrap (text tag : str) :
  plain tag = true ->
  Spliced.OutputParser.extract_content text tag =
  Some (Spec.unwrap text tag) /\
  (~ Spec.occurs (py "[" ++ tag ++ py "]") text \/
   ~ Spec.occurs (py "[/" ++ tag ++ py "]") text ->
   Spliced.OutputParser.extract_content text tag = Some (Raise ValueError)) /\
  (forall a b c,
     text = a ++ (py "[" ++ tag ++ py "]") ++ b ++ (py "[/" ++ tag ++ py "]") ++ c ->
     exists inner,
       Spec.occurs ((py "[" ++ tag ++ py "]") ++ inner ++ (py "[/" ++ tag ++ py "]")) text /\
       Spliced.OutputParser.extract_content text tag =
       Some (Ok (strip inner))).
Proof.
  intros P. rewrite (spliced_content_plain text tag P).
  destruct (content_unwrap text tag) as (R & N & F).
  split; [rewrite R; reflexivity|]. split.
  - intros H. rewrite (N H). reflexivity.
  - intros a b c E. destruct (F a b c E) as (inner & O & X).
    exists inner. split; [exact O|]. rewrite X. reflexivity.
Qed.

Lemma C7_witness :
  Spliced.OutputParser.extract_content (py "[CONTENT]hello[/CONTENT]")
    (py "CONTENT") =
  Some (Ok (py "hello")) /\
  Spliced.OutputParser.extract_content (py "hello") (py "CONTENT") =
  Some (Raise ValueError).
Proof.
  split.
  - rewrite (proj1 (C7_unwrap (py "[CONTENT]hello[/CONTENT]") (py "CONTENT")
                      eq_refl)).
    reflexivity.
  - apply (proj1 (proj2 (C7_unwrap (py "hello") (py "CONTENT") eq_refl))).
    left. apply contains_false. reflexivity.
Defined.

(** ** First and last bracket *)

Lemma rfind_none (sub t : str) : rfind sub t = None <-> find sub t = None.
Proof.
  induction t as [|c t IH]; simpl.
  - tauto.
  - destruct (starts_with sub (c :: t)).
    + destruct (rfind sub t); split; discriminate.
    + destruct (rfind sub t), (find sub t); simpl; split; try discriminate; auto.
      * intros _. destruct IH as [_ IH]. discriminate IH; reflexivity.
      * intros _. destruct IH as [IH _]. discriminate IH; reflexivity.
Qed.

Lemma contains_char_cons (c x : ascii) (t : str) :
  contains [c] (x :: t) = false -> Ascii.eqb c x = false /\ contains [c] t = false.
Proof.
  unfold contains. simpl.
  destruct (Ascii.eqb c x); simpl; [discriminate|].
  destruct (find [c] t); simpl; [discriminate|auto].
Qed.

(** The first occurrence of a character that the text before it lacks. *)
Lemma find_char (c : ascii) (before rest : str) :
  contains [c] before = false ->
  find [c] (before ++ c :: rest) = Some (length before).
Proof.
  induction before as [|x before IH]; intros C; simpl.
  - rewrite Ascii.eqb_refl. reflexivity.
  - apply contains_char_cons in C. destruct C as [E C].
    rewrite E. simpl. rewrite IH by exact C. reflexivity.
Qed.

(** The last occurrence of a character that the text after it lacks. *)
Lemma rfind_char (c : ascii) (before after : str) :
  contains [c] after = false ->
  rfind [c] (before ++ c :: after) = Some (length before).
Proof.
  intros C. induction before as [|x before IH]; simpl.
  - assert (R : rfind [c] after = None).
    { apply rfind_none. unfold contains in C.
      destruct (find [c] after); [discriminate|reflexivity]. }
    rewrite R, Ascii.eqb_refl. reflexivity.
  - rewrite IH. reflexivity.
Qed.

Lemma bracket_chars (data_type : kind) :
  exists o c, OutputParser.open_bracket data_type = [o] /\
              OutputParser.close_bracket data_type = [c].
Proof. destruct data_type; simpl; eauto. Qed.

(** The span that [extract_struct] cuts out of a text. *)
Lemma struct_span (data_type : kind) (before inside after : str) :
  contains (OutputParser.open_bracket data_type) before = false ->
  contains (OutputParser.close_bracket data_type) after = false ->
  let text :=
    before ++ OutputParser.open_bracket data_type ++ inside ++
    OutputParser.close_bracket data_type ++ after in
  exists i j,
    find (OutputParser.open_bracket data_type) text = Some i /\
    rfind (OutputParser.close_bracket data_type) text = Some j /\
    slice i (j + 1) text =
    OutputParser.open_bracket data_type ++ inside ++
    OutputParser.close_bracket data_type.
Proof.
  destruct (bracket_chars data_type) as (o & c & -> & ->).
  intros Co Cc text.
  exists (length before), (length (before ++ o :: inside)).
  subst text. simpl. split; [|split].
  - apply find_char. exact Co.
  - replace (before ++ o :: inside ++ c :: after)
      with ((before ++ o :: inside) ++ c :: after)
      by (rewrite <- app_assoc; reflexivity).
    apply rfind_char. exact Cc.
  - unfold slice.
    replace (before ++ o :: inside ++ c :: after)
      with ((before ++ o :: inside ++ [c]) ++ after)
      by (repeat (rewrite <- app_assoc; simpl); reflexivity).
    replace (length (before ++ o :: inside) + 1)
      with (length (before ++ o :: inside ++ [c]))
      by (rewrite !length_app; simpl; rewrite !length_app; simpl; lia).
    rewrite firstn_app_length, skipn_app_length. reflexivity.
Qed.

(** ** Claims on the structural literals *)

(** What [extract_struct] does in each of its cases, for any evaluator. *)
Lemma extract_struct_cases (literal_eval : str -> result pyval)
  (text : str) (data_type : kind) :
  match find (OutputParser.open_bracket data_type) text,
        rfind (OutputParser.close_bracket data_type) text with
  | Some i, Some j =>
      match literal_eval (slice i (j + 1) text) with
      | Ok v =>
          OutputParser.extract_struct literal_eval text data_type =
          if isinstance v data_type then (Ok v, [])
          else (Ok VNone, [NotOfKind data_type])
      | Raise e =>
          OutputParser.extract_struct literal_eval text data_type =
          match e with
          | ValueError | SyntaxError => (Ok VNone, [ErrorParsing data_type e])
          | _ => (Raise e, [])
          end
      end
  | _, _ =>
      OutputParser.extract_struct literal_eval text data_type =
      (Ok (match data_type with KList => VList [] | KDict => VDict [] end),
       [NoStructFound data_type])
  end.
Proof.
  unfold OutputParser.extract_struct.
  destruct (find _ text) as [i|]; [|reflexivity].
  destruct (rfind _ text) as [j|]; [|reflexivity].
  destruct (literal_eval _) as [v|[]]; reflexivity.
Qed.

(** [extract_struct] does not raise when the evaluator returns, or raises
    one of the two exceptions of the [except] clause. *)
Lemma extract_struct_returns (literal_eval : str -> result pyval)
  (text : str) (data_type : kind) :
  (forall t e, literal_eval t = Raise e -> e = ValueError \/ e = SyntaxError) ->
  exists v logs,
    OutputParser.extract_struct literal_eval text data_type = (Ok v, logs).
Proof.
  intros H. pose proof (extract_struct_cases literal_eval text data_type) as C.
  destruct (find _ text) as [i|]; [|eauto].
  destruct (rfind _ text) as [j|]; [|eauto].
  destruct (literal_eval _) as [v|e] eqn:L.
  - rewrite C. destruct (isinstance v data_type); eauto.
  - rewrite C. destruct (H _ _ L) as [-> | ->]; eauto.
Qed.

(** C2.  The claim holds for a text without bracket, as in its example, but
    not for every text: the [except] clause of [extract_struct] names
    [ValueError] and [SyntaxError] only, and [ast.literal_eval] raises
    [TypeError] on a dict whose key is a list.  On such a text the
    exception reaches the caller and nothing is logged. *)
Theorem C2_type_error_escapes :
  OutputParser.extract_struct Literal.literal_eval (py "no brackets here") KList =
  (Ok (VList []), [NoStructFound KList]) /\
  OutputParser.extract_struct Literal.literal_eval (py "{[1]: 2}") KDict =
  (Raise TypeError, []).
Proof. split; reflexivity. Qed.

(** C6.  When the first opening bracket and the last closing bracket of the
    text delimit a span that evaluates to a value of the requested type,
    [extract_struct] returns that value and logs nothing, whatever stands
    before and after the span. *)
Theorem C6_extract_struct_success (literal_eval : str -> result pyval)
  (data_type : kind) (before inside after : str) (v : pyval) :
  contains (OutputParser.open_bracket data_type) before = false ->
  contains (OutputParser.close_bracket data_type) after = false ->
  literal_eval
    (OutputParser.open_bracket data_type ++ inside ++
     OutputParser.close_bracket data_type) = Ok v ->
  isinstance v data_type = true ->
  OutputParser.extract_struct literal_eval
    (before ++ OutputParser.open_bracket data_type ++ inside ++
     OutputParser.close_bracket data_type ++ after) data_type =
  (Ok v, []).
Proof.
  intros Co Cc L I.
  destruct (struct_span data_type before inside after Co Cc) as (i & j & F & R & S).
  unfold OutputParser.extract_struct. rewrite F, R, S, L, I. reflexivity.
Qed.

Lemma C6_witness :
  OutputParser.extract_struct Literal.literal_eval
    (pyq "result: ['a','b',['c','d']] extra text") KList =
  (Ok (VList [VStr (py "a"); VStr (py "b");
              VList [VStr (py "c"); VStr (py "d")]]), []).
Proof.
  apply (C6_extract_struct_success Literal.literal_eval KList
           (py "result: ") (pyq "'a','b',['c','d']") (py " extra text"));
    reflexivity.
Defined.

Example ex_extract_struct_docstring :
  OutputParser.extract_struct Literal.literal_eval
    (pyq "xxx [1, 2, ['a', 'b', [3, 4]], {'x': 5, 'y': [6, 7]}] xxx") KList =
  (Ok (VList [VInt 1; VInt 2;
              VList [VStr (py "a"); VStr (py "b"); VList [VInt 3; VInt 4]];
              VDict [(VStr (py "x"), VInt 5);
                     (VStr (py "y"), VList [VInt 6; VInt 7])]]), []) /\
  OutputParser.extract_struct Literal.literal_eval
    (pyq "xxx {'x': 1, 'y': {'a': 2, 'b': {'c': 3}}} xxx") KDict =
  (Ok (VDict [(VStr (py "x"), VInt 1);
              (VStr (py "y"),
               VDict [(VStr (py "a"), VInt 2);
                      (VStr (py "b"), VDict [(VStr (py "c"), VInt 3)])])]),
   []).
Proof. split; reflexivity. Qed.

(** ** Claims on the lists of a field *)

Lemma file_list_pattern_language (u : str) :
  Spec.matches OutputParser.file_list_pattern u ->
  exists p x, u = p ++ py "[" ++ x ++ py "]".
Proof.
  unfold OutputParser.file_list_pattern. cbn [seq]. intros M.
  inv_matches.
  match goal with
  | H : Spec.matches (Opt _) _ |- _ => inversion H; subst; clear H
  end; inv_matches;
    match goal with
    | |- exists p x, ?u1 ++ ?u2 ++ _ ++ ?y ++ _ = _ => exists (u1 ++ u2), y
    end;
    repeat rewrite <- app_assoc; reflexivity.
Qed.

(** The pattern of [parse_file_list] is found exactly in the texts that
    have an opening square bracket with a closing one after it. *)
Lemma file_list_search_none (t : str) :
  search OutputParser.file_list_pattern t = None <-> ~ Spec.has_bracket_span t.
Proof.
  rewrite search_none_iff. unfold Spec.has_bracket_span.
  split; intros N H; apply N.
  - destruct H as (a & b & c & ->).
    exists a, (py "[" ++ b ++ py "]"), c. split.
    + repeat (rewrite <- app_assoc; simpl). reflexivity.
    + unfold OutputParser.file_list_pattern. cbn [seq].
      change (py "[" ++ b ++ py "]") with ([] ++ [] ++ py "[" ++ b ++ py "]").
      apply Spec.MCat; [constructor; reflexivity|].
      apply Spec.MCat; [apply Spec.MOptNone|].
      constructor. apply Spec.MCat; [constructor|].
      apply Spec.MCat; constructor. apply forallb_any_char.
  - destruct H as (a & u & v & -> & M).
    apply file_list_pattern_language in M. destruct M as (p & x & ->).
    exists (a ++ p), x, v. repeat (rewrite <- app_assoc; simpl). reflexivity.
Qed.

Lemma no_bracket_span (t : str) :
  contains (py "[") t = false -> ~ Spec.has_bracket_span t.
Proof.
  intros C (a & b & c & ->). apply contains_false in C. apply C.
  exists a. eexists. reflexivity.
Qed.

(** C3, as it is stated, fails: the lines of the fallback are neither
    trimmed nor filtered, and a body without fence is replaced by the empty
    string before it is split, so that three bullet lines give one empty
    line. *)
Lemma C3_counterexample :
  OutputParser.parse_file_list Literal.literal_eval
    (join_lines [" a "; ""; " b"]) =
  Ok (VList [VStr (py " a "); VStr []; VStr (py " b")]) /\
  Spec.trimmed_lines (join_lines [" a "; ""; " b"]) = [py "a"; py "b"] /\
  OutputParser.parse_field Literal.literal_eval
    (join_lines ["```"; " a "; ""; " b"; "```"]) (Some (TupleOf ListStr)) =
  (VList [VStr (py "a "); VStr []; VStr (py " b"); VStr []], []) /\
  OutputParser.parse_field Literal.literal_eval
    (join_lines ["- a"; "- b"; "- c"]) (Some (TupleOf ListStr)) =
  (VList [VStr []], [NoCodeBlockFound []]) /\
  OutputParser.parse_data_with_mapping Literal.literal_eval
    (join_lines ["## Files"; "- a"; "- b"; "- c"])
    [(py "Files", TupleOf ListStr)] =
  (Ok [(py "Files", VList [VStr []])], [NoCodeBlockFound []]).
Proof. repeat split; reflexivity. Qed.

(** C3, amended.  On a text in which no opening square bracket has a
    closing one after it, [parse_file_list] returns the lines of the text
    as they are, neither trimmed nor filtered.  A field declared as a list
    whose body has a fence gets the lines of the code of the fence when
    this code has no such pair of brackets. *)
Theorem C3_fallback_lines (literal_eval : str -> result pyval) (text : str) :
  ~ Spec.has_bracket_span text ->
  OutputParser.parse_file_list literal_eval text =
  Ok (VList (map VStr (split [nl] text))) /\
  (forall body td,
     OutputParser.parse_code body [] = (text, []) ->
     declared_type td <> OtherType ->
     OutputParser.parse_field literal_eval body (Some td) =
     (VList (map VStr (split [nl] text)), [])).
Proof.
  intros N.
  assert (P : OutputParser.parse_file_list literal_eval text =
              Ok (VList (map VStr (split [nl] text)))).
  { unfold OutputParser.parse_file_list.
    rewrite (proj2 (file_list_search_none text) N). reflexivity. }
  split; [exact P|].
  intros body td C T. unfold OutputParser.parse_field. rewrite C.
  destruct td as [[]|[]]; simpl in T; try congruence; rewrite P; reflexivity.
Qed.

Lemma C3_witness :
  OutputParser.parse_file_list Literal.literal_eval
    (join_lines ["- a"; "- b"; "- c"]) =
  Ok (VList [VStr (py "- a"); VStr (py "- b"); VStr (py "- c")]) /\
  OutputParser.parse_field Literal.literal_eval
    (join_lines ["```"; "- a"; "- b"; "- c```"]) (Some (TupleOf ListStr)) =
  (VList [VStr (py "- a"); VStr (py "- b"); VStr (py "- c")], []).
Proof.
  split.
  - apply (proj1 (C3_fallback_lines Literal.literal_eval
                    (@no_bracket_span (join_lines ["- a"; "- b"; "- c"])
                       eq_refl))).
  - apply (proj2 (C3_fallback_lines Literal.literal_eval
                    (@no_bracket_span (join_lines ["- a"; "- b"; "- c"])
                       eq_refl))).
    + reflexivity.
    + discriminate.
Defined.

(** * Further functions of [common.py] *)

Unset Implicit Arguments.

(** ** Splitting and joining *)

Lemma split_from_nonempty (fuel : nat) (sep t : str) :
  split_from fuel sep t <> [].
Proof.
  destruct fuel; simpl; [discriminate|].
  destruct (find sep t); discriminate.
Qed.

Lemma join_cons (sep p : str) (parts : list str) :
  parts <> [] -> join sep (p :: parts) = p ++ sep ++ join sep parts.
Proof. destruct parts; [congruence|reflexivity]. Qed.

(** Joining the parts of a text with the separator gives the text back. *)
Lemma join_split_from (fuel : nat) (sep t : str) :
  join sep (split_from fuel sep t) = t.
Proof.
  revert t; induction fuel as [|fuel IH]; intros t; simpl; [reflexivity|].
  destruct (find sep t) as [i|] eqn:F; [|reflexivity].
  rewrite join_cons by apply split_from_nonempty.
  rewrite IH. symmetry. apply find_split. exact F.
Qed.

Lemma find_nil_none (sep : str) : sep <> [] -> find sep [] = None.
Proof. destruct sep; [congruence|reflexivity]. Qed.

Lemma last_cons (A : Type) (x d : A) (l : list A) :
  l <> [] -> last (x :: l) d = last l d.
Proof. destruct l; [congruence|reflexivity]. Qed.

(** The last part of a split holds no separator. *)
Lemma split_from_last_free (fuel : nat) (sep : str) :
  sep <> [] ->
  forall t, length t <= fuel -> find sep (last (split_from fuel sep t) []) = None.
Proof.
  intros NE. induction fuel as [|fuel IH]; intros t L; simpl.
  - destruct t; [|simpl in L; lia]. apply find_nil_none; assumption.
  - destruct (find sep t) as [i|] eqn:F; [|exact F].
    rewrite last_cons by apply split_from_nonempty.
    apply IH. rewrite length_skipn.
    pose proof (find_split _ _ F) as E.
    apply (f_equal (@length _)) in E. rewrite !length_app in E.
    destruct sep; [congruence|]. simpl in *. lia.
Qed.

Lemma find_char_none (c : ascii) (t : str) :
  find [c] t = None <-> ~ In c t.
Proof.
  induction t as [|x t IH]; simpl.
  - tauto.
  - destruct (Ascii.eqb c x) eqn:E; simpl.
    + apply Ascii.eqb_eq in E. subst. split; [discriminate|]. intros N.
      exfalso. apply N. left; reflexivity.
    + apply Ascii.eqb_neq in E. destruct (find [c] t); simpl.
      * split; [discriminate|]. intros N. exfalso.
        destruct IH as [_ IH].
        specialize (IH (fun H => N (or_intror H))). discriminate.
      * split; auto. intros _ [H|H]; [congruence|]. apply IH; auto.
Qed.

Lemma join_snoc (sep x : str) (l : list str) :
  join sep (l ++ [x]) =
  match l with
  | [] => x
  | _ :: _ => join sep l ++ sep ++ x
  end.
Proof.
  induction l as [|p l IH]; [reflexivity|].
  destruct l as [|q l].
  - reflexivity.
  - change ((p :: q :: l) ++ [x]) with (p :: (q :: l) ++ [x]).
    rewrite join_cons by (simpl; discriminate).
    rewrite IH. cbv beta iota.
    rewrite (@join_cons sep p (q :: l)) by discriminate.
    repeat rewrite <- app_assoc. reflexivity.
Qed.

(** The last part of [t.split(c)] is the text after the last [c]. *)
Lemma split_char_last (c : ascii) (t : str) :
  exists before,
    t = before ++ last (split [c] t) [] /\
    (before = [] \/ exists b, before = b ++ [c]) /\
    ~ In c (last (split [c] t) []).
Proof.
  unfold split.
  pose proof (join_split_from (length t) [c] t) as J.
  pose proof (@split_from_last_free (length t) [c] ltac:(discriminate) t (le_n _)) as F.
  pose proof (split_from_nonempty (length t) [c] t) as NE.
  remember (split_from (length t) [c] t) as parts eqn:P. clear P.
  rewrite (app_removelast_last [] NE) in J.
  rewrite join_snoc in J.
  apply find_char_none in F.
  unfold str in *.
  destruct (removelast parts) as [|p l] eqn:R.
  - exists []. cbv beta iota in J. split; [symmetry; exact J|]. auto.
  - exists (join [c] (p :: l) ++ [c]). cbv beta iota in J. split; [|split; auto].
    + rewrite <- J at 1. rewrite <- app_assoc. reflexivity.
    + right. eauto.
Qed.

(** The part of a text after its last [c] is determined. *)
Lemma tail_after_char_unique (c : ascii) (u1 u2 q1 q2 : str) :
  u1 ++ q1 = u2 ++ q2 ->
  ~ In c u1 -> ~ In c u2 ->
  (q1 = [] \/ exists r, q1 = c :: r) ->
  (q2 = [] \/ exists r, q2 = c :: r) ->
  u1 = u2.
Proof.
  revert u2; induction u1 as [|x u1 IH]; intros u2 E N1 N2 Q1 Q2.
  - destruct u2 as [|y u2]; [reflexivity|]. exfalso. simpl in E.
    destruct Q1 as [->|[r ->]]; [discriminate|].
    inversion E; subst. apply N2. left; reflexivity.
  - destruct u2 as [|y u2].
    + exfalso. simpl in E.
      destruct Q2 as [->|[r ->]]; [discriminate|].
      inversion E; subst. apply N1. left; reflexivity.
    + simpl in E. inversion E; subst. f_equal.
      apply (IH u2); auto; intros H; [apply N1|apply N2]; right; assumption.
Qed.

Lemma split_char_last_app (c : ascii) (a b : str) :
  ~ In c b -> last (split [c] (a ++ c :: b)) [] = b.
Proof.
  intros N.
  destruct (split_char_last c (a ++ c :: b)) as (before & E & B & F).
  set (r := last (split [c] (a ++ c :: b)) []) in *.
  apply (f_equal (@rev _)) in E. rewrite !rev_app_distr in E. simpl in E.
  rewrite <- app_assoc in E. simpl in E.
  assert (R : rev b = rev r).
  { apply (@tail_after_char_unique c (rev b) (rev r) (c :: rev a) (rev before)).
    - exact E.
    - rewrite <- in_rev. exact N.
    - rewrite <- in_rev. exact F.
    - right. eauto.
    - destruct B as [->|[b' ->]]; [left; reflexivity|].
      right. rewrite rev_app_distr. simpl. eauto. }
  rewrite <- (rev_involutive b), R, rev_involutive. reflexivity.
Qed.

Lemma split_char_last_free (c : ascii) (t : str) :
  ~ In c t -> last (split [c] t) [] = t.
Proof.
  intros N. unfold split. apply find_char_none in N.
  destruct (length t); simpl; rewrite ?N; reflexivity.
Qed.

(** ** A separator made of one repeated character *)

Section RepeatedSeparator.

Variable c : ascii.
Variable sep : str.
Hypothesis sep_nonempty : sep <> [].
Hypothesis sep_uniform : forall x, In x sep -> x = c.

Lemma starts_with_uniform (x : ascii) (t : str) :
  x <> c -> starts_with sep (x :: t) = false.
Proof.
  intros N. destruct sep as [|s sep']; [congruence|]. simpl.
  destruct (Ascii.eqb s x) eqn:E; [|reflexivity].
  apply Ascii.eqb_eq in E. subst x. exfalso. apply N.
  apply sep_uniform. left; reflexivity.
Qed.

Lemma find_uniform_none (p : str) : ~ In c p -> find sep p = None.
Proof.
  induction p as [|x p IH]; intros N.
  - apply find_nil_none. exact sep_nonempty.
  - cbn [find]. rewrite starts_with_uniform
      by (intros ->; apply N; left; reflexivity).
    rewrite IH; [reflexivity|]. intros H. apply N. right; assumption.
Qed.

Lemma find_uniform_first (p rest : str) :
  ~ In c p -> find sep (p ++ sep ++ rest) = Some (length p).
Proof.
  induction p as [|x p IH]; intros N.
  - simpl. destruct (sep ++ rest) eqn:E; simpl;
      assert (S : starts_with sep (sep ++ rest) = true)
        by (apply starts_with_spec; eauto);
      rewrite E in S; rewrite S; reflexivity.
  - cbn [app find]. rewrite starts_with_uniform
      by (intros ->; apply N; left; reflexivity).
    rewrite IH; [reflexivity|]. intros H. apply N. right; assumption.
Qed.

Lemma split_from_join_uniform (parts : list str) :
  forall (p : str) (fuel : nat),
    (forall q, In q (p :: parts) -> ~ In c q) ->
    length (join sep (p :: parts)) <= fuel ->
    split_from fuel sep (join sep (p :: parts)) = p :: parts.
Proof.
  induction parts as [|p' parts IH]; intros p fuel N L.
  - cbn [join]. assert (F : find sep p = None).
    { apply find_uniform_none. apply N. left; reflexivity. }
    destruct fuel; cbn [split_from]; rewrite ?F; reflexivity.
  - rewrite join_cons in * by discriminate.
    assert (F : find sep (p ++ sep ++ join sep (p' :: parts)) = Some (length p)).
    { apply find_uniform_first. apply N. left; reflexivity. }
    rewrite !length_app in L.
    assert (0 < length sep) by (destruct sep; [congruence|simpl; lia]).
    destruct fuel as [|fuel]; [lia|].
    cbn [split_from]. rewrite F.
    rewrite firstn_app_length.
    replace (length p + length sep) with (length (p ++ sep))
      by (rewrite length_app; reflexivity).
    rewrite app_assoc, skipn_app_length.
    rewrite IH; [reflexivity| |lia].
    intros q H'. apply N. right; assumption.
Qed.

(** [sep.join(parts).split(sep)] is [parts] when no part holds the
    character of the separator. *)
Lemma split_join_uniform (p : str) (parts : list str) :
  (forall q, In q (p :: parts) -> ~ In c q) ->
  split sep (join sep (p :: parts)) = p :: parts.
Proof.
  intros N. unfold split. apply split_from_join_uniform; auto.
Qed.

End RepeatedSeparator.

(** ** Class names and namespaces *)

Lemma get_class_name_eq (class_string : str) :
  get_class_name class_string = last (split (py ".") class_string) [].
Proof.
  unfold get_class_name.
  destruct (split (py ".") class_string) as [|p parts] eqn:E; [|reflexivity].
  exfalso. exact (split_from_nonempty _ _ _ E).
Qed.

(** X1. [get_class_name] returns what follows the last dot: the result has
    no dot, the text before it is empty or ends with a dot, and a name
    without dot comes back from any module path put in front of it. *)
Theorem get_class_name_last_component (class_string : str) :
  (exists before,
     class_string = before ++ get_class_name class_string /\
     (before = [] \/ exists b, before = b ++ py ".")) /\
  ~ In "."%char (get_class_name class_string) /\
  (forall module_path name,
     class_string = module_path ++ py "." ++ name ->
     ~ In "."%char name ->
     get_class_name class_string = name) /\
  (~ In "."%char class_string -> get_class_name class_string = class_string).
Proof.
  rewrite get_class_name_eq.
  destruct (split_char_last "."%char class_string) as (before & E & B & F).
  repeat split.
  - exists before. split; assumption.
  - exact F.
  - intros module_path name -> N. apply (split_char_last_app _ module_path name N).
  - apply split_char_last_free.
Qed.

Lemma get_class_name_witness :
  get_class_name (py "module.submodule.ClassName") = py "ClassName" /\
  get_class_name (py "ClassName") = py "ClassName".
Proof.
  split.
  - apply (proj1 (proj2 (proj2 (get_class_name_last_component
                                  (py "module.submodule.ClassName"))))
             (py "module.submodule") (py "ClassName")).
    + reflexivity.
    + intros H. cbv in H. intuition discriminate.
  - apply (proj2 (proj2 (proj2 (get_class_name_last_component (py "ClassName"))))).
    intros H. cbv in H. intuition discriminate.
Defined.

Lemma last_snoc (A : Type) (l : list A) (x d : A) : last (l ++ [x]) d = x.
Proof.
  induction l as [|y l IH]; [reflexivity|].
  simpl. destruct (l ++ [x]) eqn:E; [|exact IH].
  destruct l; discriminate.
Qed.

(** X2. [any_to_name] undoes [concat_namespace]: of two components or more,
    none of which holds a colon, it returns the last one. *)
Theorem any_to_name_concat_namespace (first : str) (middle : list str)
  (name : str) :
  (forall q, In q (first :: middle ++ [name]) -> ~ In ":"%char q) ->
  any_to_name (concat_namespace (first :: middle ++ [name])) = name.
Proof.
  intros N. unfold any_to_name, concat_namespace, any_to_str. cbv zeta.
  assert (C : contains (py "::") (join (py "::") (first :: middle ++ [name])) = true).
  { apply contains_spec. rewrite join_cons by (destruct middle; discriminate).
    exists first. eexists. reflexivity. }
  rewrite C.
  rewrite (@split_join_uniform ":"%char (py "::")); auto.
  - change (first :: middle ++ [name]) with ((first :: middle) ++ [name]).
    apply last_snoc.
  - discriminate.
  - intros x [<-|[<-|[]]]; reflexivity.
Qed.

Lemma any_to_name_concat_namespace_witness :
  any_to_name (concat_namespace [py "metagpt"; py "utils.common"; py "Parser.run"]) =
  py "Parser.run".
Proof.
  apply (any_to_name_concat_namespace (py "metagpt") [py "utils.common"]
           (py "Parser.run")).
  intros q [<-|[<-|[<-|[]]]] H; cbv in H; intuition discriminate.
Defined.

(** ** Stripping characters *)




Lemma lstrip_chars_no_lead (chars t : str) :
  no_lead_of chars t = true -> lstrip_chars chars t = t.
Proof.
  destruct t as [|c t]; simpl; auto.
  destruct (existsb (Ascii.eqb c) chars); [discriminate|reflexivity].
Qed.









Lemma lstrip_spaces_app (ws t : str) :
  forallb is_space ws = true -> lstrip (ws ++ t) = lstrip t.
Proof.
  induction ws as [|c ws IH]; simpl; auto.
  intros H. apply andb_true_iff in H. destruct H as [C H].
  rewrite C. apply IH. exact H.
Qed.

Lemma is_space_dq : is_space dq = false.
Proof. reflexivity. Qed.

Lemma rstrip_no_trail (t : str) : no_lead (rev t) = true -> rstrip t = t.
Proof.
  intros H. unfold rstrip. rewrite lstrip_no_lead by exact H.
  apply rev_involutive.
Qed.

Lemma rstrip_chars_no_trail (chars t : str) :
  no_lead_of chars (rev t) = true -> rstrip_chars chars t = t.
Proof.
  intros H. unfold rstrip_chars. rewrite lstrip_chars_no_lead by exact H.
  apply rev_involutive.
Qed.

Lemma rev_quoted (value : str) :
  rev (dq :: value ++ [dq]) = dq :: rev (dq :: value).
Proof.
  change (dq :: value ++ [dq]) with ((dq :: value) ++ [dq]).
  rewrite rev_app_distr. reflexivity.
Qed.

(** X4. [parse_str] on an assignment of a quoted value: the value. *)
Theorem parse_str_quoted_value (name ws value : str) :
  forallb is_space ws = true ->
  ~ In "="%char value ->
  hd_error value <> Some dq ->
  last_char value <> Some dq ->
  OutputParser.parse_str (name ++ py "=" ++ ws ++ dq :: value ++ [dq]) = value.
Proof.
  intros W N H L. unfold OutputParser.parse_str. cbv zeta.
  change (py "=" ++ ws ++ dq :: value ++ [dq])
    with ("="%char :: (ws ++ dq :: value ++ [dq])).
  assert (NE : ~ In "="%char (ws ++ dq :: value ++ [dq])).
  { intros I. apply in_app_or in I. destruct I as [I|[I|I]].
    - rewrite forallb_forall in W. specialize (W _ I). discriminate W.
    - discriminate I.
    - apply in_app_or in I. destruct I as [I|[I|[]]]; [auto|discriminate I]. }
  change (split (py "=")) with (split ["="%char]).
  rewrite (split_char_last_app _ name _ NE).
  assert (S : strip (ws ++ dq :: value ++ [dq]) = dq :: value ++ [dq]).
  { unfold strip. rewrite lstrip_spaces_app by exact W.
    rewrite (lstrip_no_lead (dq :: value ++ [dq])) by reflexivity.
    apply rstrip_no_trail. rewrite rev_quoted. reflexivity. }
  rewrite S.
  assert (Q : strip_chars (py "'") (dq :: value ++ [dq]) = dq :: value ++ [dq]).
  { unfold strip_chars.
    rewrite (lstrip_chars_no_lead (py "'") (dq :: value ++ [dq])) by reflexivity.
    apply rstrip_chars_no_trail. rewrite rev_quoted. reflexivity. }
  rewrite Q. unfold strip_chars.
  assert (A : lstrip_chars [dq] (dq :: value ++ [dq]) =
              lstrip_chars [dq] (value ++ [dq])).
  { cbn [lstrip_chars existsb]. rewrite Ascii.eqb_refl. reflexivity. }
  rewrite A. clear A.
  destruct value as [|v value].
  - reflexivity.
  - assert (V : Ascii.eqb v dq = false).
    { apply Ascii.eqb_neq. intros ->. apply H. reflexivity. }
    assert (B : lstrip_chars [dq] ((v :: value) ++ [dq]) = (v :: value) ++ [dq]).
    { cbn [app lstrip_chars existsb]. rewrite V. reflexivity. }
    rewrite B. unfold rstrip_chars. rewrite rev_app_distr.
    change (rev [dq] ++ rev (v :: value)) with (dq :: rev (v :: value)).
    assert (C : lstrip_chars [dq] (dq :: rev (v :: value)) =
                lstrip_chars [dq] (rev (v :: value))).
    { cbn [lstrip_chars existsb]. rewrite Ascii.eqb_refl. reflexivity. }
    rewrite C. rewrite lstrip_chars_no_lead; [apply rev_involutive|].
    unfold last_char in L. destruct (rev (v :: value)) as [|x r]; [reflexivity|].
    cbn [no_lead_of existsb]. destruct (Ascii.eqb x dq) eqn:E; [|reflexivity].
    apply Ascii.eqb_eq in E. subst. exfalso. apply L. reflexivity.
Qed.

Lemma parse_str_quoted_value_witness :
  OutputParser.parse_str (pyq "name = 'the game'") = py "the game".
Proof.
  apply (parse_str_quoted_value (py "name ") (py " ") (py "the game")).
  - reflexivity.
  - intros H. cbv in H. intuition discriminate.
  - discriminate.
  - discriminate.
Defined.

(** ** The list pattern on a text without [=] *)

Lemma star_greedy_ext (A : Type) (p : ascii -> bool) (t : str)
  (k k' : str -> option A) :
  (forall u v, t = u ++ v -> k v = k' v) ->
  star_greedy p t k = star_greedy p t k'.
Proof.
  revert k k'. induction t as [|c t IH]; intros k k' H; simpl.
  - apply (H [] []). reflexivity.
  - assert (E : k (c :: t) = k' (c :: t)) by (apply (H [] (c :: t)); reflexivity).
    rewrite E. destruct (p c); [|reflexivity].
    rewrite (IH k k'); [reflexivity|].
    intros u v ->. apply (H (c :: u) v). reflexivity.
Qed.

(** White space read greedily before something that cannot begin with
    white space: all of it is read. *)
Lemma star_greedy_lstrip (A : Type) (t : str) (k : str -> option A) :
  (forall c t', is_space c = true -> k (c :: t') = None) ->
  star_greedy is_space t k = k (lstrip t).
Proof.
  intros H. induction t as [|c t IH]; simpl; [reflexivity|].
  destruct (is_space c) eqn:S; [|reflexivity].
  rewrite IH. destruct (k (lstrip t)); [reflexivity|]. apply H. exact S.
Qed.

Lemma rfind_some (s t : str) (j : nat) :
  rfind s t = Some j -> j <= length t /\ starts_with s (skipn j t) = true.
Proof.
  revert j; induction t as [|c t IH]; intros j; simpl.
  - destruct (starts_with s []) eqn:E; [|discriminate].
    intros H; inversion H; subst. simpl. auto.
  - destruct (rfind s t) as [i|] eqn:R.
    + intros H; inversion H; subst. destruct (IH i eq_refl) as [L S].
      simpl. split; [lia|exact S].
    + destruct (starts_with s (c :: t)) eqn:E; [|discriminate].
      intros H; inversion H; subst. simpl. split; [lia|exact E].
Qed.

(** A greedy star over any character, followed by a literal, stops at the
    last occurrence of the literal. *)
Lemma star_greedy_last (A : Type) (s t : str) (g : str -> A) :
  star_greedy any_char t
    (fun t' => match strip_prefix s t' with
               | Some t'' => Some (g t'')
               | None => None
               end) =
  match rfind s t with
  | Some j => Some (g (skipn (j + length s) t))
  | None => None
  end.
Proof.
  induction t as [|c t IH]; simpl.
  - rewrite starts_with_strip_prefix.
    destruct (strip_prefix s []) as [r|] eqn:P; [|reflexivity].
    apply strip_prefix_spec in P. destruct s; [|discriminate].
    simpl in P. subst. reflexivity.
  - rewrite IH. destruct (rfind s t) as [j|]; [reflexivity|].
    rewrite starts_with_strip_prefix.
    destruct (strip_prefix s (c :: t)) as [r|] eqn:P; [|reflexivity].
    apply strip_prefix_spec in P. cbn [Nat.add]. rewrite P.
    rewrite skipn_app_length. reflexivity.
Qed.

Lemma assignment_group_fails (A : Type) (t : str) (caps : captures)
  (k : str -> captures -> option A) :
  ~ In "="%char t ->
  run (Grp 1 (seq [StarGreedy any_char; Str (py "="); StarGreedy any_char]))
    t caps k = None.
Proof.
  intros N.
  destruct (run _ t caps k) as [a|] eqn:R; [|reflexivity].
  exfalso. apply run_sound in R. destruct R as (u & v & caps' & -> & M & _).
  cbn [seq] in M. inv_matches. apply N.
  apply in_or_app. left. apply in_or_app. right. left. reflexivity.
Qed.

(** The match of the list pattern at the head of a text without [=]. *)
Lemma file_list_match_here (t : str) :
  ~ In "="%char t ->
  match_here OutputParser.file_list_pattern t =
  match lstrip t with
  | c :: rest =>
      if Ascii.eqb "[" c then
        match rfind (py "]") rest with
        | Some j => Some [(2, c :: firstn (j + 1) rest)]
        | None => None
        end
      else None
  | [] => None
  end.
Proof.
  intros N. unfold match_here, OutputParser.file_list_pattern.
  cbn [seq].
  match goal with
  | |- context [Opt ?g] => remember g as G1 eqn:HG1
  end.
  cbn [run].
  set (k' := fun t1 : str =>
               match t1 with
               | c :: rest =>
                   if Ascii.eqb "[" c then
                     match rfind (py "]") rest with
                     | Some j => Some [(2, c :: firstn (j + 1) rest)]
                     | None => None
                     end
                   else None
               | [] => None
               end).
  change (match lstrip t with
          | [] => None
          | c :: rest => _
          end) with (k' (lstrip t)).
  rewrite <- (star_greedy_lstrip _ t k').
  - apply star_greedy_ext. intros u v ->.
    assert (X : forall k0, run G1 v [] k0 = None (A:=captures)).
    { intros k0. subst G1. apply (assignment_group_fails captures).
      intros H. apply N. apply in_or_app. right. exact H. }
    rewrite X.
    subst k'. cbv beta.
    destruct v as [|c rest]; [reflexivity|].
    change (strip_prefix (py "[") (c :: rest))
      with (if Ascii.eqb "[" c then Some rest else None).
    destruct (Ascii.eqb "[" c) eqn:E; [|reflexivity].
    rewrite star_greedy_last.
    destruct (rfind (py "]") rest) as [j|] eqn:R; [|reflexivity].
    destruct (rfind_some _ _ _ R) as [L Sp].
    apply starts_with_spec in Sp. destruct Sp as [r Sp].
    assert (L' : j + 1 <= length rest).
    { rewrite <- (firstn_skipn j rest), Sp, !length_app, length_firstn. simpl. lia. }
    change (length (py "]")) with 1.
    unfold consumed. cbn [length]. rewrite length_skipn.
    replace (S (length rest) - (length rest - (j + 1))) with (S (j + 1)) by lia.
    reflexivity.
  - intros c t' Sc. subst k'. cbv beta iota.
    destruct (Ascii.eqb "[" c) eqn:E; [|reflexivity].
    apply Ascii.eqb_eq in E. subst c. discriminate Sc.
Qed.

Lemma bracket_span_cons (c : ascii) (t : str) :
  c <> "["%char -> bracket_span (c :: t) = bracket_span t.
Proof.
  intros N. unfold bracket_span. cbn [find rfind py String.list_ascii_of_string starts_with].
  assert (E : Ascii.eqb "[" c = false).
  { apply Ascii.eqb_neq. congruence. }
  rewrite E. cbn [andb].
  destruct (find ["["%char] t) as [i|] eqn:F; cbn [option_map].
  - destruct (rfind ["]"%char] t) as [j|] eqn:R.
    + change (Nat.ltb (S i) (S j)) with (Nat.ltb i j).
      destruct (Nat.ltb i j); reflexivity.
    + destruct (Ascii.eqb "]" c); reflexivity.
  - destruct (rfind ["]"%char] t); [reflexivity|].
    destruct (Ascii.eqb "]" c); reflexivity.
Qed.

(** On a text without [=], the list pattern finds the text from the first
    opening square bracket to the last closing one. *)
Lemma file_list_search (t : str) :
  ~ In "="%char t ->
  search OutputParser.file_list_pattern t =
  option_map (fun g => [(2, g)]) (bracket_span t).
Proof.
  induction t as [|c t IH]; intros N.
  - reflexivity.
  - assert (Nt : ~ In "="%char t) by (intros H; apply N; right; exact H).
    specialize (IH Nt).
    cbn [search]. rewrite (file_list_match_here (c :: t) N).
    destruct (Ascii.eqb "[" c) eqn:B.
    + apply Ascii.eqb_eq in B. subst c.
      cbn [lstrip]. change (is_space "[") with false. cbv iota.
      rewrite Ascii.eqb_refl.
      unfold bracket_span.
      cbn [find rfind py String.list_ascii_of_string starts_with].
      rewrite Ascii.eqb_refl. cbn [andb].
      change (rfind (py "]") t) with (rfind ["]"%char] t).
      destruct (rfind ["]"%char] t) as [j|] eqn:R.
      * reflexivity.
      * change (Ascii.eqb "]" "[") with false. cbn [andb].
        rewrite IH. unfold bracket_span.
        change (rfind (py "]") t) with (rfind ["]"%char] t). rewrite R.
        destruct (find (py "[") t); reflexivity.
    + assert (NB : c <> "["%char).
      { intros ->. rewrite Ascii.eqb_refl in B. discriminate. }
      rewrite (bracket_span_cons c t NB), <- IH.
      destruct (is_space c) eqn:Sc.
      * cbn [lstrip]. rewrite Sc.
        rewrite <- (file_list_match_here t Nt).
        destruct t as [|c' t']; cbn [search];
          destruct (match_here OutputParser.file_list_pattern _); reflexivity.
      * cbn [lstrip]. rewrite Sc, B. reflexivity.
Qed.

(** X5. On a text without [=], [parse_file_list] evaluates the text from the
    first opening square bracket to the last closing one, which is the span
    [extract_struct] cuts for a list, and returns the lines of the text when
    there is no such span. *)
Theorem parse_file_list_bracket_span (literal_eval : str -> result pyval)
  (text : str) :
  ~ In "="%char text ->
  OutputParser.parse_file_list literal_eval text =
  match bracket_span text with
  | Some span => literal_eval span
  | None => Ok (VList (map VStr (split [nl] text)))
  end.
Proof.
  intros N. unfold OutputParser.parse_file_list.
  rewrite (file_list_search text N).
  destruct (bracket_span text); reflexivity.
Qed.

Lemma parse_file_list_bracket_span_witness :
  OutputParser.parse_file_list Literal.literal_eval
    (pyq "Files: ['main.py', 'game.py'] and [] more") =
  Literal.literal_eval (pyq "['main.py', 'game.py'] and []").
Proof.
  apply (parse_file_list_bracket_span Literal.literal_eval
           (pyq "Files: ['main.py', 'game.py'] and [] more")).
  intros H. cbv in H. intuition discriminate.
Defined.



(** ** The list pattern on a text with an assignment *)

Lemma search_here (r : regex) (t : str) (caps : captures) :
  match_here r t = Some caps -> search r t = Some caps.
Proof. intros H. destruct t; cbn [search]; rewrite H; reflexivity. Qed.

Lemma star_greedy_none (A : Type) (p : ascii -> bool) (t : str)
  (k : str -> option A) :
  (forall u v, t = u ++ v -> k v = None) -> star_greedy p t k = None.
Proof.
  induction t as [|c t IH]; intros H; cbn [star_greedy].
  - apply (H [] []). reflexivity.
  - assert (E : k (c :: t) = None) by (apply (H [] (c :: t)); reflexivity).
    rewrite E, IH; [destruct (p c); reflexivity|].
    intros u v ->. apply (H (c :: u) v). reflexivity.
Qed.

(** A greedy run over any character stops at the last place from which the
    rest can be read. *)
Lemma star_greedy_any_last (A : Type) (u v : str) (k : str -> option A) :
  k v <> None ->
  (forall u' v', u ++ v = u' ++ v' -> length u < length u' -> k v' = None) ->
  star_greedy any_char (u ++ v) k = k v.
Proof.
  intros K. induction u as [|c u IH]; intros H.
  - cbn [app]. destruct v as [|c v]; cbn [star_greedy any_char];
      [reflexivity|].
    rewrite star_greedy_none; [reflexivity|].
    intros u0 v0 E. apply (H (c :: u0) v0).
    + cbn [app]. rewrite E. reflexivity.
    + cbn [length]. lia.
  - cbn [app star_greedy any_char]. rewrite IH.
    + destruct (k v); [reflexivity|congruence].
    + intros u' v' E L. apply (H (c :: u') v').
      * cbn [app]. rewrite E. reflexivity.
      * cbn [length]. lia.
Qed.

(** The group of the list: an opening square bracket, and the text up to
    the last closing one. *)
Lemma list_group (t : str) (caps : captures) :
  run (Grp 2 (seq [Str (py "["); StarGreedy any_char; Str (py "]")])) t caps
    (fun _ caps' => Some caps') =
  match t with
  | c :: rest =>
      if Ascii.eqb "[" c then
        match rfind (py "]") rest with
        | Some j => Some ((2, c :: firstn (j + 1) rest) :: caps)
        | None => None
        end
      else None
  | [] => None
  end.
Proof.
  cbn [seq run]. destruct t as [|c rest]; [reflexivity|].
  change (strip_prefix (py "[") (c :: rest))
    with (if Ascii.eqb "[" c then Some rest else None).
  destruct (Ascii.eqb "[" c) eqn:E; [|reflexivity].
  rewrite star_greedy_last.
  destruct (rfind (py "]") rest) as [j|] eqn:R; [|reflexivity].
  destruct (rfind_some _ _ _ R) as [L Sp].
  apply starts_with_spec in Sp. destruct Sp as [r Sp].
  assert (L' : j + 1 <= length rest).
  { rewrite <- (firstn_skipn j rest), Sp, !length_app, length_firstn.
    simpl. lia. }
  change (length (py "]")) with 1.
  unfold consumed. cbn [length]. rewrite length_skipn.
  replace (S (length rest) - (length rest - (j + 1))) with (S (j + 1)) by lia.
  reflexivity.
Qed.

Lemma rfind_last_char (c : ascii) (before after : str) :
  ~ In c after -> rfind [c] (before ++ c :: after) = Some (length before).
Proof.
  intros N. apply rfind_char. unfold contains.
  rewrite (proj2 (find_char_none c after) N). reflexivity.
Qed.

Lemma list_group_span (inside after : str) (caps : captures) :
  ~ In "]"%char after ->
  run (Grp 2 (seq [Str (py "["); StarGreedy any_char; Str (py "]")]))
    ("["%char :: inside ++ "]"%char :: after) caps
    (fun _ caps' => Some caps') =
  Some ((2, "["%char :: inside ++ ["]"%char]) :: caps).
Proof.
  intros N. rewrite list_group. rewrite Ascii.eqb_refl.
  change (py "]") with ["]"%char]. rewrite (rfind_last_char _ _ _ N).
  replace (length inside + 1) with (length (inside ++ ["]"%char]))
    by (rewrite length_app; reflexivity).
  change (inside ++ "]"%char :: after) with (inside ++ ["]"%char] ++ after).
  rewrite app_assoc, firstn_app_length. reflexivity.
Qed.

(** After the opening bracket of the list no list begins: an opening bracket
    that comes later has no closing one after it. *)
Lemma no_list_after (inside after : str) (caps : captures) :
  ~ In "["%char inside ->
  ~ In "]"%char after ->
  forall l v, inside ++ "]"%char :: after = l ++ v ->
    run (Grp 2 (seq [Str (py "["); StarGreedy any_char; Str (py "]")])) v caps
      (fun _ caps' => Some caps') = None.
Proof.
  intros NI NC l v E. rewrite list_group. destruct v as [|c rest]; [reflexivity|].
  destruct (Ascii.eqb "[" c) eqn:B; [|reflexivity].
  apply Ascii.eqb_eq in B. subst c.
  assert (R : rfind (py "]") rest = None); [|rewrite R; reflexivity].
  apply rfind_none. change (py "]") with ["]"%char]. apply find_char_none.
  intros H. apply app_eq_app in E. destruct E as [l' [[E1 E2]|[E1 E2]]].
  - destruct l' as [|x l'].
    + cbn [app] in E2. discriminate E2.
    + cbn [app] in E2. inversion E2 as [[X E3]]. apply NI. rewrite E1.
      apply in_or_app. right. left. symmetry. exact X.
  - destruct l' as [|x l'].
    + cbn [app] in E2. discriminate E2.
    + cbn [app] in E2. inversion E2 as [[X E3]]. apply NC. rewrite E3.
      apply in_or_app. right. right. exact H.
Qed.

(** After the [=]: the list begins at the last opening bracket that has a
    closing one after it. *)
Lemma after_assignment (t0 m inside after : str) (caps : captures) :
  ~ In "["%char inside ->
  ~ In "]"%char after ->
  star_greedy any_char (m ++ "["%char :: inside ++ "]"%char :: after)
    (fun t3 =>
       run (Grp 2 (seq [Str (py "["); StarGreedy any_char; Str (py "]")]))
         t3 ((1, consumed t0 t3) :: caps) (fun _ caps' => Some caps')) =
  Some ((2, "["%char :: inside ++ ["]"%char]) ::
        (1, consumed t0 ("["%char :: inside ++ "]"%char :: after)) :: caps).
Proof.
  intros NI NC. rewrite star_greedy_any_last.
  - apply list_group_span. exact NC.
  - rewrite list_group_span by exact NC. discriminate.
  - intros u' v' E L.
    apply app_eq_app in E. destruct E as [l [[E1 E2]|[E1 E2]]].
    + apply (f_equal (@length _)) in E1. rewrite length_app in E1. lia.
    + destruct l as [|x l].
      { rewrite app_nil_r in E1. subst u'. lia. }
      cbn [app] in E2. inversion E2 as [[X E3]].
      apply (no_list_after inside after _ NI NC l v' E3).
Qed.

Lemma after_assignment_none (t0 l t2 inside after : str) (caps : captures) :
  ~ In "["%char inside ->
  ~ In "]"%char after ->
  inside ++ "]"%char :: after = l ++ t2 ->
  star_greedy any_char t2
    (fun t3 =>
       run (Grp 2 (seq [Str (py "["); StarGreedy any_char; Str (py "]")]))
         t3 ((1, consumed t0 t3) :: caps) (fun _ caps' => Some caps')) = None.
Proof.
  intros NI NC E. apply star_greedy_none. intros u v Ev.
  apply (no_list_after inside after _ NI NC (l ++ u) v).
  rewrite E, Ev, app_assoc. reflexivity.
Qed.

(** The optional group and the list, on a text with an assignment before
    the last opening bracket. *)
Lemma assignment_and_list (b mid inside after : str) :
  ~ In "["%char inside ->
  ~ In "]"%char after ->
  exists g1,
    run (Cat (Opt (Grp 1 (seq [StarGreedy any_char; Str (py "=");
                               StarGreedy any_char])))
           (Grp 2 (seq [Str (py "["); StarGreedy any_char; Str (py "]")])))
      (b ++ "="%char :: mid ++ "["%char :: inside ++ "]"%char :: after) []
      (fun _ caps => Some caps) =
    Some [(2, "["%char :: inside ++ ["]"%char]); (1, g1)].
Proof.
  intros NI NC.
  set (tail := "["%char :: inside ++ "]"%char :: after).
  set (t := b ++ "="%char :: mid ++ tail).
  set (G2 := Grp 2 (seq [Str (py "["); StarGreedy any_char; Str (py "]")])).
  set (k1 := fun t1 : str =>
               match strip_prefix (py "=") t1 with
               | Some t2 =>
                   star_greedy any_char t2
                     (fun t3 => run G2 t3 [(1, consumed t t3)]
                                  (fun _ caps' => Some caps'))
               | None => None
               end).
  exists (consumed t tail).
  change (run (Cat (Opt (Grp 1 (seq [StarGreedy any_char; Str (py "=");
                                     StarGreedy any_char]))) G2) t []
            (fun _ caps => Some caps))
    with (match star_greedy any_char t k1 with
          | Some a => Some a
          | None => run G2 t [] (fun _ caps => Some caps)
          end).
  assert (K : k1 ("="%char :: mid ++ tail) =
              Some [(2, "["%char :: inside ++ ["]"%char]);
                    (1, consumed t tail)]).
  { unfold k1.
    change (strip_prefix (py "=") ("="%char :: mid ++ tail))
      with (Some (mid ++ tail)).
    apply (after_assignment t mid inside after [] NI NC). }
  destruct (star_greedy any_char t k1) as [a|] eqn:R.
  - apply star_greedy_sound in R. destruct R as (u & v & E & _ & Kv).
    unfold k1 in Kv.
    destruct (strip_prefix (py "=") v) as [t2|] eqn:P; [|discriminate Kv].
    apply strip_prefix_spec in P. subst v.
    rewrite <- Kv.
    unfold t in E.
    change (b ++ "="%char :: mid ++ tail)
      with (b ++ ("="%char :: mid) ++ tail) in E.
    rewrite !app_assoc in E.
    apply app_eq_app in E. destruct E as [l [[E1 E2]|[E1 E2]]].
    + subst t2.
      apply (after_assignment t l inside after [] NI NC).
    + destruct l as [|x l].
      { cbn [app] in E2. subst t2.
        apply (after_assignment t [] inside after [] NI NC). }
      exfalso. unfold tail in E2. cbn [app] in E2.
      inversion E2 as [[X E3]].
      unfold G2 in Kv.
      rewrite (after_assignment_none t l t2 inside after [] NI NC E3) in Kv.
      discriminate Kv.
  - exfalso. revert R. unfold t.
    apply star_greedy_complete; [apply forallb_any_char|].
    rewrite K. discriminate.
Qed.

Lemma is_space_assign : is_space "="%char = false.
Proof. reflexivity. Qed.

Lemma file_list_match_assignment (before mid inside after : str) :
  ~ In "["%char inside ->
  ~ In "]"%char after ->
  exists g1,
    match_here OutputParser.file_list_pattern
      (before ++ "="%char :: mid ++ "["%char :: inside ++ "]"%char :: after) =
    Some [(2, "["%char :: inside ++ ["]"%char]); (1, g1)].
Proof.
  intros NI NC.
  set (rest := "="%char :: mid ++ "["%char :: inside ++ "]"%char :: after).
  set (k0 := fun t0 : str =>
               run (Cat (Opt (Grp 1 (seq [StarGreedy any_char; Str (py "=");
                                          StarGreedy any_char])))
                      (Grp 2 (seq [Str (py "["); StarGreedy any_char;
                                   Str (py "]")])))
                 t0 [] (fun _ caps => Some caps)).
  change (match_here OutputParser.file_list_pattern (before ++ rest))
    with (star_greedy is_space (before ++ rest) k0).
  destruct (star_greedy is_space (before ++ rest) k0) as [a|] eqn:R.
  - apply star_greedy_sound in R. destruct R as (u & v & E & U & Kv).
    symmetry in E. apply app_eq_app in E.
    destruct E as [l [[E1 E2]|[E1 E2]]].
    + destruct l as [|x l].
      * cbn [app] in E2. subst v.
        destruct (assignment_and_list [] mid inside after NI NC)
          as [g1 G].
        exists g1. rewrite <- Kv. exact G.
      * exfalso. unfold rest in E2. cbn [app] in E2.
        inversion E2 as [[X E3]]. subst u.
        rewrite forallb_app in U. apply andb_true_iff in U.
        destruct U as [_ U]. cbn [forallb] in U.
        rewrite <- X, is_space_assign in U. discriminate U.
    + subst v.
      destruct (assignment_and_list l mid inside after NI NC) as [g1 G].
      exists g1. rewrite <- Kv. exact G.
  - exfalso. revert R.
    apply (star_greedy_complete is_space [] (before ++ rest) k0);
      [reflexivity|].
    destruct (assignment_and_list before mid inside after NI NC)
      as [g1 G].
    unfold k0, rest. rewrite G. discriminate.
Qed.

(** X7. On a text with an [=] before the last opening square bracket that
    has a closing one after it, [parse_file_list] evaluates the text from
    this bracket to the last closing one: for [before = mid [ inside ] after]
    with no opening bracket in [inside] and no closing one in [after], this
    is [[ inside ]], whatever [before] and [mid] are.  The text before the
    bracket goes to the optional group of the pattern, and of a list of
    lists only the last inner list is left. *)
Theorem parse_file_list_assignment (literal_eval : str -> result pyval)
  (before mid inside after : str) :
  ~ In "["%char inside ->
  ~ In "]"%char after ->
  OutputParser.parse_file_list literal_eval
    (before ++ py "=" ++ mid ++ py "[" ++ inside ++ py "]" ++ after) =
  literal_eval (py "[" ++ inside ++ py "]").
Proof.
  intros NI NC. unfold OutputParser.parse_file_list.
  destruct (file_list_match_assignment before mid inside after NI NC)
    as [g1 M].
  change (before ++ py "=" ++ mid ++ py "[" ++ inside ++ py "]" ++ after)
    with (before ++ "="%char :: mid ++ "["%char :: inside ++
          "]"%char :: after).
  rewrite (search_here _ _ _ M). reflexivity.
Qed.

Lemma parse_file_list_assignment_witness :
  OutputParser.parse_file_list Literal.literal_eval
    (pyq "files = ['main.py', 'game.py']") =
  Ok (VList [VStr (py "main.py"); VStr (py "game.py")]) /\
  OutputParser.parse_file_list Literal.literal_eval
    (py "files = [[1], [2]]") = Raise SyntaxError /\
  OutputParser.parse_file_list Literal.literal_eval
    (py "[0] x = [1] and [") = Ok (VList [VInt 1]).
Proof.
  split; [|split].
  - apply (parse_file_list_assignment Literal.literal_eval (py "files ")
             (py " ") (pyq "'main.py', 'game.py'") []);
      intros H; cbv in H; intuition discriminate.
  - apply (parse_file_list_assignment Literal.literal_eval (py "files ")
             (py " [[1], ") (py "2]") []);
      intros H; cbv in H; intuition discriminate.
  - apply (parse_file_list_assignment Literal.literal_eval (py "[0] x ")
             (py " ") (py "1") (py " and ["));
      intros H; cbv in H; intuition discriminate.
Defined.

(** ** [parse_data] and [parse_data_with_mapping] *)

(** The dictionary [parse_blocks] returns has each title once. *)
Lemma parse_blocks_nodup (data : str) (d : dict str) :
  OutputParser.parse_blocks data = Ok d -> NoDup (keys d).
Proof.
  unfold OutputParser.parse_blocks. intros H.
  destruct (forallb Spec.has_title_line
              (filter nonblank (split (py "##") data))) eqn:E.
  - rewrite (@op_loop _ [] E) in H. inversion H; subst.
    apply insert_all_nodup. constructor.
  - destruct (@op_loop_raises _ [] E) as [e R]. rewrite R in H. discriminate.
Qed.

Lemma nodup_keys_step (V : Type) (k : str) (acc : dict V) (rest : list str) :
  NoDup (keys acc ++ k :: rest) ->
  ~ In k (keys acc) /\ NoDup ((keys acc ++ [k]) ++ rest).
Proof.
  intros N. split.
  - apply NoDup_remove_2 in N. intros H. apply N. apply in_or_app. left. exact H.
  - rewrite <- app_assoc. exact N.
Qed.

Lemma keys_app (V : Type) (a b : dict V) : keys (a ++ b) = keys a ++ keys b.
Proof. unfold keys. apply map_app. Qed.

(** Over distinct titles the loop of [parse_data] is a [map]. *)
Lemma parse_data_items_map (items acc : dict str) :
  NoDup (keys acc ++ keys items) ->
  OutputParser.parse_data_items items acc =
  (acc ++ map (fun kv => (fst kv, fst (OutputParser.parse_code (snd kv) [])))
            items,
   flat_map (fun kv => snd (OutputParser.parse_code (snd kv) [])) items).
Proof.
  revert acc; induction items as [|[block content] items IH]; intros acc N.
  - cbn [OutputParser.parse_data_items map flat_map]. rewrite app_nil_r.
    reflexivity.
  - cbn [OutputParser.parse_data_items map flat_map fst snd].
    destruct (OutputParser.parse_code content []) as [code logs].
    cbn [fst snd keys map] in *.
    destruct (nodup_keys_step _ _ _ _ N) as [F N'].
    rewrite (@dict_set_fresh _ block code acc F).
    rewrite IH by (rewrite keys_app; exact N').
    rewrite <- app_assoc. reflexivity.
Qed.

Lemma dict_get_map (V W : Type) (f : str -> V -> W) (k : str) (d : dict V) :
  dict_get k (map (fun kv => (fst kv, f (fst kv) (snd kv))) d) =
  match dict_get k d with
  | Some v => Some (f k v)
  | None => None
  end.
Proof.
  induction d as [|[k' v] d IH]; [reflexivity|].
  cbn [map dict_get fst snd].
  destruct (str_eqb k' k) eqn:E; [|exact IH].
  apply str_eqb_eq in E. subst. reflexivity.
Qed.

Lemma dict_get_in (V : Type) (k : str) (v : V) (d : dict V) :
  dict_get k d = Some v -> In (k, v) d.
Proof.
  induction d as [|[k' v'] d IH]; [discriminate|].
  cbn [dict_get]. destruct (str_eqb k' k) eqn:E.
  - apply str_eqb_eq in E. subst. intros H; inversion H; subst. left; reflexivity.
  - intros H. right. apply IH. exact H.
Qed.

(** X8. [parse_data] keeps the titles of [parse_blocks] in their order and
    replaces every body by what the lenient [parse_code] makes of it: the
    code of its first fence, and the empty string, with a log entry, for a
    body without a fence. *)
Theorem parse_data_sections (data : str) (d : dict str) :
  OutputParser.parse_blocks data = Ok d ->
  OutputParser.parse_data data =
  (Ok (map (fun kv => (fst kv, fst (OutputParser.parse_code (snd kv) []))) d),
   flat_map (fun kv => snd (OutputParser.parse_code (snd kv) [])) d) /\
  (forall title body,
     dict_get title d = Some body ->
     ~ Spec.fenced [] body ->
     exists d' logs,
       OutputParser.parse_data data = (Ok d', logs) /\
       keys d' = keys d /\
       dict_get title d' = Some [] /\
       In (NoCodeBlockFound []) logs).
Proof.
  intros P.
  assert (E : OutputParser.parse_data data =
    (Ok (map (fun kv => (fst kv, fst (OutputParser.parse_code (snd kv) []))) d),
     flat_map (fun kv => snd (OutputParser.parse_code (snd kv) [])) d)).
  { unfold OutputParser.parse_data. rewrite P.
    rewrite parse_data_items_map by (apply (parse_blocks_nodup data); exact P).
    reflexivity. }
  split; [exact E|].
  intros title body G N.
  assert (C : OutputParser.parse_code body [] = ([], [NoCodeBlockFound []])).
  { unfold OutputParser.parse_code.
    rewrite (proj2 (lenient_search_none [] body) N). reflexivity. }
  eexists; eexists. split; [exact E|]. split; [|split].
  - unfold keys. rewrite map_map. reflexivity.
  - rewrite (dict_get_map _ _ (fun _ v => fst (OutputParser.parse_code v [])) title d).
    rewrite G, C. reflexivity.
  - apply in_flat_map. exists (title, body). split.
    + apply (dict_get_in _ title body d G).
    + cbn [snd]. rewrite C. left; reflexivity.
Qed.

Lemma parse_data_sections_witness :
  OutputParser.parse_data
    (join_lines ["## Plan"; "write the game"; "## Code"; "```python";
                 "print(1)"; "```"]) =
  (Ok [(py "Plan", []); (py "Code", join_lines ["print(1)"; ""])],
   [NoCodeBlockFound []]).
Proof.
  apply (parse_data_sections
           (join_lines ["## Plan"; "write the game"; "## Code"; "```python";
                        "print(1)"; "```"])
           [(py "Plan", py "write the game");
            (py "Code", join_lines ["```python"; "print(1)"; "```"])]).
  reflexivity.
Defined.

(** Over distinct titles the loop of [parse_data_with_mapping] is a [map]. *)
Lemma parse_data_loop_map (literal_eval : str -> result pyval)
  (mapping : dict typing_define) (items : dict str) (acc : dict pyval) :
  NoDup (keys acc ++ keys items) ->
  OutputParser.parse_data_loop literal_eval items mapping acc =
  (acc ++
   map (fun kv =>
          (fst kv,
           fst (OutputParser.parse_field literal_eval (snd kv)
                  (dict_get (fst kv) mapping)))) items,
   flat_map (fun kv =>
               snd (OutputParser.parse_field literal_eval (snd kv)
                      (dict_get (fst kv) mapping))) items).
Proof.
  revert acc; induction items as [|[block content] items IH]; intros acc N.
  - cbn [OutputParser.parse_data_loop map flat_map]. rewrite app_nil_r.
    reflexivity.
  - cbn [OutputParser.parse_data_loop map flat_map fst snd].
    destruct (OutputParser.parse_field literal_eval content
                (dict_get block mapping)) as [v logs].
    cbn [fst snd keys map] in *.
    destruct (nodup_keys_step _ _ _ _ N) as [F N'].
    rewrite (@dict_set_fresh _ block v acc F).
    rewrite IH by (rewrite keys_app; exact N').
    rewrite <- app_assoc. reflexivity.
Qed.

(** X9. When the text between the [CONTENT] markers (the whole text when
    there is no opening marker) splits into sections,
    [parse_data_with_mapping] returns, whatever [ast.literal_eval] does on
    the fields: a dictionary with the titles of [parse_blocks] in their
    order, each with the value its declared type gives it. *)
Theorem parse_data_with_mapping_fields (literal_eval : str -> result pyval)
  (data content : str) (mapping : dict typing_define) (d : dict str) :
  (if contains (py "[CONTENT]") data
   then OutputParser.extract_content data (py "CONTENT")
   else Ok data) = Ok content ->
  OutputParser.parse_blocks content = Ok d ->
  OutputParser.parse_data_with_mapping literal_eval data mapping =
  (Ok (map (fun kv =>
              (fst kv,
               fst (OutputParser.parse_field literal_eval (snd kv)
                      (dict_get (fst kv) mapping)))) d),
   flat_map (fun kv =>
               snd (OutputParser.parse_field literal_eval (snd kv)
                      (dict_get (fst kv) mapping))) d).
Proof.
  intros C P. unfold OutputParser.parse_data_with_mapping.
  rewrite C. cbn [bind]. rewrite P.
  rewrite parse_data_loop_map by (apply (parse_blocks_nodup content); exact P).
  reflexivity.
Qed.


Lemma parse_data_with_mapping_fields_witness :
  OutputParser.parse_data_with_mapping Literal.literal_eval
    (join_lines ["[CONTENT]"; "## Files"; "```python"; "[1, 2 or [3]"; "```";
                 "## Note:"; "```"; "[1, 2]"; "```"; "[/CONTENT]"])
    [(py "Files", TupleOf ListStr)] =
  (Ok [(py "Files", VStr (join_lines ["[1, 2 or [3]"; ""]));
       (py "Note", VStr (join_lines ["[1, 2]"; ""]))], []).
Proof.
  apply (parse_data_with_mapping_fields Literal.literal_eval
           (join_lines ["[CONTENT]"; "## Files"; "```python"; "[1, 2 or [3]";
                        "```"; "## Note:"; "```"; "[1, 2]"; "```";
                        "[/CONTENT]"])
           (join_lines ["## Files"; "```python"; "[1, 2 or [3]"; "```";
                        "## Note:"; "```"; "[1, 2]"; "```"])
           [(py "Files", TupleOf ListStr)]
           [(py "Files", join_lines ["```python"; "[1, 2 or [3]"; "```"]);
            (py "Note", join_lines ["```"; "[1, 2]"; "```"])]);
    reflexivity.
Defined.

(** X10. An opening [CONTENT] marker without a closing one after it makes
    [parse_data_with_mapping] raise [ValueError]. *)
Theorem parse_data_with_mapping_unclosed (literal_eval : str -> result pyval)
  (data : str) (mapping : dict typing_define) :
  contains (py "[CONTENT]") data = true ->
  ~ Spec.occurs (py "[/CONTENT]") data ->
  OutputParser.parse_data_with_mapping literal_eval data mapping =
  (Raise ValueError, []).
Proof.
  intros C N. unfold OutputParser.parse_data_with_mapping.
  rewrite C. unfold OutputParser.extract_content.
  rewrite content_search.
  destruct (find (py "[" ++ py "CONTENT" ++ py "]") data) as [i|];
    [|reflexivity].
  cbv zeta.
  rewrite (@find_none_skipn (py "[/" ++ py "CONTENT" ++ py "]") data _);
    [reflexivity|].
  apply find_none_iff. exact N.
Qed.

Lemma parse_data_with_mapping_unclosed_witness :
  OutputParser.parse_data_with_mapping Literal.literal_eval
    (join_lines ["[CONTENT]"; "## Files"; "a.py"]) [] =
  (Raise ValueError, []).
Proof.
  apply (parse_data_with_mapping_unclosed Literal.literal_eval
           (join_lines ["[CONTENT]"; "## Files"; "a.py"]) []).
  - reflexivity.
  - apply find_none_iff. reflexivity.
Defined.

(** ** The code of a fence *)

(** A greedy run of white space takes all of it when what follows can be
    read from there. *)
Lemma star_greedy_lstrip_some (A : Type) (t : str) (k : str -> option A) :
  k (lstrip t) <> None -> star_greedy is_space t k = k (lstrip t).
Proof.
  intros H. induction t as [|c t IH]; cbn [star_greedy lstrip] in *;
    [reflexivity|].
  destruct (is_space c); [|reflexivity].
  rewrite (IH H). destruct (k (lstrip t)); [reflexivity|congruence].
Qed.

(** A lazy run steps over the characters at which the rest cannot be
    read. *)
Lemma star_lazy_skip (A : Type) (u v : str) (k : str -> option A) :
  (forall c rest, In c u -> k (c :: rest) = None) ->
  star_lazy any_char (u ++ v) k = star_lazy any_char v k.
Proof.
  induction u as [|c u IH]; intros H; [reflexivity|].
  cbn [app star_lazy]. rewrite (H c (u ++ v)) by (left; reflexivity).
  cbn [any_char]. apply IH. intros c' rest I. apply H. right; exact I.
Qed.

(** The search steps over the characters at which the pattern cannot
    start. *)
Lemma search_skip (r : regex) (pre t : str) :
  (forall c rest, In c pre -> match_here r (c :: rest) = None) ->
  search r (pre ++ t) = search r t.
Proof.
  induction pre as [|c pre IH]; intros H; [reflexivity|].
  cbn [app search]. rewrite (H c (pre ++ t)) by (left; reflexivity).
  apply IH. intros c' rest I. apply H. right; exact I.
Qed.

Lemma strip_prefix_fence_other (c : ascii) (rest : str) :
  c <> "`"%char -> strip_prefix fence (c :: rest) = None.
Proof.
  intros N.
  change (strip_prefix fence (c :: rest))
    with (if Ascii.eqb "`" c then strip_prefix (py "``") rest else None).
  destruct (Ascii.eqb "`" c) eqn:E; [|reflexivity].
  apply Ascii.eqb_eq in E. congruence.
Qed.

(** The group and the closing fence: the group is the text before the
    first fence. *)
Lemma code_group (t : str) (caps : captures) :
  run (Cat (Grp 1 (StarLazy any_char)) (Str fence)) t caps
    (fun _ caps' => Some caps') =
  match find fence t with
  | Some j => Some ((1, firstn j t) :: caps)
  | None => None
  end.
Proof.
  cbn [run].
  rewrite star_lazy_first.
  destruct (find fence t) as [j|] eqn:F; [|reflexivity].
  destruct (find_some _ _ F) as [L _].
  rewrite (consumed_skipn t L). reflexivity.
Qed.

Lemma in_lstrip (t : str) (x : ascii) : In x (lstrip t) -> In x t.
Proof.
  destruct (lstrip_suffix t) as [a [E _]]. intros H.
  rewrite E. apply in_or_app. right; exact H.
Qed.

Lemma lstrip_app_no_lead (t u : str) :
  no_lead u = true -> u <> [] -> lstrip (t ++ u) = lstrip t ++ u.
Proof.
  intros N NE. induction t as [|c t IH]; cbn [app lstrip].
  - apply lstrip_no_lead. exact N.
  - destruct (is_space c); [exact IH|reflexivity].
Qed.

Lemma find_fence_first (p rest : str) :
  ~ In "`"%char p -> find fence (p ++ fence ++ rest) = Some (length p).
Proof.
  apply (find_uniform_first "`"%char fence).
  - discriminate.
  - intros x [<-|[<-|[<-|[]]]]; reflexivity.
Qed.

(** White space, the code and the closing fence, read after the opening
    fence and its tag. *)
Lemma code_after_tag (w : ascii) (code post : str) (caps : captures) :
  is_space w = true ->
  ~ In "`"%char code ->
  run (seq [spaces1; Grp 1 (StarLazy any_char); Str fence])
    (w :: code ++ fence ++ post) caps (fun _ caps' => Some caps') =
  Some ((1, lstrip code) :: caps).
Proof.
  intros W N. cbn [seq]. unfold spaces1.
  change (run (Cat (Cat (Cls is_space) (StarGreedy is_space))
                 (Cat (Grp 1 (StarLazy any_char)) (Str fence)))
            (w :: code ++ fence ++ post) caps (fun _ caps' => Some caps'))
    with (if is_space w
          then star_greedy is_space (code ++ fence ++ post)
                 (fun t' => run (Cat (Grp 1 (StarLazy any_char)) (Str fence))
                              t' caps (fun _ caps' => Some caps'))
          else None).
  rewrite W.
  assert (E : lstrip (code ++ fence ++ post) = lstrip code ++ fence ++ post).
  { apply lstrip_app_no_lead; [reflexivity|discriminate]. }
  assert (K : run (Cat (Grp 1 (StarLazy any_char)) (Str fence))
                (lstrip (code ++ fence ++ post)) caps
                (fun _ caps' => Some caps') =
              Some ((1, lstrip code) :: caps)).
  { rewrite code_group, E.
    rewrite find_fence_first by (intros H; apply N; apply in_lstrip; exact H).
    rewrite firstn_app_length. reflexivity. }
  rewrite star_greedy_lstrip_some; [exact K|].
  rewrite K. discriminate.
Qed.

Lemma strict_match_fence (lang code post : str) (w : ascii) :
  is_space w = true ->
  ~ In "`"%char code ->
  match_here (CodeParser.code_pattern lang)
    (fence ++ lang ++ w :: code ++ fence ++ post) =
  Some [(1, lstrip code)].
Proof.
  intros W N. unfold match_here, CodeParser.code_pattern.
  change (seq [Str fence; Str lang; spaces1; Grp 1 (StarLazy any_char);
               Str fence])
    with (Cat (Str fence)
            (Cat (Str lang)
               (seq [spaces1; Grp 1 (StarLazy any_char); Str fence]))).
  cbn [run]. rewrite !strip_prefix_app.
  apply code_after_tag; assumption.
Qed.

Lemma strict_fence_code (pre lang code post : str) (w : ascii) :
  ~ In "`"%char pre ->
  is_space w = true ->
  ~ In "`"%char code ->
  CodeParser.parse_code []
    (pre ++ fence ++ lang ++ w :: code ++ fence ++ post) lang =
  (lstrip code, []).
Proof.
  intros P W N. unfold CodeParser.parse_code.
  rewrite search_skip.
  - assert (M := strict_match_fence lang code post w W N).
    destruct (fence ++ lang ++ w :: code ++ fence ++ post) as [|x t] eqn:E;
      [discriminate E|].
    cbn [search]. rewrite M. reflexivity.
  - intros c rest I. unfold match_here, CodeParser.code_pattern.
    cbn [seq run]. rewrite strip_prefix_fence_other; [reflexivity|].
    intros ->. exact (P I).
Qed.

(** X11. For a language whose tag has no operator of [re],
    [CodeParser.parse_code], called without a block name on a text whose
    first backticks open a fence tagged [lang], returns the code of this
    fence without the white space it begins with, and logs nothing; the text
    after the closing fence plays no part. *)
Theorem strict_fence_round_trip (pre lang code post : str) (w : ascii) :
  plain lang = true ->
  ~ In "`"%char pre ->
  is_space w = true ->
  ~ In "`"%char code ->
  Spliced.CodeParser.parse_code []
    (pre ++ fence ++ lang ++ w :: code ++ fence ++ post) lang =
  Some (lstrip code, []).
Proof.
  intros L P W N. rewrite (spliced_strict_plain [] _ lang L).
  rewrite (strict_fence_code pre lang code post w P W N). reflexivity.
Qed.

Lemma strict_fence_round_trip_witness :
  Spliced.CodeParser.parse_code []
    (join_lines ["Here is the code:"; "```cpp"; "  int main() {}"; "```";
                 "and some `words`"]) (py "cpp") =
  Some (join_lines ["int main() {}"; ""], []).
Proof.
  apply (strict_fence_round_trip (join_lines ["Here is the code:"; ""])
           (py "cpp") (join_lines ["  int main() {}"; ""])
           (join_lines [""; "and some `words`"]) nl).
  - reflexivity.
  - intros H. cbv in H. intuition discriminate.
  - reflexivity.
  - intros H. cbv in H. intuition discriminate.
Defined.

Lemma lenient_match_fence (tag code post : str) (w : ascii) :
  forallb (fun c => negb (is_space c)) tag = true ->
  is_space w = true ->
  ~ In "`"%char code ->
  match_here (OutputParser.code_pattern [])
    (fence ++ tag ++ w :: code ++ fence ++ post) =
  Some [(1, lstrip code)].
Proof.
  intros T W N. unfold match_here, OutputParser.code_pattern.
  change (seq [Str fence; StarLazy any_char; spaces1;
               Grp 1 (StarLazy any_char); Str fence])
    with (Cat (Str fence)
            (Cat (StarLazy any_char)
               (seq [spaces1; Grp 1 (StarLazy any_char); Str fence]))).
  cbn [run]. rewrite strip_prefix_app.
  rewrite star_lazy_skip.
  - assert (K := code_after_tag w code post [] W N).
    destruct code; cbn [star_lazy app] in *; rewrite K; reflexivity.
  - intros c rest I. cbn [seq]. unfold spaces1. cbn [run].
    rewrite forallb_forall in T. specialize (T c I).
    destruct (is_space c); [discriminate T|reflexivity].
Qed.

(** X12. The lenient [parse_code] with its default language, on a text whose
    first backticks open a fence: whatever the tag of the fence, as long as
    it has no white space, the result is the code of the fence without the
    white space it begins with. *)
Theorem lenient_fence_round_trip (pre tag code post : str) (w : ascii) :
  ~ In "`"%char pre ->
  forallb (fun c => negb (is_space c)) tag = true ->
  is_space w = true ->
  ~ In "`"%char code ->
  OutputParser.parse_code
    (pre ++ fence ++ tag ++ w :: code ++ fence ++ post) [] =
  (lstrip code, []).
Proof.
  intros P T W N. unfold OutputParser.parse_code.
  rewrite search_skip.
  - assert (M := lenient_match_fence tag code post w T W N).
    destruct (fence ++ tag ++ w :: code ++ fence ++ post) as [|x t] eqn:E;
      [discriminate E|].
    cbn [search]. rewrite M. reflexivity.
  - intros c rest I. unfold match_here, OutputParser.code_pattern.
    cbn [seq run]. rewrite strip_prefix_fence_other; [reflexivity|].
    intros ->. exact (P I).
Qed.

Lemma lenient_fence_round_trip_witness :
  OutputParser.parse_code
    (join_lines ["The files:"; "```python"; "  ['main.py']"; "```"; "done"])
    [] =
  (join_lines ["['main.py']"; ""], []).
Proof.
  apply (lenient_fence_round_trip (join_lines ["The files:"; ""])
           (py "python") (join_lines ["  ['main.py']"; ""])
           (join_lines [""; "done"]) nl).
  - intros H. cbv in H. intuition discriminate.
  - reflexivity.
  - reflexivity.
  - intros H. cbv in H. intuition discriminate.
Defined.

(** ** [parse_python_code] *)

Lemma star_lazy_now (A : Type) (p : ascii -> bool) (t : str)
  (k : str -> option A) :
  k t <> None -> star_lazy p t k = k t.
Proof.
  intros H. destruct t; cbn [star_lazy]; destruct (k _); congruence.
Qed.

(** A greedy run over any character, before something that can be read
    everywhere, takes the whole text. *)
Lemma star_greedy_all (A : Type) (t : str) (k : str -> option A) :
  (forall t', k t' <> None) -> star_greedy any_char t k = k [].
Proof.
  intros H. induction t as [|c t IH]; cbn [star_greedy any_char];
    [reflexivity|].
  rewrite IH. destruct (k []) eqn:E; [reflexivity|].
  exfalso. exact (H [] E).
Qed.

Lemma star_greedy_last_at (A : Type) (s t : str) (g : str -> str -> A) :
  star_greedy any_char t
    (fun t' => match strip_prefix s t' with
               | Some t'' => Some (g t' t'')
               | None => None
               end) =
  match rfind s t with
  | Some j => Some (g (skipn j t) (skipn (j + length s) t))
  | None => None
  end.
Proof.
  induction t as [|c t IH]; cbn [star_greedy any_char rfind].
  - rewrite starts_with_strip_prefix.
    destruct (strip_prefix s []) as [r|] eqn:P; [|reflexivity].
    apply strip_prefix_spec in P. destruct s; [|discriminate].
    simpl in P. subst. reflexivity.
  - rewrite IH. destruct (rfind s t) as [j|]; [reflexivity|].
    rewrite starts_with_strip_prefix.
    destruct (strip_prefix s (c :: t)) as [r|] eqn:P; [|reflexivity].
    apply strip_prefix_spec in P. cbn [Nat.add skipn]. rewrite P.
    rewrite skipn_app_length. reflexivity.
Qed.

(** The code and the closing fence of the first pattern: the code runs to
    the last fence of the text. *)
Lemma python_tail (t : str) (caps : captures) :
  run (Cat (Grp 2 (StarGreedy any_char))
         (Grp 3 (Cat (Str fence) (StarLazy any_char)))) t caps
    (fun _ caps' => Some caps') =
  match rfind fence t with
  | Some j =>
      Some ((3, consumed (skipn j t) (skipn (j + length fence) t)) ::
            (2, firstn j t) :: caps)
  | None => None
  end.
Proof.
  cbn [run].
  rewrite (star_greedy_ext _ any_char t _
             (fun t' => match strip_prefix fence t' with
                        | Some t'' =>
                            Some ((3, consumed t' t'') ::
                                  (2, consumed t t') :: caps)
                        | None => None
                        end)).
  - rewrite (star_greedy_last_at _ fence t
               (fun t' t'' => (3, consumed t' t'') ::
                              (2, consumed t t') :: caps)).
    destruct (rfind fence t) as [j|] eqn:R; [|reflexivity].
    destruct (rfind_some _ _ _ R) as [L _].
    rewrite (consumed_skipn t L). reflexivity.
  - intros u v _. destruct (strip_prefix fence v) as [t''|]; [|reflexivity].
    apply star_lazy_now. discriminate.
Qed.

Lemma occurs_app_l (s a b : str) : Spec.occurs s a -> Spec.occurs s (a ++ b).
Proof.
  intros (x & y & ->). exists x, (y ++ b).
  repeat rewrite <- app_assoc. reflexivity.
Qed.

(** The optional head of the patterns needs the tag of a Python fence. *)
Lemma python_head_fails (A : Type) (t : str) (caps : captures)
  (k : str -> captures -> option A) :
  ~ Spec.occurs (py "```python") t ->
  run (Grp 1 (seq [StarLazy any_char; Str (py "```python");
                   StarLazy any_char; spaces1])) t caps k = None.
Proof.
  intros N.
  destruct (run _ t caps k) as [a|] eqn:R; [|reflexivity].
  exfalso. apply run_sound in R. destruct R as (u & v & caps' & -> & M & _).
  cbn [seq] in M. unfold spaces1 in M. inv_matches.
  apply N. apply occurs_app_l.
  match goal with
  | |- Spec.occurs _ (?a ++ _ ++ ?b) => exists a, b; reflexivity
  end.
Qed.

Lemma python_pattern_1_none (t : str) :
  find fence t = None -> search OutputParser.python_pattern_1 t = None.
Proof.
  intros F. apply search_none_iff. intros (a & u & v & E & M).
  unfold OutputParser.python_pattern_1 in M. cbn [seq] in M. inv_matches.
  apply find_none_iff in F. apply F.
  match goal with
  | |- Spec.occurs _ (a ++ (?h ++ ?c ++ fence ++ ?r) ++ v) =>
      exists (a ++ h ++ c), (r ++ v)
  end.
  repeat rewrite <- app_assoc. reflexivity.
Qed.

Lemma python_pattern_1_untagged (t : str) :
  ~ Spec.occurs (py "```python") t ->
  search OutputParser.python_pattern_1 t =
  match rfind fence t with
  | Some j =>
      Some [(3, consumed (skipn j t) (skipn (j + length fence) t));
            (2, firstn j t)]
  | None => None
  end.
Proof.
  intros N.
  destruct (rfind fence t) as [j|] eqn:R.
  - apply search_here. unfold match_here, OutputParser.python_pattern_1,
      OutputParser.python_head.
    change (run (seq [Opt (Grp 1 (seq [StarLazy any_char;
                                        Str (py "```python");
                                        StarLazy any_char; spaces1]));
                      Grp 2 (StarGreedy any_char);
                      Grp 3 (seq [Str fence; StarLazy any_char])]) t []
              (fun _ caps => Some caps))
      with (match
              run (Grp 1 (seq [StarLazy any_char; Str (py "```python");
                               StarLazy any_char; spaces1])) t []
                (fun t1 caps1 =>
                   run (Cat (Grp 2 (StarGreedy any_char))
                          (Grp 3 (Cat (Str fence) (StarLazy any_char))))
                     t1 caps1 (fun _ caps => Some caps))
            with
            | Some a => Some a
            | None =>
                run (Cat (Grp 2 (StarGreedy any_char))
                       (Grp 3 (Cat (Str fence) (StarLazy any_char))))
                  t [] (fun _ caps => Some caps)
            end).
    rewrite (python_head_fails _ t [] _ N).
    rewrite python_tail, R. reflexivity.
  - apply python_pattern_1_none. apply rfind_none. exact R.
Qed.

Lemma consumed_nil (t : str) : consumed t [] = t.
Proof.
  unfold consumed. cbn [length]. rewrite Nat.sub_0_r. apply firstn_all.
Qed.

Lemma python_pattern_2_untagged (t : str) :
  ~ Spec.occurs (py "```python") t ->
  search OutputParser.python_pattern_2 t = Some [(2, t)].
Proof.
  intros N. apply search_here.
  unfold match_here, OutputParser.python_pattern_2, OutputParser.python_head.
  change (run (seq [Opt (Grp 1 (seq [StarLazy any_char;
                                      Str (py "```python");
                                      StarLazy any_char; spaces1]));
                    Grp 2 (StarGreedy any_char)]) t []
            (fun _ caps => Some caps))
    with (match
            run (Grp 1 (seq [StarLazy any_char; Str (py "```python");
                             StarLazy any_char; spaces1])) t []
              (fun t1 caps1 =>
                 run (Grp 2 (StarGreedy any_char)) t1 caps1
                   (fun _ caps => Some caps))
          with
          | Some a => Some a
          | None =>
              run (Grp 2 (StarGreedy any_char)) t []
                (fun _ caps => Some caps)
          end).
  rewrite (python_head_fails _ t [] _ N).
  cbn [run]. rewrite star_greedy_all by discriminate.
  rewrite consumed_nil. reflexivity.
Qed.

(** X13. [parse_python_code] on a text without the tag of a Python fence.
    The first pattern takes the text before the last fence, also when this
    text holds a fence of its own; when this text is empty or is not Python,
    the second pattern takes the whole text. *)
Theorem parse_python_code_untagged (ast_parse : str -> bool) (text : str) :
  ~ Spec.occurs (py "```python") text ->
  OutputParser.parse_python_code ast_parse text =
  let whole :=
    match text with
    | [] => Raise ValueError
    | _ :: _ => if ast_parse text then Ok text else Raise ValueError
    end in
  match rfind fence text with
  | Some (S j) =>
      if ast_parse (firstn (S j) text) then Ok (firstn (S j) text) else whole
  | _ => whole
  end.
Proof.
  intros N. cbv zeta.
  unfold OutputParser.parse_python_code, OutputParser.parse_python_code_with.
  rewrite (python_pattern_1_untagged text N).
  rewrite (python_pattern_2_untagged text N).
  cbn [group Nat.eqb].
  assert (W : match text with
              | [] => None
              | c :: code => if ast_parse (c :: code) then Some (c :: code)
                             else None
              end =
              match text with
              | [] => None
              | _ :: _ => if ast_parse text then Some text else None
              end).
  { destruct text; reflexivity. }
  destruct (rfind fence text) as [[|j]|] eqn:R.
  - cbn [group Nat.eqb firstn]. destruct text as [|c t]; [reflexivity|].
    destruct (ast_parse (c :: t)); reflexivity.
  - destruct text as [|c t]; [discriminate R|].
    cbn [group Nat.eqb firstn].
    destruct (ast_parse (c :: firstn j t)); [reflexivity|].
    destruct (ast_parse (c :: t)); reflexivity.
  - destruct text as [|c t]; [reflexivity|].
    destruct (ast_parse (c :: t)); reflexivity.
Qed.

Lemma parse_python_code_untagged_witness :
  OutputParser.parse_python_code
    (fun code => str_eqb code (join_lines ["print(1)"; ""]))
    (join_lines ["print(1)"; ""]) = Ok (join_lines ["print(1)"; ""]) /\
  OutputParser.parse_python_code
    (fun code => str_eqb code (join_lines ["print(1)"; ""]))
    (join_lines ["```"; "print(1)"; "```"]) = Raise ValueError.
Proof.
  split.
  - rewrite (parse_python_code_untagged
               (fun code => str_eqb code (join_lines ["print(1)"; ""]))
               (join_lines ["print(1)"; ""])).
    + reflexivity.
    + apply find_none_iff. reflexivity.
  - rewrite (parse_python_code_untagged
               (fun code => str_eqb code (join_lines ["print(1)"; ""]))
               (join_lines ["```"; "print(1)"; "```"])).
    + reflexivity.
    + apply find_none_iff. reflexivity.
Defined.

Lemma starts_with_backticks (s q : str) :
  s <> [] -> (forall x, In x s -> x = "`"%char) -> ~ In "`"%char q ->
  starts_with s q = false.
Proof.
  intros NE U N. destruct q as [|x q].
  - destruct s; [congruence|reflexivity].
  - apply (starts_with_uniform "`"%char s NE U).
    intros ->. apply N. left; reflexivity.
Qed.

Lemma rfind_fence_last (a post : str) :
  ~ In "`"%char post -> rfind fence (a ++ fence ++ post) = Some (length a).
Proof.
  intros N. induction a as [|c a IH].
  - assert (R0 : rfind fence post = None).
    { apply rfind_none. apply (find_uniform_none "`"%char fence).
      - discriminate.
      - intros x [<-|[<-|[<-|[]]]]; reflexivity.
      - exact N. }
    assert (S1 : starts_with (py "`") post = false).
    { apply starts_with_backticks; [discriminate| |exact N].
      intros x [<-|[]]; reflexivity. }
    assert (S2 : starts_with (py "``") post = false).
    { apply starts_with_backticks; [discriminate| |exact N].
      intros x [<-|[<-|[]]]; reflexivity. }
    change (fence ++ post) with ("`"%char :: "`"%char :: "`"%char :: post).
    cbn [app rfind length]. rewrite R0.
    change (starts_with fence ("`"%char :: post))
      with (starts_with (py "``") post).
    rewrite S2.
    change (starts_with fence ("`"%char :: "`"%char :: post))
      with (starts_with (py "`") post).
    rewrite S1. reflexivity.
  - cbn [app rfind length]. rewrite IH. reflexivity.
Qed.

(** The head of the patterns on a text whose first backticks open a Python
    fence: it reads up to the code, whatever comes next. *)
Lemma python_head_tagged (A : Type) (pre rest : str) (w : ascii)
  (caps : captures) (k : str -> captures -> option A) :
  ~ In "`"%char pre ->
  is_space w = true ->
  k (lstrip rest)
    ((1, consumed (pre ++ py "```python" ++ w :: rest) (lstrip rest)) :: caps)
    <> None ->
  run (Grp 1 (seq [StarLazy any_char; Str (py "```python");
                   StarLazy any_char; spaces1]))
    (pre ++ py "```python" ++ w :: rest) caps k =
  k (lstrip rest)
    ((1, consumed (pre ++ py "```python" ++ w :: rest) (lstrip rest)) :: caps).
Proof.
  intros P W K.
  set (text := pre ++ py "```python" ++ w :: rest) in *.
  cbn [seq]. unfold spaces1. cbn [run].
  set (k3 := fun t3 : str => k t3 ((1, consumed text t3) :: caps)).
  set (k2 := fun t2 : str =>
               match t2 with
               | [] => None
               | c :: t' => if is_space c then star_greedy is_space t' k3
                            else None
               end).
  set (k1 := fun t1 : str =>
               match strip_prefix (py "```python") t1 with
               | Some t' => star_lazy any_char t' k2
               | None => None
               end).
  assert (E3 : star_greedy is_space rest k3 = k3 (lstrip rest)).
  { apply star_greedy_lstrip_some. exact K. }
  assert (E2 : star_lazy any_char (w :: rest) k2 = k3 (lstrip rest)).
  { rewrite star_lazy_now; unfold k2; rewrite W, E3; [reflexivity|exact K]. }
  assert (E1 : k1 (py "```python" ++ w :: rest) = k3 (lstrip rest)).
  { unfold k1. rewrite strip_prefix_app. exact E2. }
  unfold text. rewrite star_lazy_skip.
  - rewrite star_lazy_now; rewrite E1; [reflexivity|exact K].
  - intros c r I. unfold k1.
    change (strip_prefix (py "```python") (c :: r))
      with (if Ascii.eqb "`" c then strip_prefix (py "``python") r else None).
    destruct (Ascii.eqb "`" c) eqn:E; [|reflexivity].
    apply Ascii.eqb_eq in E. subst c. contradiction.
Qed.

Lemma python_pattern_1_tagged (pre code post : str) (w : ascii) :
  ~ In "`"%char pre ->
  is_space w = true ->
  ~ In "`"%char code ->
  ~ In "`"%char post ->
  exists g1 g3,
    search OutputParser.python_pattern_1
      (pre ++ py "```python" ++ w :: code ++ fence ++ post) =
    Some [(3, g3); (2, lstrip code); (1, g1)].
Proof.
  intros P W N Q.
  set (text := pre ++ py "```python" ++ w :: code ++ fence ++ post).
  assert (E : lstrip (code ++ fence ++ post) = lstrip code ++ fence ++ post).
  { apply lstrip_app_no_lead; [reflexivity|discriminate]. }
  assert (T : forall caps,
             run (Cat (Grp 2 (StarGreedy any_char))
                    (Grp 3 (Cat (Str fence) (StarLazy any_char))))
               (lstrip (code ++ fence ++ post)) caps
               (fun _ caps' => Some caps') =
             Some ((3, consumed (skipn (length (lstrip code))
                                   (lstrip code ++ fence ++ post))
                         (skipn (length (lstrip code) + length fence)
                            (lstrip code ++ fence ++ post))) ::
                   (2, lstrip code) :: caps)).
  { intros caps. rewrite python_tail, E, (rfind_fence_last _ _ Q).
    rewrite firstn_app_length. reflexivity. }
  eexists; eexists. apply search_here.
  unfold match_here, OutputParser.python_pattern_1, OutputParser.python_head.
  change (run (seq [Opt (Grp 1 (seq [StarLazy any_char;
                                      Str (py "```python");
                                      StarLazy any_char; spaces1]));
                    Grp 2 (StarGreedy any_char);
                    Grp 3 (seq [Str fence; StarLazy any_char])]) text []
            (fun _ caps => Some caps))
    with (match
            run (Grp 1 (seq [StarLazy any_char; Str (py "```python");
                             StarLazy any_char; spaces1])) text []
              (fun t1 caps1 =>
                 run (Cat (Grp 2 (StarGreedy any_char))
                        (Grp 3 (Cat (Str fence) (StarLazy any_char))))
                   t1 caps1 (fun _ caps => Some caps))
          with
          | Some a => Some a
          | None =>
              run (Cat (Grp 2 (StarGreedy any_char))
                     (Grp 3 (Cat (Str fence) (StarLazy any_char))))
                text [] (fun _ caps => Some caps)
          end).
  unfold text.
  rewrite (python_head_tagged captures pre (code ++ fence ++ post) w []
             (fun t1 caps1 =>
                run (Cat (Grp 2 (StarGreedy any_char))
                       (Grp 3 (Cat (Str fence) (StarLazy any_char))))
                  t1 caps1 (fun _ caps => Some caps)) P W).
  - rewrite T. reflexivity.
  - rewrite T. discriminate.
Qed.

(** X14. [parse_python_code] on a text whose only backticks are those of one
    Python fence returns the code of the fence without the white space it
    begins with, when this code is not empty and is Python. *)
Theorem parse_python_code_fenced (ast_parse : str -> bool)
  (pre code post : str) (w : ascii) :
  ~ In "`"%char pre ->
  is_space w = true ->
  ~ In "`"%char code ->
  ~ In "`"%char post ->
  lstrip code <> [] ->
  ast_parse (lstrip code) = true ->
  OutputParser.parse_python_code ast_parse
    (pre ++ py "```python" ++ w :: code ++ fence ++ post) =
  Ok (lstrip code).
Proof.
  intros P W N Q NE OK.
  unfold OutputParser.parse_python_code, OutputParser.parse_python_code_with.
  destruct (python_pattern_1_tagged pre code post w P W N Q) as (g1 & g3 & M).
  rewrite M. cbn [group Nat.eqb].
  destruct (lstrip code) as [|c code'] eqn:L; [congruence|].
  rewrite OK. reflexivity.
Qed.

Lemma parse_python_code_fenced_witness :
  OutputParser.parse_python_code
    (fun code => str_eqb code (join_lines ["print(1)"; ""]))
    (join_lines ["Here it is:"; "```python"; "  print(1)"; "```"; "Done."]) =
  Ok (join_lines ["print(1)"; ""]).
Proof.
  apply (parse_python_code_fenced
           (fun code => str_eqb code (join_lines ["print(1)"; ""]))
           (join_lines ["Here it is:"; ""])
           (join_lines ["  print(1)"; ""])
           (join_lines [""; "Done."]) nl).
  - intros H. cbv in H. intuition discriminate.
  - reflexivity.
  - intros H. cbv in H. intuition discriminate.
  - intros H. cbv in H. intuition discriminate.
  - discriminate.
  - reflexivity.
Defined.

(** ** [parse_recipient] *)

Lemma match_here_sound (r : regex) (t : str) (caps : captures) :
  match_here r t = Some caps -> exists u v, t = u ++ v /\ Spec.matches r u.
Proof.
  unfold match_here. intros H. apply run_sound in H.
  destruct H as (u & v & _ & E & M & _). eauto.
Qed.

Lemma occurs_cons (s t : str) (c : ascii) :
  Spec.occurs s t -> Spec.occurs s (c :: t).
Proof. intros (a & b & ->). exists (c :: a), b. reflexivity. Qed.

Lemma recipient_pattern_1_marker (u : str) :
  Spec.matches recipient_pattern_1 u -> Spec.occurs (py "Send To:") u.
Proof.
  unfold recipient_pattern_1, letters1. cbn [seq]. intros M. inv_matches.
  match goal with
  | |- Spec.occurs _ (_ ++ ?b) => exists (py "## "), b; reflexivity
  end.
Qed.

Lemma recipient_pattern_2_marker (u : str) :
  Spec.matches recipient_pattern_2 u -> Spec.occurs (py "Send To:") u.
Proof.
  unfold recipient_pattern_2, letters1. cbn [seq]. intros M. inv_matches.
  match goal with
  | |- Spec.occurs _ (_ ++ ?b) => exists [], b; reflexivity
  end.
Qed.

Lemma search_either_none (t : str) :
  ~ Spec.occurs (py "Send To:") t ->
  search_either recipient_pattern_1 recipient_pattern_2 t = None.
Proof.
  induction t as [|c t IH]; intros N; cbn [search_either].
  - destruct (match_here recipient_pattern_1 []) as [caps|] eqn:M1.
    { exfalso. destruct (match_here_sound _ _ _ M1) as (u & v & E & M).
      apply N. rewrite E. apply occurs_app_l.
      apply recipient_pattern_1_marker. exact M. }
    destruct (match_here recipient_pattern_2 []) as [caps|] eqn:M2;
      [|reflexivity].
    exfalso. destruct (match_here_sound _ _ _ M2) as (u & v & E & M).
    apply N. rewrite E. apply occurs_app_l.
    apply recipient_pattern_2_marker. exact M.
  - destruct (match_here recipient_pattern_1 (c :: t)) as [caps|] eqn:M1.
    { exfalso. destruct (match_here_sound _ _ _ M1) as (u & v & E & M).
      apply N. rewrite E. apply occurs_app_l.
      apply recipient_pattern_1_marker. exact M. }
    destruct (match_here recipient_pattern_2 (c :: t)) as [caps|] eqn:M2.
    { exfalso. destruct (match_here_sound _ _ _ M2) as (u & v & E & M).
      apply N. rewrite E. apply occurs_app_l.
      apply recipient_pattern_2_marker. exact M. }
    apply IH. intros H. apply N. apply occurs_cons. exact H.
Qed.

(** X15. Without the marker [Send To:] in the text, [parse_recipient]
    returns the empty string and writes its warning. *)
Theorem parse_recipient_not_found (text : str) :
  ~ Spec.occurs (py "Send To:") text ->
  parse_recipient text =
  ([], [LoggingWarning (py "Recipient not found in the text.")]).
Proof.
  intros N. unfold parse_recipient.
  rewrite (search_either_none text N). reflexivity.
Qed.

Lemma parse_recipient_not_found_witness :
  parse_recipient (py "send to: Alice") =
  ([], [LoggingWarning (py "Recipient not found in the text.")]).
Proof.
  apply (parse_recipient_not_found (py "send to: Alice")).
  apply find_none_iff. reflexivity.
Defined.

(** A greedy run stops where its class stops, when the rest can be read
    from there. *)
Lemma star_greedy_max (A : Type) (p : ascii -> bool) (u v : str)
  (k : str -> option A) :
  forallb p u = true ->
  match v with [] => True | c :: _ => p c = false end ->
  k v <> None ->
  star_greedy p (u ++ v) k = k v.
Proof.
  intros U V K. induction u as [|c u IH]; cbn [app star_greedy].
  - destruct v as [|c v]; cbn [star_greedy]; [reflexivity|].
    rewrite V. reflexivity.
  - cbn [forallb] in U. apply andb_true_iff in U. destruct U as [C U].
    rewrite C, (IH U). destruct (k v); [reflexivity|congruence].
Qed.

Lemma star_greedy_const (A : Type) (p : ascii -> bool) (t : str) (a : A) :
  star_greedy p t (fun _ => Some a) = Some a.
Proof.
  induction t as [|c t IH]; cbn [star_greedy]; [reflexivity|].
  rewrite IH. destruct (p c); reflexivity.
Qed.

Lemma consumed_app (a b : str) : consumed (a ++ b) b = a.
Proof.
  unfold consumed. rewrite length_app.
  replace (length a + length b - length b) with (length a) by lia.
  apply firstn_app_length.
Qed.

Lemma letter_not_space (c : ascii) : is_letter c = true -> is_space c = false.
Proof.
  unfold is_letter. intros H. apply existsb_exists in H.
  destruct H as (x & I & E). apply Ascii.eqb_eq in E. subst x.
  cbv [py String.list_ascii_of_string] in I.
  repeat (destruct I as [<-|I]; [reflexivity|]). destruct I.
Qed.

(** White space, the name and white space, read after the marker. *)
Lemma recipient_tail (n : nat) (ws name rest : str) (caps : captures) :
  forallb is_space ws = true ->
  name <> [] ->
  forallb is_letter name = true ->
  match rest with [] => True | c :: _ => is_letter c = false end ->
  run (seq [StarGreedy is_space; Grp n letters1; StarGreedy is_space])
    (ws ++ name ++ rest) caps (fun _ caps' => Some caps') =
  Some ((n, name) :: caps).
Proof.
  intros W NE L R. destruct name as [|c name]; [congruence|].
  cbn [forallb] in L. apply andb_true_iff in L. destruct L as [C L].
  cbn [seq]. unfold letters1. cbn [run].
  assert (K : star_greedy is_letter (name ++ rest)
                (fun t3 => star_greedy is_space t3
                   (fun _ => Some ((n, consumed (c :: name ++ rest) t3)
                                   :: caps))) =
              Some ((n, c :: name) :: caps)).
  { rewrite star_greedy_max; try assumption.
    - rewrite star_greedy_const.
      change (c :: name ++ rest) with ((c :: name) ++ rest).
      rewrite consumed_app. reflexivity.
    - rewrite star_greedy_const. discriminate. }
  rewrite star_greedy_max.
  - cbn [app]. rewrite C. exact K.
  - exact W.
  - cbn [app]. apply letter_not_space. exact C.
  - cbn [app]. rewrite C. intros H.
    pose proof (eq_trans (eq_sym K) H) as X. discriminate X.
Qed.

Lemma recipient_match_2 (ws name rest : str) :
  forallb is_space ws = true ->
  name <> [] ->
  forallb is_letter name = true ->
  match rest with [] => True | c :: _ => is_letter c = false end ->
  match_here recipient_pattern_2 (py "Send To:" ++ ws ++ name ++ rest) =
  Some [(2, name)].
Proof.
  intros W NE L R. unfold match_here, recipient_pattern_2.
  change (seq [Str (py "Send To:"); StarGreedy is_space; Grp 2 letters1;
               StarGreedy is_space])
    with (Cat (Str (py "Send To:"))
            (seq [StarGreedy is_space; Grp 2 letters1; StarGreedy is_space])).
  cbn [run]. rewrite strip_prefix_app.
  apply recipient_tail; assumption.
Qed.

Lemma recipient_prefix (p tail t' : str) :
  ~ In "S"%char p ->
  strip_prefix (py "## Send To:") (p ++ py "Send To:" ++ tail) = Some t' ->
  t' = tail.
Proof.
  intros N H. apply strip_prefix_spec in H.
  destruct p as [|a [|b [|c [|d p]]]]; cbn in H; inversion H; subst.
  - reflexivity.
  - exfalso. apply N. right; right; right; left; reflexivity.
Qed.

Lemma recipient_match_1 (p ws name rest : str) (caps : captures) :
  ~ In "S"%char p ->
  forallb is_space ws = true ->
  name <> [] ->
  forallb is_letter name = true ->
  match rest with [] => True | c :: _ => is_letter c = false end ->
  match_here recipient_pattern_1 (p ++ py "Send To:" ++ ws ++ name ++ rest) =
  Some caps ->
  caps = [(1, name)].
Proof.
  intros N W NE L R. unfold match_here, recipient_pattern_1.
  change (seq [Str (py "## Send To:"); StarGreedy is_space; Grp 1 letters1;
               StarGreedy is_space])
    with (Cat (Str (py "## Send To:"))
            (seq [StarGreedy is_space; Grp 1 letters1; StarGreedy is_space])).
  cbn [run].
  destruct (strip_prefix (py "## Send To:")
              (p ++ py "Send To:" ++ ws ++ name ++ rest)) as [t'|] eqn:P;
    [|discriminate].
  apply recipient_prefix in P; [|exact N]. subst t'.
  rewrite recipient_tail by assumption.
  intros H; inversion H; reflexivity.
Qed.

Lemma recipient_no_match_2 (c : ascii) (t : str) :
  c <> "S"%char -> match_here recipient_pattern_2 (c :: t) = None.
Proof.
  intros N. unfold match_here, recipient_pattern_2.
  change (seq [Str (py "Send To:"); StarGreedy is_space; Grp 2 letters1;
               StarGreedy is_space])
    with (Cat (Str (py "Send To:"))
            (seq [StarGreedy is_space; Grp 2 letters1; StarGreedy is_space])).
  cbn [run].
  change (strip_prefix (py "Send To:") (c :: t))
    with (if Ascii.eqb "S" c then strip_prefix (py "end To:") t else None).
  destruct (Ascii.eqb "S" c) eqn:E; [|reflexivity].
  apply Ascii.eqb_eq in E. congruence.
Qed.

Lemma search_either_found (pre ws name rest : str) :
  ~ In "S"%char pre ->
  forallb is_space ws = true ->
  name <> [] ->
  forallb is_letter name = true ->
  match rest with [] => True | c :: _ => is_letter c = false end ->
  search_either recipient_pattern_1 recipient_pattern_2
    (pre ++ py "Send To:" ++ ws ++ name ++ rest) = Some [(1, name)] \/
  search_either recipient_pattern_1 recipient_pattern_2
    (pre ++ py "Send To:" ++ ws ++ name ++ rest) = Some [(2, name)].
Proof.
  intros N W NE L R. induction pre as [|c pre IH].
  - right. cbn [app].
    assert (M2 := recipient_match_2 ws name rest W NE L R).
    change (py "Send To:" ++ ws ++ name ++ rest)
      with ("S"%char :: py "end To:" ++ ws ++ name ++ rest) in *.
    cbn [search_either]. rewrite M2.
    destruct (match_here recipient_pattern_1 _) as [caps|] eqn:M1;
      [|reflexivity].
    exfalso. revert M1. unfold match_here, recipient_pattern_1.
    cbn [seq run].
    change (strip_prefix (py "## Send To:")
              ("S"%char :: py "end To:" ++ ws ++ name ++ rest))
      with (@None str).
    discriminate.
  - assert (N' : ~ In "S"%char pre) by (intros H; apply N; right; exact H).
    specialize (IH N').
    change ((c :: pre) ++ py "Send To:" ++ ws ++ name ++ rest)
      with (c :: pre ++ py "Send To:" ++ ws ++ name ++ rest).
    cbn [search_either].
    destruct (match_here recipient_pattern_1
                (c :: pre ++ py "Send To:" ++ ws ++ name ++ rest))
      as [caps|] eqn:M1.
    + left. f_equal.
      apply (recipient_match_1 (c :: pre) ws name rest caps N W NE L R).
      exact M1.
    + rewrite recipient_no_match_2
        by (intros ->; apply N; left; reflexivity).
      exact IH.
Qed.

(** X16. After the first capital S of the text, when this one begins the
    marker [Send To:], [parse_recipient] returns the letters that follow the
    marker and its white space, and writes nothing. *)
Theorem parse_recipient_found (pre ws name rest : str) :
  ~ In "S"%char pre ->
  forallb is_space ws = true ->
  name <> [] ->
  forallb is_letter name = true ->
  match rest with [] => True | c :: _ => is_letter c = false end ->
  parse_recipient (pre ++ py "Send To:" ++ ws ++ name ++ rest) = (name, []).
Proof.
  intros N W NE L R. unfold parse_recipient.
  destruct (search_either_found pre ws name rest N W NE L R) as [E|E];
    rewrite E; cbn [group Nat.eqb];
    destruct name; [congruence|reflexivity|congruence|reflexivity].
Qed.

Lemma parse_recipient_found_witness :
  parse_recipient (join_lines ["## Send To: Engineer"; "write the code"]) =
  (py "Engineer", []).
Proof.
  apply (parse_recipient_found (py "## ") (py " ") (py "Engineer")
           (join_lines [""; "write the code"])).
  - intros H. cbv in H. intuition discriminate.
  - reflexivity.
  - discriminate.
  - reflexivity.
  - reflexivity.
Defined.

(** ** [require_python_version] *)

(** X17. On the version tuple of an interpreter, [(major, minor, micro,
    releaselevel, serial)], [require_python_version] tells whether the
    version is at least the required one: the comparison is decided within
    the numbers of the version, so that the release level, a string, is
    never compared with a number. A required version of another length than
    2 or 3 raises [ValueError]. *)
Theorem require_python_version_at_least (major minor micro serial : Z)
  (releaselevel : str) :
  let version_info :=
    [CInt major; CInt minor; CInt micro; CStr releaselevel; CInt serial] in
  (forall x y,
     require_python_version version_info [x; y] =
     Ok ((x <? major) || ((x =? major) && (y <=? minor)))%Z) /\
  (forall x y z,
     require_python_version version_info [x; y; z] =
     Ok ((x <? major) ||
         ((x =? major) &&
          ((y <? minor) || ((y =? minor) && (z <=? micro)))))%Z) /\
  (forall req_version,
     length req_version < 2 \/ 3 < length req_version ->
     require_python_version version_info req_version = Raise ValueError) /\
  (forall req_version,
     require_python_version version_info req_version <> Raise TypeError).
Proof.
  cbv zeta. split; [|split; [|split]].
  - intros x y. unfold require_python_version.
    cbn [length Nat.leb andb negb tuple_gt].
    destruct (Z.eqb_spec major x), (Z.eqb_spec minor y),
      (Z.ltb_spec x major), (Z.eqb_spec x major), (Z.leb_spec y minor);
      cbn [orb andb]; try reflexivity; try lia;
      f_equal; unfold Z.gtb;
      try (destruct (Z.compare_spec major x); try reflexivity; lia);
      try (destruct (Z.compare_spec minor y); try reflexivity; lia).
  - intros x y z. unfold require_python_version.
    cbn [length Nat.leb andb negb tuple_gt].
    destruct (Z.eqb_spec major x), (Z.eqb_spec minor y),
      (Z.eqb_spec micro z),
      (Z.ltb_spec x major), (Z.eqb_spec x major), (Z.ltb_spec y minor),
      (Z.eqb_spec y minor), (Z.leb_spec z micro);
      cbn [orb andb]; try reflexivity; try lia;
      f_equal; unfold Z.gtb;
      try (destruct (Z.compare_spec major x); try reflexivity; lia);
      try (destruct (Z.compare_spec minor y); try reflexivity; lia);
      try (destruct (Z.compare_spec micro z); try reflexivity; lia).
  - intros req_version H. unfold require_python_version.
    destruct req_version as [|x [|y [|z [|u r]]]]; cbn [length] in H;
      try lia; reflexivity.
  - intros req_version. unfold require_python_version.
    destruct req_version as [|x [|y [|z [|u r]]]];
      cbn [length Nat.leb andb negb tuple_gt]; try discriminate.
    + destruct (major =? x)%Z; [|discriminate].
      destruct (minor =? y)%Z; discriminate.
    + destruct (major =? x)%Z; [|discriminate].
      destruct (minor =? y)%Z; [|discriminate].
      destruct (micro =? z)%Z; discriminate.
Qed.

Lemma require_python_version_at_least_witness :
  require_python_version
    [CInt 3; CInt 9; CInt 0; CStr (py "final"); CInt 0] [3; 9]%Z = Ok true /\
  require_python_version
    [CInt 3; CInt 9; CInt 0; CStr (py "final"); CInt 0] [3; 9; 1]%Z =
  Ok false /\
  require_python_version
    [CInt 3; CInt 9; CInt 0; CStr (py "final"); CInt 0] [3]%Z =
  Raise ValueError.
Proof.
  pose proof (require_python_version_at_least 3 9 0 0 (py "final")) as H.
  cbv zeta in H. destruct H as (H2 & H3 & HV & _).
  split; [|split].
  - rewrite (H2 3 9)%Z. reflexivity.
  - rewrite (H3 3 9 1)%Z. reflexivity.
  - apply HV. left. cbn [length]. lia.
Defined.

(** ** [read_file_block] *)

Lemma read_file_block_loop_lines (fuel : nat) :
  forall (ix lineno end_lineno : Z) (reader lines : list str),
    fuel = Z.to_nat (end_lineno - ix) ->
    concat (read_file_block_loop fuel ix lineno end_lineno reader lines) =
    concat lines ++
    concat (skipn (Z.to_nat (lineno - 1 - ix))
              (firstn (Z.to_nat (end_lineno - ix)) reader)).
Proof.
  induction fuel as [|fuel IH]; intros ix lineno end_lineno reader lines F.
  - rewrite <- F. cbn [read_file_block_loop firstn].
    rewrite skipn_nil. cbn [concat]. rewrite app_nil_r. reflexivity.
  - assert (L : (ix < end_lineno)%Z) by lia.
    assert (F' : fuel = Z.to_nat (end_lineno - (ix + 1))) by lia.
    cbn [read_file_block_loop].
    destruct (Z.ltb_spec ix end_lineno) as [_|]; [|lia].
    rewrite <- F.
    destruct (Z.ltb_spec (ix + 1) lineno) as [B|B].
    + replace (Z.to_nat (lineno - 1 - ix))
        with (S (Z.to_nat (lineno - 1 - (ix + 1)))) by lia.
      destruct reader as [|line reader]; cbn [readline];
        rewrite (IH _ _ _ _ _ F'), <- F'.
      * rewrite !firstn_nil, !skipn_nil. reflexivity.
      * cbn [firstn skipn]. reflexivity.
    + destruct (Z.gtb_spec (ix + 1) end_lineno) as [|_]; [lia|].
      replace (Z.to_nat (lineno - 1 - ix)) with 0 by lia.
      destruct reader as [|line reader]; cbn [readline];
        rewrite (IH _ _ _ _ _ F'), <- F';
        replace (Z.to_nat (lineno - 1 - (ix + 1))) with 0 by lia;
        rewrite ?firstn_nil;
        cbn [firstn skipn concat]; rewrite concat_app; cbn [concat];
        rewrite ?app_nil_r, <- ?app_assoc; reflexivity.
Qed.

(** X18. [read_file_block] returns the lines [lineno] to [end_lineno] of the
    file, counted from 1 and both included, as one string: the lines before
    [lineno] are read and dropped, nothing is read after [end_lineno], and a
    range that ends after the last line is cut there. A file that does not
    exist gives the empty string. *)
Theorem read_file_block_lines (content : list str) (lineno end_lineno : Z) :
  read_file_block (Some content) lineno end_lineno =
  concat (skipn (Z.to_nat (lineno - 1))
            (firstn (Z.to_nat end_lineno) content)) /\
  read_file_block None lineno end_lineno = [].
Proof.
  split; [|reflexivity]. unfold read_file_block.
  rewrite (read_file_block_loop_lines (Z.to_nat end_lineno) 0 lineno
             end_lineno content [])
    by (rewrite Z.sub_0_r; reflexivity).
  rewrite !Z.sub_0_r. reflexivity.
Qed.

(** ** The exception of [OutputParser.parse_blocks] *)

Lemma op_loop_filter (blocks : list str) :
  forall d,
    OutputParser.parse_blocks_loop blocks d =
    OutputParser.parse_blocks_loop (filter nonblank blocks) d.
Proof.
  induction blocks as [|block blocks IH]; intros d; [reflexivity|].
  cbn [filter OutputParser.parse_blocks_loop].
  destruct (nonblank block) eqn:E; [|apply IH].
  cbn [OutputParser.parse_blocks_loop]. rewrite E.
  destruct (split1 [nl] block) as [|a [|b [|x y]]]; try reflexivity.
  destruct (last_char a); [apply IH|reflexivity].
Qed.

Lemma op_loop_app (good blocks : list str) :
  forall d,
    OutputParser.parse_blocks_loop (good ++ blocks) d =
    match OutputParser.parse_blocks_loop good d with
    | Ok d' => OutputParser.parse_blocks_loop blocks d'
    | Raise e => Raise e
    end.
Proof.
  induction good as [|block good IH]; intros d; [reflexivity|].
  cbn [app OutputParser.parse_blocks_loop].
  destruct (nonblank block); [|apply IH].
  destruct (split1 [nl] block) as [|a [|b [|x y]]]; try reflexivity.
  destruct (last_char a); [apply IH|reflexivity].
Qed.

Lemma forallb_filter (A : Type) (p q : A -> bool) (l : list A) :
  forallb p l = true -> forallb p (filter q l) = true.
Proof.
  induction l as [|x l IH]; [reflexivity|]. cbn [forallb filter].
  intros H. apply andb_true_iff in H. destruct H as [X H].
  destruct (q x); [cbn [forallb]; rewrite X|]; auto.
Qed.

(** X19. [OutputParser.parse_blocks] stops at the first fragment without a
    title line: it raises [ValueError] when this fragment has no line break,
    and [IndexError] when the fragment begins with a line break; what the
    later fragments are plays no part. *)
Theorem parse_blocks_first_bad_fragment (document : str)
  (good : list str) (bad : str) (rest : list str) :
  Spec.fragments document = good ++ bad :: rest ->
  forallb Spec.has_title_line good = true ->
  Spec.has_title_line bad = false ->
  OutputParser.parse_blocks document =
  Raise (if contains [nl] bad then IndexError else ValueError).
Proof.
  intros F G B. unfold OutputParser.parse_blocks.
  rewrite op_loop_filter. unfold Spec.fragments in F. rewrite F.
  rewrite op_loop_app.
  rewrite (@op_loop good [] (forallb_filter _ _ nonblank good G)).
  assert (NB : nonblank bad = true).
  { assert (I : In bad (filter nonblank (split (py "##") document))).
    { rewrite F. apply in_or_app. right. left. reflexivity. }
    apply filter_In in I. exact (proj2 I). }
  cbn [OutputParser.parse_blocks_loop]. rewrite NB.
  unfold Spec.has_title_line in B. unfold split1, contains.
  destruct (find [nl] bad) as [[|i]|]; [|discriminate B|reflexivity].
  cbn [firstn last_char rev]. reflexivity.
Qed.

Lemma parse_blocks_first_bad_fragment_witness :
  OutputParser.parse_blocks (join_lines ["## A"; "text"; "## B"]) =
  Raise ValueError /\
  OutputParser.parse_blocks (join_lines ["## A"; "text"; "##"; "B"; "## C"]) =
  Raise IndexError.
Proof.
  split.
  - apply (parse_blocks_first_bad_fragment
             (join_lines ["## A"; "text"; "## B"])
             [join_lines [" A"; "text"; ""]] (py " B") []); reflexivity.
  - apply (parse_blocks_first_bad_fragment
             (join_lines ["## A"; "text"; "##"; "B"; "## C"])
             [join_lines [" A"; "text"; ""]] (join_lines [""; "B"; ""])
             [py " C"]); reflexivity.
Defined.
